(** * The crawl engine of the scraper scripts, embedded in Rocq

    The development follows the Python sources file by file:
    [independent.py], [rekhta-data.py], [wiki-how.py], [nature-articles.py]
    and [bbc-articles.py].  Python [str] values are Rocq strings whose
    characters are code points below 256; Python sets are [gset string];
    the file system is a finite map from paths to nodes; network calls,
    the clock and the HTML helpers of [bs4] are parameters of the sections
    that use them.  The file system holds files only: the parent directory
    of every path is taken to exist, what [os.makedirs] makes of the
    download directory is a parameter, and text files are written on a
    POSIX system (a written line feed stays a line feed). *)

From stdpp Require Import gmap strings list sorting.
From Stdlib Require Import ZArith Lia Ascii.
From Stdlib Require String.

(** ** Exceptions and results *)

Inductive exn :=
| FileNotFoundError
| PermissionError
| UnicodeDecodeError
| JSONDecodeError
| KeyError
| TypeError
| ValueError
| AttributeError
| FileExistsError
| IsADirectoryError
| KeyboardInterrupt.

(** [except Exception] catches everything but the [BaseException]-only
    classes, of which the scripts meet [KeyboardInterrupt]. *)
Definition is_Exception (e : exn) : bool :=
  match e with KeyboardInterrupt => false | _ => true end.

Inductive res (A : Type) :=
| Ok (a : A)
| Raise (e : exn).
Arguments Ok {A} a.
Arguments Raise {A} e.

Global Instance res_ret : MRet res := @Ok.
Global Instance res_bind : MBind res := λ A B k m,
  match m with Ok a => k a | Raise e => Raise e end.

Definition returns {A} (m : res A) : Prop := ∃ a, m = Ok a.

(** ** Python text *)

Module Text.

Definition LF : ascii := "010"%char.
Definition CR : ascii := "013"%char.
Definition TAB : ascii := "009"%char.
Definition nl : string := String LF "".
Definition tab : string := String TAB "".

(** [str.isspace] on the code points below 256. *)
Definition isspace (c : ascii) : bool :=
    let n := N_of_ascii c in
    ((9 <=? n) && (n <=? 13) || (28 <=? n) && (n <=? 32)
     || (n =? 133) || (n =? 160))%N.

Fixpoint lstrip (s : string) : string :=
    match s with
    | "" => ""
    | String c s' => if isspace c then lstrip s' else s
    end.

Fixpoint rstrip (s : string) : string :=
    match s with
    | "" => ""
    | String c s' =>
        match rstrip s' with
        | "" => if isspace c then "" else String c ""
        | r => String c r
        end
    end.

(** [s.strip()] *)
Definition strip (s : string) : string := rstrip (lstrip s).

(** Universal newlines of a file opened in text mode for reading:
      CR LF and a lone CR both read as LF. *)
Fixpoint universal_newlines (s : string) : string :=
    match s with
    | "" => ""
    | String c s' =>
        if Ascii.eqb c CR then
          match s' with
          | String c' s'' =>
              if Ascii.eqb c' LF then String LF (universal_newlines s'')
              else String LF (universal_newlines s')
          | "" => String LF ""
          end
        else String c (universal_newlines s')
    end.

(** Iterating over a text file: the lines, each with its line feed, the
      last one possibly without. *)
Fixpoint readlines (s : string) : list string :=
    match s with
    | "" => []
    | String c s' =>
        if Ascii.eqb c LF then nl :: readlines s'
        else match readlines s' with
             | [] => [String c ""]
             | l :: ls => String c l :: ls
             end
    end.

(** [s.rstrip('/')] *)
Fixpoint rstrip_slash (s : string) : string :=
    match s with
    | "" => ""
    | String c s' =>
        match rstrip_slash s' with
        | "" => if Ascii.eqb c "/" then "" else String c ""
        | r => String c r
        end
    end.

(** [s.split('/')[-1]]: what follows the last slash. *)
Fixpoint has_slash (s : string) : bool :=
    match s with
    | "" => false
    | String c s' => Ascii.eqb c "/" || has_slash s'
    end.

Fixpoint last_segment (s : string) : string :=
    match s with
    | "" => ""
    | String c s' =>
        if has_slash s' then last_segment s'
        else if Ascii.eqb c "/" then s' else s
    end.

Fixpoint last_char (s : string) : option ascii :=
    match s with
    | "" => None
    | String c "" => Some c
    | String _ s' => last_char s'
    end.

(** [os.path.join(a, b)] for a relative [b]. *)
Definition path_join (a b : string) : string :=
    match last_char a with
    | None => b
    | Some c => if Ascii.eqb c "/" then a +:+ b else a +:+ "/" +:+ b
    end.

(** A string that survives a write as one line and a read back: not
      empty, no line break inside, no white space at either end. *)
Fixpoint no_linebreak (s : string) : bool :=
    match s with
    | "" => true
    | String c s' => negb (Ascii.eqb c LF) && negb (Ascii.eqb c CR) && no_linebreak s'
    end.

Definition one_line (s : string) : bool :=
    negb (String.eqb s "") && String.eqb (strip s) s && no_linebreak s.

(** [s.split('?')[0]]: what precedes the first question mark. *)
Fixpoint before_question (s : string) : string :=
  match s with
  | "" => ""
  | String c s' => if Ascii.eqb c "?" then "" else String c (before_question s')
  end.

(** [s.strip('/')] and [s.replace('/', '_')] *)
Fixpoint lstrip_slash (s : string) : string :=
  match s with
  | "" => ""
  | String c s' => if Ascii.eqb c "/" then lstrip_slash s' else s
  end.

Definition strip_slash (s : string) : string := rstrip_slash (lstrip_slash s).

Fixpoint replace_slash (s : string) : string :=
  match s with
  | "" => ""
  | String c s' =>
      String (if Ascii.eqb c "/" then "_"%char else c) (replace_slash s')
  end.

End Text.

Import Text.

(** ** The file system *)

Inductive node :=
| Regular (text : string)   (* a text file with this content *)
| Undecodable               (* bytes that are not UTF-8: reading raises *)
| Denied.                   (* exists, but every [open] raises *)

Abbreviation fs := (gmap string node).

(** [open(path, 'r', encoding='utf-8')] and reading the whole file. *)
Definition read_text (d : fs) (path : string) : res string :=
  match d !! path with
  | None => Raise FileNotFoundError
  | Some (Regular s) => Ok (universal_newlines s)
  | Some Undecodable => Raise UnicodeDecodeError
  | Some Denied => Raise PermissionError
  end.

(** [open(path, 'a')] and one [write]. *)
Definition append_text (d : fs) (path t : string) : res fs :=
  match d !! path with
  | None => Ok (<[path := Regular t]> d)
  | Some (Regular s) => Ok (<[path := Regular (s +:+ t)]> d)
  | Some Undecodable => Ok d
  | Some Denied => Raise PermissionError
  end.

(** [open(path, 'w')]: the file is created or emptied. *)
Definition open_w (d : fs) (path : string) : res fs :=
  match d !! path with
  | Some Denied => Raise PermissionError
  | _ => Ok (<[path := Regular ""]> d)
  end.

(** [os.path.exists(path)] *)
Definition exists_path (d : fs) (path : string) : bool :=
  bool_decide (is_Some (d !! path)).

(** [sorted(s)] of a set of strings. *)
Definition sorted (s : gset string) : list string :=
  merge_sort String.le (elements s).

(** Line-oriented URL files: the stripped lines that are not empty. *)
Definition url_lines (text : string) : list string :=
  filter (λ u, u ≠ "") (strip <$> readlines text).

(** ** What the crawlers share *)

(** What [crawler.arun(url)] hands back. *)
Record page := {
    html : string;
    markdown : option string
  }.

(** What the run does to the outside, in order. *)
Inductive event :=
  | Fetch (url : string)              (* crawler.arun(url) *)
  | Sleep (seconds : Z)               (* asyncio.sleep on a retry path *)
  | Pause                             (* the jittered rate-limit sleep *)
  | Lookup (url : string)             (* crawler.arun(url, cache_only=True) *)
  | Wrote (path text : string)        (* out.write on a file opened 'w' *)
  | Appended (path text : string).    (* a write on a file opened 'a' *)

Record state := {
    disk : fs;
    trace : list event;
    ticks : nat;                      (* readings of the clock so far *)
    calls : nat;                      (* calls of the crawler so far *)
    tracked : gset string;
    failed : gset string
  }.

Definition with_disk (d : fs) (st : state) : state :=
    {| disk := d; trace := trace st; ticks := ticks st; calls := calls st;
       tracked := tracked st; failed := failed st |}.
Definition emit (e : event) (st : state) : state :=
    {| disk := disk st; trace := trace st ++ [e]; ticks := ticks st;
       calls := calls st; tracked := tracked st; failed := failed st |}.
Definition tick (st : state) : state :=
    {| disk := disk st; trace := trace st; ticks := S (ticks st);
       calls := calls st; tracked := tracked st; failed := failed st |}.
Definition called (st : state) : state :=
    {| disk := disk st; trace := trace st; ticks := ticks st;
       calls := S (calls st); tracked := tracked st; failed := failed st |}.
Definition with_tracked (t : gset string) (st : state) : state :=
    {| disk := disk st; trace := trace st; ticks := ticks st;
       calls := calls st; tracked := t; failed := failed st |}.
Definition with_failed (f : gset string) (st : state) : state :=
    {| disk := disk st; trace := trace st; ticks := ticks st;
       calls := calls st; tracked := tracked st; failed := f |}.

(** The state a run starts in. *)
Definition start (d : fs) (tracked0 failed0 : gset string) : state :=
  {| disk := d; trace := []; ticks := 0; calls := 0;
     tracked := tracked0; failed := failed0 |}.

Definition fetches (t : list event) : list string :=
    omap (λ e, match e with Fetch u => Some u | _ => None end) t.
Definition sleeps (t : list event) : list Z :=
    omap (λ e, match e with Sleep z => Some z | _ => None end) t.
Definition writes (t : list event) : list string :=
    omap (λ e, match e with Wrote p _ => Some p | _ => None end) t.
Definition appends (path : string) (t : list event) : list string :=
    omap (λ e, match e with
               | Appended p x => if decide (p = path) then Some x else None
               | _ => None
               end) t.

(** What the crawler answers: a page, or an [Exception] with its text. *)
Inductive response :=
  | Page (p : page)
  | Failure (reason : string).

(** * independent.py *)

Module Independent.

Record config := {
    download_dir : string;
    track_file : string;
    urls_file : string;
    error_file : string;
    max_downloads : Z;
    retry_count : Z;
    retry_delay : Z;
    batch_size : Z;
    concurrent_requests : Z
  }.

(** [load_tracked_urls(filename)] with its [try]: the body may raise,
      the function catches every [Exception]. *)
Definition load_tracked_urls_body (d : fs) (filename : string)
    : res (gset string) :=
    text ← read_text d filename;
    mret (list_to_set (url_lines text)).

Definition load_tracked_urls (d : fs) (filename : string)
    : res (gset string) :=
    match load_tracked_urls_body d filename with
    | Ok s => Ok s
    | Raise e => if is_Exception e then Ok ∅ else Raise e
    end.

(** The loop of [load_candidate_urls] over the lines. *)
Fixpoint dedup_lines (lines : list string) (urls : list string)
      (seen : gset string) : list string :=
    match lines with
    | [] => urls
    | line :: rest =>
        let url := strip line in
        if bool_decide (url ≠ "") && bool_decide (url ∉ seen)
        then dedup_lines rest (urls ++ [url]) ({[url]} ∪ seen)
        else dedup_lines rest urls seen
    end.

Definition load_candidate_urls_body (d : fs) (filename : string)
    : res (list string) :=
    text ← read_text d filename;
    mret (dedup_lines (readlines text) [] ∅).

Definition load_candidate_urls (d : fs) (filename : string)
    : res (list string) :=
    match load_candidate_urls_body d filename with
    | Ok l => Ok l
    | Raise e => if is_Exception e then Ok [] else Raise e
    end.

(** [add_to_tracked(url, filename)]: the append, its failure logged and
      dropped. *)
Definition add_to_tracked (url filename : string) (st : state) : state :=
    match append_text (disk st) filename (url +:+ nl) with
    | Ok d => emit (Appended filename (url +:+ nl)) (with_disk d st)
    | Raise _ => st
    end.

(** [os.makedirs(path, exist_ok=True)].  The disk holds files only: a
      file at the path makes the call raise [FileExistsError]; otherwise
      [made] tells what the directories make of the call: nothing, when
      the directory is there or can be created, or the error raised. *)
Definition makedirs (made : option exn) (d : fs) (path : string) : res unit :=
    if exists_path d path then Raise FileExistsError
    else match made with Some e => Raise e | None => Ok () end.

(** [if not os.path.exists(filename): open(filename, 'a').close()],
      once the directory [dir] is there. *)
Definition touch (dir : string) (d : fs) (filename : string) : fs :=
    if bool_decide (filename = dir) || exists_path d filename then d
    else <[filename := Regular ""]> d.

(** [os.path.getsize(path) == 0], once the directory [dir] is there; of
      what cannot be opened as a file, a file without permission or the
      directory, the size is what [denied_empty] tells. *)
Definition is_empty (denied_empty : string → bool) (dir : string) (d : fs)
      (path : string) : res bool :=
    if bool_decide (path = dir) then Ok (denied_empty path)
    else
      match d !! path with
      | None => Raise FileNotFoundError
      | Some (Regular s) => Ok (bool_decide (s = ""))
      | Some Undecodable => Ok false
      | Some Denied => Ok (denied_empty path)
      end.

(** [setup_environment(config)], with [config["seed_url"]]: the
      download directory is made, the three files are created when they
      are missing, and an empty URL file is seeded. *)
Definition setup_environment (cfg : config) (seed_url : string)
      (denied_empty : string → bool) (made : option exn) (d : fs) : res fs :=
    _ ← makedirs made d (download_dir cfg);
    let d := foldl (touch (download_dir cfg)) d
               [track_file cfg; urls_file cfg; error_file cfg] in
    empty ← is_empty denied_empty (download_dir cfg) d (urls_file cfg);
    if empty : bool then
      d ← (if bool_decide (urls_file cfg = download_dir cfg)
           then Raise IsADirectoryError else open_w d (urls_file cfg));
      Ok (<[urls_file cfg := Regular (seed_url +:+ nl)]> d)
    else Ok d.

Section Crawl.

    (** [datetime.now()] formatted, by the number of earlier readings. *)
Variable now : nat → string.
    (** [crawler.arun(url)], by the number of earlier calls. *)
Variable arun : nat → string → response.
    (** [is_valid_article(html)], a [bs4] inspection. *)
Variable is_valid_article : string → bool.
    (** [str(e)] *)
Variable str : exn → string.
    (** The links [extract_links] finds in the cached page of a URL, the
        empty set when the lookup or the extraction raises. *)
Variable cached_links : string → gset string.

Variable cfg : config.

    (** [add_to_failed(url, reason, config)] *)
Definition add_to_failed (url reason : string) (st : state) : state :=
      let timestamp := now (ticks st) in
      let st := tick st in
      let line := url +:+ tab +:+ timestamp +:+ tab +:+ reason +:+ nl in
      match append_text (disk st) (error_file cfg) line with
      | Ok d => emit (Appended (error_file cfg) line) (with_disk d st)
      | Raise _ => st
      end.

Definition metadata (url article_id stamp : string) : string :=
      "---" +:+ nl +:+ "source_url: " +:+ url +:+ nl +:+
      "article_id: " +:+ article_id +:+ nl +:+
      "downloaded_at: " +:+ stamp +:+ nl +:+ "---" +:+ nl +:+ nl.

Definition mark_failed (url reason : string) (st : state)
      : state * (bool * option string) :=
      let st := add_to_failed url reason st in
      (with_failed ({[url]} ∪ failed st) st, (false, None)).

    (** The [for attempt in range(1, retry_count + 1)] loop of
        [download_article]; [n] attempts are left, this one is number
        [attempt]. *)
Fixpoint attempts (n : nat) (attempt : Z) (url article_id outfile : string)
        (st : state) : state * (bool * option string) :=
      match n with
      | O => (st, (false, None))
      | S n' =>
          let continue := attempts n' (attempt + 1) url article_id outfile in
          (* except Exception as e *)
          let handler reason st :=
            if (attempt <? retry_count cfg)%Z
            then continue (emit (Sleep (retry_delay cfg * attempt)) st)
            else mark_failed url reason st in
          let answer := arun (calls st) url in
          let st := called (emit (Fetch url) st) in
          match answer with
          | Failure reason => handler reason st
          | Page result =>
              if negb (is_valid_article (html result)) then
                if (attempt <? retry_count cfg)%Z
                then continue (emit (Sleep (retry_delay cfg)) st)
                else mark_failed url "Invalid article content" st
              else
                match open_w (disk st) outfile with
                | Raise e => handler (str e) st
                | Ok d =>
                    let st := with_disk d st in
                    let stamp := now (ticks st) in
                    let st := tick st in
                    match markdown result with
                    | None => handler (str TypeError) st
                    | Some md =>
                        let text := metadata url article_id stamp +:+ md in
                        let st := emit (Wrote outfile text)
                          (with_disk (<[outfile := Regular text]> (disk st)) st) in
                        let st := add_to_tracked url (track_file cfg) st in
                        let st := with_tracked ({[url]} ∪ tracked st) st in
                        (st, (true, Some (html result)))
                    end
                end
          end
      end.

Definition article_id_of (url : string) : string :=
      last_segment (rstrip_slash url).
Definition outfile_of (url : string) : string :=
      path_join (download_dir cfg) (article_id_of url +:+ ".md").

    (** [download_article(crawler, url, config, tracked, failed)] *)
Definition download_article (url : string) (st : state)
      : state * (bool * option string) :=
      if bool_decide (url ∈ tracked st) then (st, (false, None))
      else
        let article_id := article_id_of url in
        let outfile := outfile_of url in
        if exists_path (disk st) outfile then
          let st := add_to_tracked url (track_file cfg) st in
          (with_tracked ({[url]} ∪ tracked st) st, (false, None))
        else
          let st := emit Pause st in
          attempts (Z.to_nat (retry_count cfg)) 1 url article_id outfile st.

    (** [await asyncio.gather] over the tasks: the coroutines, one after the
        other in the order they were created. *)
Definition gather (tasks : list string) (st : state) : state :=
      foldl (λ st url, (download_article url st).1) st tasks.

    (** The [for url in urls] loop of [process_batch] and the gather of
        what is left. *)
Fixpoint batch_loop (urls tasks : list string) (st : state) : state :=
      match urls with
      | [] => match tasks with [] => st | _ => gather tasks st end
      | url :: rest =>
          if bool_decide (url ∈ tracked st) || bool_decide (url ∈ failed st)
          then batch_loop rest tasks st
          else
            let tasks := tasks ++ [url] in
            if (Z.of_nat (length tasks) >=? concurrent_requests cfg)%Z
            then batch_loop rest [] (gather tasks st)
            else batch_loop rest tasks st
      end.

Definition successful_in (urls : list string) (st : state) : nat :=
      length (filter (λ url, url ∈ tracked st ∧ url ∉ failed st) urls).

    (** [process_batch(crawler, urls, config, tracked, failed)] *)
Definition process_batch (urls : list string) (st : state) : state * nat :=
      let st := batch_loop urls [] st in
      (st, successful_in urls st).

    (** [update_urls_file(new_urls, config)] *)
Definition update_urls_file (new_urls : gset string) (st : state)
      : state * nat :=
      match load_tracked_urls (disk st) (urls_file cfg) with
      | Raise _ => (st, 0)
      | Ok existing =>
          let urls_to_add := new_urls ∖ existing in
          if bool_decide (urls_to_add = ∅) then (st, 0)
          else
            let lines := (λ url, url +:+ nl) <$> sorted urls_to_add in
            match append_text (disk st) (urls_file cfg) (String.concat "" lines) with
            | Raise _ => (st, 0)
            | Ok d =>
                (foldl (λ st line, emit (Appended (urls_file cfg) line) st)
                       (with_disk d st) lines,
                 size urls_to_add)
            end
      end.

    (** [range(0, n, step)] *)
Definition range_from_0 (n : nat) (step : Z) : res (list nat) :=
      if (step =? 0)%Z then Raise ValueError
      else if (step <? 0)%Z then Ok []
      else
        let k := Z.to_nat step in
        Ok ((λ j, j * k) <$> seq 0 ((n + k - 1) / k)).

    (** The variables of the batch loop of [main]. *)
Record run := {
      st : state;
      candidates : list string;
      count : nat;
      total_successful : nat
    }.

    (** The link extraction after a batch. *)
Definition discover (batch : list string) (st : state)
      : state * gset string :=
      foldl (λ acc url,
               if bool_decide (url ∈ tracked acc.1 ∧ url ∉ failed acc.1)
               then (emit (Lookup url) acc.1, acc.2 ∪ cached_links url)
               else acc)
            (st, ∅) batch.

    (** One round of the loop of [main], after the test of the cap. *)
Definition round (i : nat) (r : run) : res run :=
      let bs := Z.to_nat (batch_size cfg) in
      let batch := take bs (drop i (candidates r)) in
      let '(s, successful) := process_batch batch (st r) in
      let total := total_successful r + successful in
      let count := size (tracked s) in
      let '(s, new_links) := discover batch s in
      '(s, cands) ←
        (if bool_decide (new_links = ∅) then Ok (s, candidates r)
         else
           let '(s, added) := update_urls_file new_links s in
           if bool_decide (0 < added)
              && bool_decide (length (candidates r) ≤ i + bs)
           then
             new_candidates ← load_candidate_urls (disk s) (urls_file cfg);
             let candidates_set : gset string := list_to_set (candidates r) in
             Ok (s, candidates r ++
                    filter (λ url, url ∉ candidates_set) new_candidates)
           else Ok (s, candidates r));
      reloaded ← load_tracked_urls (disk s) (track_file cfg);
      Ok {| st := with_tracked reloaded s; candidates := cands;
            count := count; total_successful := total |}.

    (** The [for i in range(...)] loop of [main] with its [break]. *)
Fixpoint rounds (starts : list nat) (r : run) : res run :=
      match starts with
      | [] => Ok r
      | i :: rest =>
          if (Z.of_nat (count r) >=? max_downloads cfg)%Z then Ok r
          else r' ← round i r; rounds rest r'
      end.

    (** [main()] from the loading of the tracking data on; the parsing of
        the arguments, the logging and [setup_environment] come before. *)
Definition main (reset_errors : bool) (d : fs) : res run :=
      tracked0 ← load_tracked_urls d (track_file cfg);
      failed0 ← (if reset_errors then Ok ∅
                 else load_tracked_urls d (error_file cfg));
      cands ← load_candidate_urls d (urls_file cfg);
      starts ← range_from_0 (length cands) (batch_size cfg);
      rounds starts
        {| st := start d tracked0 failed0;
           candidates := cands; count := size tracked0;
           total_successful := 0 |}.

End Crawl.

End Independent.

(** * rekhta-data.py *)

Module Rekhta.

(** The entries of [CONFIG] the crawl loop reads. *)
Record config := {
  download_dir : string;
  track_file : string;
  retry_attempts : Z
}.

(** [load_tracked_urls()]: the two handlers return the same. *)
Definition load_tracked_urls (cfg : config) (d : fs) : res (gset string) :=
  match read_text d (track_file cfg) with
  | Ok text => Ok (list_to_set (url_lines text))
  | Raise FileNotFoundError => Ok ∅
  | Raise e => if is_Exception e then Ok ∅ else Raise e
  end.

Section Crawl.

Variable arun : nat → string → response.
Variable cfg : config.

(** [not result.markdown]: [None] or the empty string. *)
Definition no_content (p : page) : bool :=
  match markdown p with
  | None => true
  | Some md => bool_decide (md = "")
  end.

(** The [for attempt in range(retry_attempts)] loop of
    [download_article]; the result is [None] when the loop ends without a
    [return]. *)
Fixpoint attempts (n : nat) (attempt : Z) (url : string) (st : state)
    : state * option bool :=
  match n with
  | O => (st, None)
  | S n' =>
      let handler st :=
        if (attempt <? retry_attempts cfg - 1)%Z
        then attempts n' (attempt + 1) url (emit (Sleep (2 ^ attempt)) st)
        else (st, Some false) in
      let answer := arun (calls st) url in
      let st := called (emit (Fetch url) st) in
      match answer with
      | Failure _ => handler st
      | Page result =>
          if no_content result then (st, Some false)
          else
            let name := before_question (last_segment url) in
            let outfile := path_join (download_dir cfg) (name +:+ ".md") in
            match open_w (disk st) outfile with
            | Raise _ => handler st
            | Ok d =>
                let text := default "" (markdown result) in
                let st := emit (Wrote outfile text)
                            (with_disk (<[outfile := Regular text]> d) st) in
                match append_text (disk st) (track_file cfg) (url +:+ nl) with
                | Raise _ => handler st
                | Ok d =>
                    let st := emit (Appended (track_file cfg) (url +:+ nl))
                                (with_disk d st) in
                    (with_tracked ({[url]} ∪ tracked st) st, Some true)
                end
            end
      end
  end.

(** [download_article(crawler, url, tracked)] *)
Definition download_article (url : string) (st : state) : state * option bool :=
  attempts (Z.to_nat (retry_attempts cfg)) 0 url st.

(** [download_batch(crawler, urls, tracked)]: the tasks are made for
    the URLs that are not tracked when the batch starts, and run one
    after the other; only a result that is [True] counts. *)
Definition download_batch (urls : list string) (st : state) : state * nat :=
  let tasks := filter (λ url, url ∉ tracked st) urls in
  match tasks with
  | [] => (st, 0)
  | _ =>
      let r := foldl (λ acc url,
                        let r := download_article url acc.1 in
                        (r.1, acc.2 + match r.2 with Some true => 1 | _ => 0 end))
                     (st, 0) tasks in
      (emit (Sleep 1) r.1, r.2)
  end.

End Crawl.

(** The entries of [CONFIG] that [main] reads besides. *)
Record limits := {
  urls_file : string;
  max_downloads : Z;
  concurrent_limit : Z;
  backup_interval : Z
}.

Section Main.

(** [datetime.now().strftime("%Y%m%d_%H%M%S")], by the number of earlier
    readings. *)
Variable now : nat → string.
Variable arun : nat → string → response.
(** [CONFIG["url_pattern"].match] *)
Variable url_pattern : string → bool.
Variable cfg : config.
Variable lim : limits.

(** [load_candidate_urls()]: the stripped lines that match the pattern,
    repeated ones included. *)
Definition load_candidate_urls (d : fs) : res (list string) :=
  match read_text d (urls_file lim) with
  | Ok text => Ok (filter (λ u, url_pattern u = true) (url_lines text))
  | Raise e => if is_Exception e then Ok [] else Raise e
  end.

Definition backup_name (timestamp : string) : string :=
  track_file cfg +:+ "." +:+ timestamp +:+ ".bak".

(** [backup_tracking_files()]: the source is opened, then the backup,
    then the source is read and written out; what is raised on the way
    is logged. *)
Definition backup_tracking_files (st : state) : state :=
  let timestamp := now (ticks st) in
  let st := tick st in
  match disk st !! track_file cfg with
  | None => st                              (* not os.path.exists *)
  | Some Denied => st                       (* open(src) raises *)
  | Some src =>
      match open_w (disk st) (backup_name timestamp) with
      | Raise _ => st
      | Ok d =>
          match src with
          | Regular s =>
              let text := universal_newlines s in
              emit (Wrote (backup_name timestamp) text)
                (with_disk (<[backup_name timestamp := Regular text]> d) st)
          | _ => with_disk d st             (* src.read() raises *)
          end
      end
  end.

(** The variables of the batch loop of [main]. *)
Record run := {
  st : state;
  downloaded_count : Z;
  successful_this_session : nat;
  backup_counter : Z
}.

(** One round of the loop, after the test of the cap. *)
Definition round (candidates : list string) (i : nat) (r : run) : run :=
  let batch := take (Z.to_nat (concurrent_limit lim)) (drop i candidates) in
  let '(s, successful) := download_batch arun cfg batch (st r) in
  let counter := (backup_counter r + Z.of_nat successful)%Z in
  let backup := (counter >=? backup_interval lim)%Z in
  {| st := if backup then backup_tracking_files s else s;
     downloaded_count := downloaded_count r + Z.of_nat successful;
     successful_this_session := successful_this_session r + successful;
     backup_counter := if backup then 0 else counter |}.

(** The [for i in range(...)] loop with its [break]. *)
Fixpoint rounds (candidates : list string) (starts : list nat) (r : run) : run :=
  match starts with
  | [] => r
  | i :: rest =>
      if (downloaded_count r >=? max_downloads lim)%Z then r
      else rounds candidates rest (round candidates i r)
  end.

(** [main()] after [setup_environment]; [available] is what
    [check_website_availability] returns.  The result is [None] when
    the run stops before the loop. *)
Definition main (available : bool) (d : fs) : res (option run) :=
  if negb available then Ok None
  else
    let s := backup_tracking_files (start d ∅ ∅) in
    tracked0 ← load_tracked_urls cfg (disk s);
    candidates ← load_candidate_urls (disk s);
    let candidates := filter (λ url, url ∉ tracked0) candidates in
    match candidates with
    | [] => Ok None
    | _ =>
        starts ← Independent.range_from_0 (length candidates)
                   (concurrent_limit lim);
        let r := rounds candidates starts
                   {| st := with_tracked tracked0 s;
                      downloaded_count := Z.of_nat (size tracked0);
                      successful_this_session := 0;
                      backup_counter := 0 |} in
        Ok (Some {| st := backup_tracking_files (st r);
                    downloaded_count := downloaded_count r;
                    successful_this_session := successful_this_session r;
                    backup_counter := backup_counter r |})
    end.

End Main.

End Rekhta.

(** * nature-articles.py *)

Module Nature.

(** [DOWNLOAD_DIR] and [TRACK_FILE] *)
Record config := {
  download_dir : string;
  track_file : string
}.

(** The worker's state: [total_downloaded] is a list of ones, of which
    only the length is read. *)
Record crawl := {
  cs : state;
  total_downloaded : nat
}.

Section Crawl.

Variable arun : nat → string → response.
(** [urlparse(url).path] *)
Variable url_path : string → string.
Variable cfg : config.

(** The artifact file of a URL. *)
Definition filepath_of (url : string) : string :=
  path_join (download_dir cfg)
            (replace_slash (strip_slash (url_path url)) +:+ ".md").

(** [download_article(sem, crawler, url, tracked, total_downloaded)]:
    every exception of the body ends it, printed. *)
Definition download_article (url : string) (c : crawl) : crawl :=
  let st := cs c in
  let answer := arun (calls st) url in
  let st := called (emit (Fetch url) st) in
  let stop st := {| cs := st; total_downloaded := total_downloaded c |} in
  match answer with
  | Failure _ => stop st
  | Page result =>
      let filepath := filepath_of url in
      let written :=
        match markdown result with
        | None => Ok st
        | Some md =>
            d ← open_w (disk st) filepath;
            Ok (emit (Wrote filepath md)
                  (with_disk (<[filepath := Regular md]> d) st))
        end in
      match written with
      | Raise _ => stop st
      | Ok st =>
          (* save_tracked_url(url) *)
          match append_text (disk st) (track_file cfg) (url +:+ nl) with
          | Raise _ => stop st
          | Ok d =>
              let st := emit (Appended (track_file cfg) (url +:+ nl))
                          (with_disk d st) in
              {| cs := with_tracked ({[url]} ∪ tracked st) st;
                 total_downloaded := S (total_downloaded c) |}
          end
      end
  end.

End Crawl.

(** [load_tracked_urls()]: no [try], and empty lines are kept. *)
Definition load_tracked_urls (cfg : config) (d : fs) : res (gset string) :=
  text ← read_text d (track_file cfg);
  mret (list_to_set (strip <$> readlines text)).

(** The variables of [crawl_articles]: the queue holds URLs with their
    depths. *)
Record frontier := {
  fc : crawl;
  queue : list (string * nat);
  seen : gset string
}.

Section Loop.

Variable arun : nat → string → response.
Variable url_path : string → string.
(** [extract_article_links(session, url)], by the number of earlier
    requests; the empty set when the request fails. *)
Variable extract_article_links : nat → string → gset string.
(** The order in which a Python set is iterated. *)
Variable order : gset string → list string.
Variable cfg : config.
(** [MAX_DOWNLOADS] and [MAX_DEPTH] *)
Variable max_downloads : Z.
Variable max_depth : nat.

(** The tasks of a level and their gathering: the test of the cap in
    the list comprehension is made when the tasks are created, before
    any of them runs. *)
Definition download_level (batch : list (string * nat)) (c : crawl) : crawl :=
  let tasks :=
    if bool_decide (Z.of_nat (total_downloaded c) < max_downloads)%Z
    then batch.*1 else [] in
  foldl (λ c url, download_article arun url_path cfg url c) c tasks.

(** The discovery of new links: the state, the next queue and the seen
    set. *)
Definition discover (batch : list (string * nat)) (st : state)
    (seen : gset string) : state * list (string * nat) * gset string :=
  foldl (λ acc p,
           let '(st, next_queue, seen) := acc in
           let fresh_links := extract_article_links (calls st) p.1 ∖ seen in
           (called (emit (Lookup p.1) st),
            next_queue ++ ((λ link, (link, S p.2)) <$> order fresh_links),
            seen ∪ fresh_links))
        (st, [], seen) batch.

(** One turn of the [while]; [None] is the [break] on an empty batch. *)
Definition turn (f : frontier) : option frontier :=
  let batch := filter (λ p, p.1 ∉ tracked (cs (fc f))) (queue f) in
  match batch with
  | [] => None
  | (_, depth) :: _ =>
      let c := download_level batch (fc f) in
      if bool_decide (depth < max_depth) then
        let '(st, next_queue, seen') := discover batch (cs c) (seen f) in
        Some {| fc := {| cs := st; total_downloaded := total_downloaded c |};
                queue := next_queue; seen := seen' |}
      else Some {| fc := c; queue := []; seen := seen f |}
  end.

(** [while queue and len(total_downloaded) < MAX_DOWNLOADS], at most
    [fuel] turns; [None] when the fuel runs out first. *)
Fixpoint loop (fuel : nat) (f : frontier) : option frontier :=
  match queue f with
  | [] => Some f
  | _ :: _ =>
      if bool_decide (Z.of_nat (total_downloaded (fc f)) < max_downloads)%Z then
        match fuel with
        | O => None
        | S fuel' =>
            match turn f with
            | None => Some f
            | Some f' => loop fuel' f'
            end
        end
      else Some f
  end.

(** [crawl_articles(seed_url)] after [setup_environment]. *)
Definition crawl_articles (fuel : nat) (seed_url : string) (d : fs)
    : res (option frontier) :=
  tracked0 ← load_tracked_urls cfg d;
  mret (loop fuel
          {| fc := {| cs := start d tracked0 ∅; total_downloaded := 0 |};
             queue := [(seed_url, 0)]; seen := tracked0 |}).

End Loop.

End Nature.

(** * wiki-how.py *)

Module WikiHow.

(** [DOWNLOAD_DIR], [TRACK_FILE], [MAX_DOWNLOADS] and [BATCH_SIZE] *)
Record config := {
  download_dir : string;
  track_file : string;
  max_downloads : Z;
  batch_size : Z
}.

(** The variables of [crawl_articles]. *)
Record crawl := {
  cs : state;
  queue : list string;
  seen : gset string;
  total_downloaded : nat
}.

Definition with_cs (st : state) (c : crawl) : crawl :=
  {| cs := st; queue := queue c; seen := seen c;
     total_downloaded := total_downloaded c |}.

(** [load_tracked_urls()]: no [try], and empty lines are kept. *)
Definition load_tracked_urls (cfg : config) (d : fs) : res (gset string) :=
  text ← read_text d (track_file cfg);
  mret (list_to_set (strip <$> readlines text)).

Section Crawl.

Variable arun : nat → string → response.
(** [extract_article_links(session, url)], by the number of earlier
    requests; the empty set when the request fails. *)
Variable extract_article_links : nat → string → gset string.
Variable cfg : config.

(** The inner [while queue and len(batch) < BATCH_SIZE] loop. *)
Fixpoint fill_batch (queue batch : list string) (tracked : gset string)
    : list string * list string :=
  match queue with
  | [] => ([], batch)
  | url :: rest =>
      if bool_decide (Z.of_nat (length batch) < batch_size cfg)%Z then
        if bool_decide (url ∉ tracked)
        then fill_batch rest (batch ++ [url]) tracked
        else fill_batch rest batch tracked
      else (queue, batch)
  end.

(** The body of [for url in batch] after the test of the cap. *)
Definition download_one (url : string) (c : crawl) : crawl :=
  let st := cs c in
  let answer := arun (calls st) url in
  let st := called (emit (Fetch url) st) in
  match answer with
  | Failure _ => with_cs st c
  | Page result =>
      let filepath := path_join (download_dir cfg) (last_segment url +:+ ".md") in
      match open_w (disk st) filepath with
      | Raise _ => with_cs st c
      | Ok d =>
          let st := with_disk d st in
          match markdown result with
          | None => with_cs st c
          | Some md =>
              let st := emit (Wrote filepath md)
                          (with_disk (<[filepath := Regular md]> (disk st)) st) in
              let st := with_tracked ({[url]} ∪ tracked st) st in
              (* save_tracked_url(url) *)
              match append_text (disk st) (track_file cfg) (url +:+ nl) with
              | Raise _ => with_cs st c
              | Ok d =>
                  {| cs := emit (Appended (track_file cfg) (url +:+ nl))
                             (with_disk d st);
                     queue := queue c; seen := seen c;
                     total_downloaded := S (total_downloaded c) |}
              end
          end
      end
  end.

(** [for url in batch] with its [break]. *)
Fixpoint download_batch (batch : list string) (c : crawl) : crawl :=
  match batch with
  | [] => c
  | url :: rest =>
      if bool_decide (Z.of_nat (total_downloaded c) >= max_downloads cfg)%Z
      then c
      else download_batch rest (download_one url c)
  end.

(** The links found in the batch that are neither tracked nor seen. *)
Definition discover (batch : list string) (c : crawl) : state * gset string :=
  foldl (λ acc url,
           let st := acc.1 in
           let discovered := extract_article_links (calls st) url in
           (called (emit (Lookup url) st),
            acc.2 ∪ (discovered ∖ tracked st ∖ seen c)))
        (cs c, ∅) batch.

(** Expanding the queue: [queue.extend(sorted(new_links))] and
    [seen.update(new_links)]. *)
Definition expand (batch : list string) (c : crawl) : crawl :=
  let '(st, new_links) := discover batch c in
  {| cs := st; queue := queue c ++ sorted new_links;
     seen := seen c ∪ new_links; total_downloaded := total_downloaded c |}.

(** One turn of the outer [while]. *)
Definition turn (c : crawl) : crawl :=
  let '(q, batch) := fill_batch (queue c) [] (tracked (cs c)) in
  let c := {| cs := cs c; queue := q; seen := seen c;
              total_downloaded := total_downloaded c |} in
  expand batch (download_batch batch c).

(** [while queue and total_downloaded < MAX_DOWNLOADS], at most [fuel]
    turns; [None] when the fuel runs out first. *)
Fixpoint loop (fuel : nat) (c : crawl) : option crawl :=
  match queue c with
  | [] => Some c
  | _ :: _ =>
      if bool_decide (Z.of_nat (total_downloaded c) < max_downloads cfg)%Z then
        match fuel with
        | O => None
        | S fuel' => loop fuel' (turn c)
        end
      else Some c
  end.

(** [crawl_articles(seed_url)] after [setup_environment]. *)
Definition crawl_articles (fuel : nat) (seed_url : string) (d : fs)
    : res (option crawl) :=
  tracked0 ← load_tracked_urls cfg d;
  mret (loop fuel
          {| cs := start d tracked0 ∅;
             queue := [seed_url]; seen := {[seed_url]};
             total_downloaded := size tracked0 |}).

End Crawl.

End WikiHow.

(** * bbc-articles.py *)

Module BBC.

(** What [json.load] returns and [json.dump] takes.  A float is kept as
    its text: arithmetic that meets one is left to the parameters of the
    section below. *)
#[local] Unset Elimination Schemes.
Inductive json :=
| JNull
| JBool (b : bool)
| JInt (z : Z)
| JFloat (text : string)
| JStr (s : string)
| JList (l : list json)
| JDict (items : list (string * json)).
#[local] Set Elimination Schemes.

(** The progress file as [json.load] finds it. *)
Inductive pfile :=
| Garbled                   (* text that is no JSON document *)
| Unreadable                (* bytes that are not UTF-8 *)
| Doc (v : json).

Inductive event :=
| Scraped (url : string)            (* scraper.scrape_article(url) *)
| Saved (path : string)             (* an article file written *)
| Finalizing (status : string)      (* finalize_progress(status) entered *)
| Napped.                           (* time.sleep *)

Record world := {
  progress : option pfile;          (* the progress file, if there is one *)
  articles : gset string;           (* the article files of the run *)
  writable : bool;                  (* whether [open(..., 'w')] succeeds *)
  trace : list event;
  ticks : nat
}.

Definition with_progress (p : option pfile) (w : world) : world :=
  {| progress := p; articles := articles w; writable := writable w;
     trace := trace w; ticks := ticks w |}.
Definition with_articles (a : gset string) (w : world) : world :=
  {| progress := progress w; articles := a; writable := writable w;
     trace := trace w; ticks := ticks w |}.
Definition emit (e : event) (w : world) : world :=
  {| progress := progress w; articles := articles w; writable := writable w;
     trace := trace w ++ [e]; ticks := ticks w |}.
Definition tick (w : world) : world :=
  {| progress := progress w; articles := articles w; writable := writable w;
     trace := trace w; ticks := S (ticks w) |}.

Definition finalizations (t : list event) : list string :=
  omap (λ e, match e with Finalizing s => Some s | _ => None end) t.
Definition scraped (t : list event) : list string :=
  omap (λ e, match e with Scraped u => Some u | _ => None end) t.

(** ** Dictionaries *)

Fixpoint dict_get (k : string) (items : list (string * json)) : option json :=
  match items with
  | [] => None
  | (k', v) :: rest => if decide (k' = k) then Some v else dict_get k rest
  end.

Fixpoint dict_set (k : string) (v : json) (items : list (string * json))
    : list (string * json) :=
  match items with
  | [] => [(k, v)]
  | (k', v') :: rest =>
      if decide (k' = k) then (k, v) :: rest else (k', v') :: dict_set k v rest
  end.

(** [d[k]] *)
Definition getitem (d : json) (k : string) : res json :=
  match d with
  | JDict items =>
      match dict_get k items with Some v => Ok v | None => Raise KeyError end
  | _ => Raise TypeError
  end.

(** [d[k] = v] *)
Definition setitem (d : json) (k : string) (v : json) : res json :=
  match d with
  | JDict items => Ok (JDict (dict_set k v items))
  | _ => Raise TypeError
  end.

(** [d[k].append(x)] *)
Definition append_to (d : json) (k : string) (x : json) : res json :=
  l ← getitem d k;
  match l with
  | JList xs => setitem d k (JList (xs ++ [x]))
  | _ => Raise AttributeError
  end.

(** A Python truth test of an optional string argument. *)
Definition given (a : option string) : option string :=
  match a with
  | Some s => if decide (s = "") then None else Some s
  | None => None
  end.

(** The methods [class BBCUrduMassScraper] defines: its body ends with
    [process_article]; [run_batch], [run_scraper] and
    [create_summary_report] stand at module level. *)
Definition class_methods : list string :=
  ["__init__"; "initialize_progress_file"; "update_progress";
   "finalize_progress"; "get_article_urls"; "process_article"].

Definition module_functions : list string :=
  ["run_batch"; "run_scraper"; "create_summary_report"; "main"].

Section Scraper.

(** [datetime.now().isoformat()], by the number of earlier readings. *)
Variable now : nat → string.
(** Sums that meet a float, the test [x > 0] of one, and the text of
    [(a / b) * 100] with two decimals and a percent sign. *)
Variable float_add : json → json → string.
Variable float_positive : string → bool.
Variable percent : json → json → string.
(** The seconds between two ISO timestamps, [None] when one is none. *)
Variable seconds_between : string → string → option string.
(** [scraper.scrape_article(url)]: the article, [None] when there is
    none. *)
Variable scrape_article : string → option json.
(** The file name [process_article] derives from [hash(url)]. *)
Variable output_path : string → string.
(** The URLs [explore_bbc_urdu] collects, sorted as [get_article_urls]
    sorts them. *)
Variable sorted_urls : list string.
(** Whether a [KeyboardInterrupt] reaches the main thread while it waits
    for the batch of this number. *)
Variable interrupted : nat → bool.
(** The methods an instance answers to. *)
Variable methods : list string.
(** Whether [concurrent.futures.threading] resolves. *)
Variable futures_threading : bool.

(** [open(self.progress_file, 'w')] with [json.dump]. *)
Definition dump (v : json) (w : world) : world * res unit :=
  if writable w then (with_progress (Some (Doc v)) w, Ok ())
  else (w, Raise PermissionError).

(** [open(self.progress_file, 'r')] with [json.load]. *)
Definition load (w : world) : res json :=
  match progress w with
  | None => Raise FileNotFoundError
  | Some Garbled => Raise JSONDecodeError
  | Some Unreadable => Raise UnicodeDecodeError
  | Some (Doc v) => Ok v
  end.

Definition default_progress (started last : string) : json :=
  JDict [("started_at", JStr started);
         ("total_articles", JInt 0);
         ("completed_articles", JInt 0);
         ("failed_articles", JInt 0);
         ("completed_urls", JList []);
         ("failed_urls", JList []);
         ("status", JStr "running");
         ("last_updated", JStr last)].

(** [initialize_progress_file()]; [logger] tells whether [self.logger]
    is set, which the handler reads. *)
Definition initialize_progress_file (logger : bool) (w : world)
    : world * res unit :=
  let started := now (ticks w) in
  let w := tick w in
  let last := now (ticks w) in
  let w := tick w in
  match dump (default_progress started last) w with
  | (w, Ok _) => (w, Ok ())
  | (w, Raise e) =>
      if is_Exception e then
        if logger then dump (JDict []) w else (w, Raise AttributeError)
      else (w, Raise e)
  end.

(** The read of the progress file with its recovery, as
    [update_progress] and [finalize_progress] both start. *)
Definition load_or_reset (w : world) : world * res json :=
  match load w with
  | Ok v => (w, Ok v)
  | Raise JSONDecodeError | Raise FileNotFoundError =>
      match initialize_progress_file true w with
      | (w, Ok _) => (w, load w)
      | (w, Raise e) => (w, Raise e)
      end
  | Raise e => (w, Raise e)
  end.

(** [x += 1] on a document value. *)
Definition add_one (v : json) : res json :=
  match v with
  | JInt z => Ok (JInt (z + 1))
  | JBool b => Ok (JInt (Z.b2z b + 1))
  | JFloat _ => Ok (JFloat (float_add v (JInt 1)))
  | _ => Raise TypeError
  end.

Definition count_one (d : json) (counter urls : string) (url : option string)
    : res json :=
  match given url with
  | None => Ok d
  | Some u =>
      n ← getitem d counter;
      n' ← add_one n;
      d ← setitem d counter n';
      append_to d urls (JStr u)
  end.

(** The body of the outer [try] of [update_progress]. *)
Definition update_progress_body (completed_url failed_url : option string)
    (w : world) : world * res unit :=
  match load_or_reset w with
  | (w, Raise e) => (w, Raise e)
  | (w, Ok d) =>
      let stamp := now (ticks w) in
      let updated :=
        d ← count_one d "completed_articles" "completed_urls" completed_url;
        d ← count_one d "failed_articles" "failed_urls" failed_url;
        Ok d in
      match updated with
      | Raise e => (w, Raise e)
      | Ok d =>
          let w := tick w in
          match setitem d "last_updated" (JStr stamp) with
          | Raise e => (w, Raise e)
          | Ok d => dump d w
          end
      end
  end.

(** [update_progress(completed_url, failed_url)]: what the body raises
    is logged, unless it is no [Exception]. *)
Definition update_progress (completed_url failed_url : option string)
    (w : world) : world * res unit :=
  match update_progress_body completed_url failed_url w with
  | (w, Ok _) => (w, Ok ())
  | (w, Raise e) => if is_Exception e then (w, Ok ()) else (w, Raise e)
  end.

(** [a + b] and [x > 0] on document values. *)
Definition py_add (a b : json) : res json :=
  match a, b with
  | JInt x, JInt y => Ok (JInt (x + y))
  | JInt x, JBool y => Ok (JInt (x + Z.b2z y))
  | JBool x, JInt y => Ok (JInt (Z.b2z x + y))
  | JBool x, JBool y => Ok (JInt (Z.b2z x + Z.b2z y))
  | JFloat _, (JInt _ | JBool _ | JFloat _)
  | (JInt _ | JBool _), JFloat _ => Ok (JFloat (float_add a b))
  | JStr x, JStr y => Ok (JStr (x +:+ y))
  | JList x, JList y => Ok (JList (x ++ y))
  | _, _ => Raise TypeError
  end.

Definition py_positive (v : json) : res bool :=
  match v with
  | JInt z => Ok (bool_decide (0 < z)%Z)
  | JBool b => Ok b
  | JFloat f => Ok (float_positive f)
  | _ => Raise TypeError
  end.

(** [datetime.fromisoformat(a)] of a document value. *)
Definition iso (v : json) : res string :=
  match v with JStr s => Ok s | _ => Raise TypeError end.

(** The statistics of [finalize_progress], set on the document. *)
Definition with_statistics (d : json) : res json :=
  completed ← getitem d "completed_articles";
  failed ← getitem d "failed_articles";
  total_processed ← py_add completed failed;
  success_rate ← match py_positive total_processed with
                 | Ok true => Ok (percent completed total_processed)
                 | Ok false => Ok "0.00%"
                 | Raise e => Raise e
                 end;
  e ← getitem d "ended_at";
  e ← iso e;
  s ← getitem d "started_at";
  s ← iso s;
  runtime ← match seconds_between s e with
            | Some r => Ok r
            | None => Raise ValueError
            end;
  setitem d "statistics"
    (JDict [("success_rate", JStr success_rate);
            ("total_processed", total_processed);
            ("runtime_seconds", JFloat runtime)]).

(** The body of the outer [try] of [finalize_progress]. *)
Definition finalize_progress_body (status : string) (w : world)
    : world * res unit :=
  match load_or_reset w with
  | (w, Raise e) => (w, Raise e)
  | (w, Ok d) =>
      let ended := now (ticks w) in
      let w := tick w in
      match (d ← setitem d "ended_at" (JStr ended);
             setitem d "status" (JStr status)) with
      | Raise e => (w, Raise e)
      | Ok d =>
          let last := now (ticks w) in
          let w := tick w in
          match (d ← setitem d "last_updated" (JStr last);
                 with_statistics d) with
          | Raise e => (w, Raise e)
          | Ok d => dump d w
          end
      end
  end.

(** [finalize_progress(status)] *)
Definition finalize_progress (status : string) (w : world) : world * res unit :=
  match finalize_progress_body status (emit (Finalizing status) w) with
  | (w, Ok _) => (w, Ok ())
  | (w, Raise e) => if is_Exception e then (w, Ok ()) else (w, Raise e)
  end.

(** Looking a method up on the instance. *)
Definition method (name : string) : res unit :=
  if bool_decide (name ∈ methods) then Ok () else Raise AttributeError.

(** [get_article_urls(target_count)]: the run directory is new, so the
    URLs are explored; the total is noted in the progress file, a
    failure of which is logged. *)
Definition get_article_urls (target_count : nat) (w : world)
    : world * list string :=
  match sorted_urls with
  | [] => (w, [])
  | _ =>
      let total := Z.of_nat (length sorted_urls `min` target_count) in
      let w :=
        match load w with
        | Raise _ => w
        | Ok d =>
            match setitem d "total_articles" (JInt total) with
            | Raise _ => w
            | Ok d => (dump d w).1
            end
        end in
      (w, take target_count sorted_urls)
  end.

(** The body of the [try] of [process_article]. *)
Definition process_article_body (url : string) (w : world) : world * res bool :=
  let path := output_path url in
  if bool_decide (path ∈ articles w) then
    match update_progress (Some url) None w with
    | (w, Ok _) => (w, Ok true)
    | (w, Raise e) => (w, Raise e)
    end
  else
    let w := emit (Scraped url) (emit Napped w) in
    match scrape_article url with
    | None =>
        match update_progress None (Some url) w with
        | (w, Ok _) => (w, Ok false)
        | (w, Raise e) => (w, Raise e)
        end
    | Some article_data =>
        (* scraper.save_to_json: a failure is logged there *)
        let w := if writable w
                 then emit (Saved path) (with_articles ({[path]} ∪ articles w) w)
                 else w in
        match update_progress (Some url) None w with
        | (w, Ok _) => (w, Ok true)
        | (w, Raise e) => (w, Raise e)
        end
    end.

(** [process_article(worker_id, url)] *)
Definition process_article (url : string) (w : world) : world * res bool :=
  match process_article_body url w with
  | (w, Ok b) => (w, Ok b)
  | (w, Raise e) =>
      if is_Exception e then
        match update_progress None (Some url) w with
        | (w, Ok _) => (w, Ok false)
        | (w, Raise e) => (w, Raise e)
        end
      else (w, Raise e)
  end.

(** The futures of a batch, each run to its end, and the counts of
    [run_batch]. *)
Fixpoint work (urls : list string) (w : world) (success failure : nat)
    : world * (nat * nat) :=
  match urls with
  | [] => (w, (success, failure))
  | url :: rest =>
      match process_article url w with
      | (w, Ok true) => work rest w (S success) failure
      | (w, _) => work rest w success (S failure)
      end
  end.

(** [run_batch(self, urls_batch, batch_num)]: leaving the [with] block
    of the executor waits for every submitted future, also when the
    main thread is interrupted. *)
Definition run_batch (urls_batch : list string) (batch_num : nat) (w : world)
    : world * res (nat * nat) :=
  match (match urls_batch with [] => Ok () | _ => method "process_article" end) with
  | Raise e => (w, Raise e)
  | Ok _ =>
      let '(w, counts) := work urls_batch w 0 0 in
      if interrupted batch_num then (w, Raise KeyboardInterrupt)
      else (w, Ok counts)
  end.

(** The elements of [set(progress.get(key, []))]. *)
Definition url_set (d : json) (key : string) : res (gset string) :=
  match d with
  | JDict items =>
      match dict_get key items with
      | None => Ok ∅
      | Some (JList l) =>
          foldr (λ v acc,
                   s ← acc;
                   match v with
                   | JStr u => Ok ({[u]} ∪ s)
                   | JList _ | JDict _ => Raise TypeError
                   | _ => Ok s
                   end) (Ok ∅) l
      | Some (JStr u) =>
          Ok (list_to_set ((λ c, String c "") <$> String.list_ascii_of_string u))
      | Some (JDict kv) => Ok (list_to_set kv.*1)
      | Some _ => Raise TypeError
      end
  | _ => Raise AttributeError
  end.

(** The URLs left when resuming; on an error the full list. *)
Definition remaining (article_urls : list string) (w : world) : list string :=
  let processed :=
    d ← load w;
    completed_urls ← url_set d "completed_urls";
    failed_urls ← url_set d "failed_urls";
    Ok (completed_urls ∪ failed_urls) in
  match processed with
  | Ok processed_urls => filter (λ url, url ∉ processed_urls) article_urls
  | Raise _ => article_urls
  end.

(** [[urls[i:i + n] for i in range(0, len(urls), n)]] for a positive
    [n]; [fuel] bounds the number of batches. *)
Fixpoint chunks (fuel n : nat) (urls : list string) : list (list string) :=
  match fuel, urls with
  | O, _ | _, [] => []
  | S fuel', _ => take n urls :: chunks fuel' n (drop n urls)
  end.

Definition batches_of (batch_size : nat) (urls : list string)
    : res (list (list string)) :=
  match batch_size with
  | O => Raise ValueError
  | S _ => Ok (chunks (length urls) batch_size urls)
  end.

(** The [for batch_num, urls_batch in enumerate(batches, 1)] loop of
    [run_scraper]: the totals, and what the loop raised if it did. *)
Fixpoint batch_loop (batches : list (list string)) (batch_num last : nat)
    (w : world) (total_success total_failure : nat)
    : world * (nat * nat) * res unit :=
  match batches with
  | [] => (w, (total_success, total_failure), Ok ())
  | urls_batch :: rest =>
      match method "run_batch" with
      | Raise e => (w, (total_success, total_failure), Raise e)
      | Ok _ =>
          match run_batch urls_batch batch_num w with
          | (w, Raise e) => (w, (total_success, total_failure), Raise e)
          | (w, Ok (success, failure)) =>
              let w := if bool_decide (batch_num < last) then emit Napped w
                       else w in
              batch_loop rest (S batch_num) last w
                (total_success + success) (total_failure + failure)
          end
      end
  end.

(** [run_scraper(self, target_count, resume)] *)
Definition run_scraper (target_count : nat) (resume : bool) (batch_size : nat)
    (w : world) : world * res (nat * nat) :=
  match method "get_article_urls" with
  | Raise e => (w, Raise e)
  | Ok _ =>
  let '(w, article_urls) := get_article_urls target_count w in
  match article_urls with
  | [] =>
      match method "finalize_progress" with
      | Raise e => (w, Raise e)
      | Ok _ =>
          match finalize_progress "failed" w with
          | (w, Ok _) => (w, Ok (0, 0))
          | (w, Raise e) => (w, Raise e)
          end
      end
  | _ =>
      let article_urls :=
        if resume then remaining article_urls w else article_urls in
      match batches_of batch_size article_urls with
      | Raise e => (w, Raise e)
      | Ok batches =>
          let '(w, totals, raised) :=
            batch_loop batches 1 (length batches) w 0 0 in
          let status :=
            match raised with
            | Ok _ => Ok "completed"
            | Raise KeyboardInterrupt => Ok "interrupted"
            | Raise e => if is_Exception e then Ok "error" else Raise e
            end in
          match status with
          | Raise e => (w, Raise e)
          | Ok status =>
              match method "finalize_progress" with
              | Raise e => (w, Raise e)
              | Ok _ =>
                  match finalize_progress status w with
                  | (w, Ok _) => (w, Ok totals)
                  | (w, Raise e) => (w, Raise e)
                  end
              end
          end
      end
  end
  end.

(** [BBCUrduMassScraper.__init__]: the run directory is made, the
    progress file initialized before the logger is set, the lock made
    last. *)
Definition init (w : world) : world * res unit :=
  match initialize_progress_file false w with
  | (w, Raise e) => (w, Raise e)
  | (w, Ok _) =>
      if futures_threading then (w, Ok ()) else (w, Raise AttributeError)
  end.

(** [main()] after the parsing and the validation of the arguments: the
    exit code, or what escapes. *)
Definition main (count : nat) (resume : bool) (batch_size : nat) (w : world)
    : world * res Z :=
  match init w with
  | (w, Raise e) => (w, Raise e)
  | (w, Ok _) =>
      let '(w, outcome) :=
        match method "run_scraper" with
        | Raise e => (w, Raise e)
        | Ok _ =>
            match run_scraper count resume batch_size w with
            | (w, Raise e) => (w, Raise e)
            | (w, Ok _) =>
                match method "create_summary_report" with
                | Raise e => (w, Raise e)
                | Ok _ => (w, Ok ())
                end
            end
        end in
      match outcome with
      | Ok _ => (w, Ok 0%Z)
      | Raise KeyboardInterrupt => (w, Ok 130%Z)
      | Raise e => if is_Exception e then (w, Ok 1%Z) else (w, Raise e)
      end
  end.

End Scraper.

End BBC.

(** * The vocabulary of the statements *)

(** White space only. *)
Fixpoint blank (s : string) : bool :=
  match s with
  | "" => true
  | String c s' => isspace c && blank s'
  end.

(** Empty, or ending with a line feed. *)
Definition complete (s : string) : bool :=
  match last_char s with
  | None => true
  | Some c => Ascii.eqb c LF
  end.

Fixpoint no_lf (s : string) : bool :=
  match s with
  | "" => true
  | String c s' => negb (Ascii.eqb c LF) && no_lf s'
  end.

(** The text of lines written one after the other. *)
Fixpoint lines_text (urls : list string) : string :=
  match urls with
  | [] => ""
  | u :: rest => (u +:+ nl) +:+ lines_text rest
  end.

(** The position of the first occurrence. *)
Fixpoint first_index (u : string) (l : list string) : option nat :=
  match l with
  | [] => None
  | x :: l' => if decide (x = u) then Some 0 else S <$> first_index u l'
  end.

Definition starts_lf (s : string) : bool :=
  match s with
  | String c _ => Ascii.eqb c LF
  | "" => false
  end.

(** The log of two URLs followed by a line cut short. *)
Definition cut_log : fs :=
  {[ "t.txt" := Regular (lines_text ["https://a/node/1"; "https://a/node/2"]
                         +:+ "https://a/no") ]}.

(** What a call of the worker of [independent.py] may have done between
    two states: it fetched this URL only; when it succeeded it wrote the
    artifact once, appended the URL to the log once (unless the log
    could not be opened) and added it to the set; when it failed it
    wrote no artifact and tracked nothing. *)
Definition outcome (log url outfile : string) (st st' : state) (ok : bool)
    : Prop :=
  ∃ t, trace st' = trace st ++ t ∧
       Forall (λ u, u = url) (fetches t) ∧
       failed st ⊆ failed st' ∧
       (if ok
        then writes t = [outfile] ∧ tracked st' = {[url]} ∪ tracked st ∧
             failed st' = failed st ∧
             (appends log t = [url +:+ nl] ∨ appends log t = [])
        else writes t = [] ∧ tracked st' = tracked st).

(** A failed attempt that is retried: fetches of this URL and sleeps. *)
Definition quiet (log url : string) (st st1 : state) : Prop :=
  tracked st1 = tracked st ∧ failed st1 = failed st ∧
  ∃ t, trace st1 = trace st ++ t ∧ Forall (λ u, u = url) (fetches t) ∧
       writes t = [] ∧ appends log t = [].

(** No carriage return. *)
Fixpoint no_cr (s : string) : bool :=
  match s with
  | "" => true
  | String c s' => negb (Ascii.eqb c CR) && no_cr s'
  end.

(** The log holds the tracked set, as complete lines. *)
Definition log_matches (log : string) (st : state) : Prop :=
  match disk st !! log with
  | None => tracked st = ∅
  | Some (Regular text) =>
      complete (universal_newlines text) = true ∧
      tracked st = list_to_set (url_lines (universal_newlines text))
  | Some _ => False
  end.

(** A URL the worker can log: one line, with an artifact file that is
    not the log. *)
Definition loggable (cfg : Independent.config) (url : string) : Prop :=
  one_line url = true ∧
  Independent.outfile_of cfg url ≠ Independent.track_file cfg.

(** A crawler that answers every call with a valid article. *)
Definition all_up (arun : nat → string → response)
    (is_valid_article : string → bool) : Prop :=
  ∀ k u, ∃ p md, arun k u = Page p ∧ is_valid_article (html p) = true ∧
                 markdown p = Some md.

(** Start indices of which each but the last leaves more than a batch
    behind it in a list of length [n]. *)
Fixpoint spaced (bs n : nat) (starts : list nat) : Prop :=
  match starts with
  | [] => True
  | i :: rest =>
      match rest with [] => i < n | _ => i + bs < n end ∧ spaced bs n rest
  end.

(** A file that is missing, or a text of complete lines. *)
Definition whole_lines (d : fs) (path : string) : Prop :=
  d !! path = None ∨
  ∃ text, d !! path = Some (Regular text) ∧
          complete (universal_newlines text) = true.

(** What the recorder leaves alone. *)
Definition same_outside (w w' : BBC.world) : Prop :=
  BBC.trace w' = BBC.trace w ∧ BBC.articles w' = BBC.articles w ∧
  BBC.writable w' = BBC.writable w.

(** A progress record whose two counters are the lengths of its two
    lists of URLs. *)
Definition tallied (d : BBC.json) (completed failed : list string) : Prop :=
  ∃ items, d = BBC.JDict items ∧
    BBC.dict_get "completed_articles" items
      = Some (BBC.JInt (Z.of_nat (length completed))) ∧
    BBC.dict_get "completed_urls" items
      = Some (BBC.JList (BBC.JStr <$> completed)) ∧
    BBC.dict_get "failed_articles" items
      = Some (BBC.JInt (Z.of_nat (length failed))) ∧
    BBC.dict_get "failed_urls" items
      = Some (BBC.JList (BBC.JStr <$> failed)).

(** The URL an update counts, if it counts one. *)
Definition counted (url : option string) : list string :=
  match BBC.given url with Some u => [u] | None => [] end.

(** ** Sample runs *)

Definition sample_cfg (cap tries size : Z) : Independent.config :=
  {| Independent.download_dir := "out";
     Independent.track_file := "t.txt";
     Independent.urls_file := "u.txt";
     Independent.error_file := "e.txt";
     Independent.max_downloads := cap;
     Independent.retry_count := tries;
     Independent.retry_delay := 1;
     Independent.batch_size := size;
     Independent.concurrent_requests := 3 |}.

Definition sample_now : nat → string := λ _, "2025-01-01 00:00:00".
Definition sample_valid : string → bool := λ _, true.
Definition sample_str : exn → string := λ _, "error".
(** A crawler that answers every call with an article. *)
Definition sample_up : nat → string → response :=
  λ _ _, Page {| html := "<article/>"; markdown := Some "text" |}.
(** A crawler whose every call raises. *)
Definition sample_down : nat → string → response := λ _ _, Failure "timeout".

Definition node_1 : string := "n/1".
Definition node_2 : string := "n/2".
Definition node_3 : string := "n/3".

(** A URL file of three candidates and nothing else on the disk. *)
Definition three_candidates : fs :=
  {[ "u.txt" := Regular (lines_text [node_1; node_2; node_3]) ]}.

(** The methods, had the three functions been indented. *)
Definition bound_methods : list string :=
  BBC.class_methods ++ BBC.module_functions.

(** A configuration of [rekhta-data.py] with the given number of
    attempts, and its limits: a cap, batches of [size], a backup every
    hundred downloads. *)
Definition sample_rekhta (tries : Z) : Rekhta.config :=
  {| Rekhta.download_dir := "out"; Rekhta.track_file := "t.txt";
     Rekhta.retry_attempts := tries |}.

Definition sample_limits (cap size : Z) : Rekhta.limits :=
  {| Rekhta.urls_file := "u.txt"; Rekhta.max_downloads := cap;
     Rekhta.concurrent_limit := size; Rekhta.backup_interval := 100 |}.

(** A track file of one URL and nothing else on the disk. *)
Definition one_tracked : fs :=
  {[ "t.txt" := Regular (lines_text [node_1]) ]}.

Definition sample_nature : Nature.config :=
  {| Nature.download_dir := "out"; Nature.track_file := "t.txt" |}.


(** A progress record with one completed and one failed URL. *)
Definition sample_record : BBC.json :=
  BBC.JDict
    [("started_at", BBC.JStr "2025-01-01T00:00:00");
     ("total_articles", BBC.JInt 4);
     ("completed_articles", BBC.JInt 1);
     ("failed_articles", BBC.JInt 1);
     ("completed_urls", BBC.JList [BBC.JStr "a"]);
     ("failed_urls", BBC.JList [BBC.JStr "b"]);
     ("status", BBC.JStr "running");
     ("last_updated", BBC.JStr "2025-01-01T00:00:00")].

Definition recorded_progress : BBC.world :=
  {| BBC.progress := Some (BBC.Doc sample_record); BBC.articles := ∅;
     BBC.writable := true; BBC.trace := []; BBC.ticks := 0 |}.

Definition sample_wikihow (cap size : Z) : WikiHow.config :=
  {| WikiHow.download_dir := "out"; WikiHow.track_file := "t.txt";
     WikiHow.max_downloads := cap; WikiHow.batch_size := size |}.

(** A crawl of [wiki-how.py] that starts from one URL. *)
Definition from_a : WikiHow.crawl :=
  {| WikiHow.cs := start ∅ ∅ ∅; WikiHow.queue := ["a"];
     WikiHow.seen := {[ "a" ]}; WikiHow.total_downloaded := 0 |}.

(** What the recorder itself raises is always an [Exception]. *)
Definition caught {A} (r : res A) : Prop :=
  match r with Ok _ => True | Raise e => is_Exception e = true end.



(** A progress file that is missing, on a disk that can be written. *)
Definition no_progress : BBC.world :=
  {| BBC.progress := None; BBC.articles := ∅; BBC.writable := true;
     BBC.trace := []; BBC.ticks := 0 |}.

Definition sample_iso : nat → string := λ _, "2025-01-01T00:00:00".

(** * Facts about Python text *)

Lemma app_String c s t : String c s +:+ t = String c (s +:+ t).
Proof. reflexivity. Qed.

Lemma app_empty_l t : "" +:+ t = t.
Proof. reflexivity. Qed.

Lemma app_empty_r s : s +:+ "" = s.
Proof. induction s as [|c s IH]; [done|]. by rewrite app_String, IH. Qed.

Lemma string_app_assoc s t u : (s +:+ t) +:+ u = s +:+ (t +:+ u).
Proof.
  induction s as [|c s IH]; [done|]. by rewrite !app_String, IH.
Qed.

Lemma isspace_LF : isspace LF = true.
Proof. reflexivity. Qed.

Lemma lstrip_length s : String.length (lstrip s) ≤ String.length s.
Proof.
  induction s as [|c s IH]; simpl; [lia|]. destruct (isspace c); simpl; lia.
Qed.

Lemma rstrip_length s : String.length (rstrip s) ≤ String.length s.
Proof.
  induction s as [|c s IH]; simpl; [lia|].
  destruct (rstrip s); [destruct (isspace c)|]; simpl in *; lia.
Qed.

Lemma rstrip_blank s : blank s = true → rstrip s = "".
Proof.
  induction s as [|c s IH]; simpl; [done|].
  intros [Hc Hs]%andb_prop. by rewrite IH, Hc.
Qed.

Lemma lstrip_blank s : blank s = true → lstrip s = "".
Proof.
  induction s as [|c s IH]; simpl; [done|].
  intros [Hc Hs]%andb_prop. rewrite Hc. auto.
Qed.

Lemma strip_blank s : blank s = true → strip s = "".
Proof. intros H. unfold strip. by rewrite lstrip_blank. Qed.

Lemma rstrip_app_blank s w : blank w = true → rstrip (s +:+ w) = rstrip s.
Proof.
  intros Hw. induction s as [|c s IH].
  - by rewrite app_empty_l, rstrip_blank.
  - rewrite app_String. simpl. by rewrite IH.
Qed.

Lemma lstrip_fixed s : s ≠ "" → strip s = s → lstrip s = s.
Proof.
  destruct s as [|c s]; [done|]. intros _ Hs. simpl.
  destruct (isspace c) eqn:Hc; [|done].
  exfalso. unfold strip in Hs. simpl in Hs. rewrite Hc in Hs.
  pose proof (rstrip_length (lstrip s)). pose proof (lstrip_length s).
  rewrite Hs in *. simpl in *. lia.
Qed.

Lemma strip_line u : one_line u = true → strip (u +:+ nl) = u.
Proof.
  unfold one_line. intros [[Hne Hs]%andb_prop _]%andb_prop.
  apply negb_true_iff, String.eqb_neq in Hne.
  apply String.eqb_eq in Hs.
  pose proof (lstrip_fixed u Hne Hs) as Hl.
  assert (rstrip u = u) as Hr by (unfold strip in Hs; by rewrite Hl in Hs).
  unfold strip.
  assert (lstrip (u +:+ nl) = u +:+ nl) as ->.
  { destruct u as [|c u]; [done|]. rewrite app_String. simpl in *.
    destruct (isspace c); [|done].
    exfalso. pose proof (lstrip_length u). rewrite Hl in *. simpl in *. lia. }
  by rewrite rstrip_app_blank.
Qed.

Lemma one_line_nonempty u : one_line u = true → u ≠ "".
Proof.
  unfold one_line. intros [[Hne _]%andb_prop _]%andb_prop.
  by apply negb_true_iff, String.eqb_neq in Hne.
Qed.

Lemma one_line_no_lf u : one_line u = true → no_lf u = true.
Proof.
  unfold one_line. intros [_ H]%andb_prop. revert H.
  induction u as [|c u IH]; simpl; [done|].
  intros [[-> _]%andb_prop ?]%andb_prop. simpl. auto.
Qed.

(** A one-line string starts with a character that is no white space. *)
Lemma one_line_head u :
  one_line u = true → ∃ c u', u = String c u' ∧ isspace c = false.
Proof.
  intros H. pose proof (one_line_nonempty u H) as Hne.
  unfold one_line in H. apply andb_prop in H as [[_ Hs]%andb_prop _].
  apply String.eqb_eq in Hs. pose proof (lstrip_fixed u Hne Hs) as Hl.
  destruct u as [|c u]; [done|]. exists c, u. split; [done|].
  simpl in Hl. destruct (isspace c); [|done].
  pose proof (lstrip_length u). rewrite Hl in *. simpl in *. lia.
Qed.

(** Induction that looks two characters ahead, as [universal_newlines]
    does. *)
Lemma string_pair_ind (P : string → Prop) :
  P "" → (∀ c, P (String c "")) →
  (∀ c a s, P s → P (String a s) → P (String c (String a s))) →
  ∀ s, P s.
Proof.
  intros H0 H1 H2 s.
  enough (P s ∧ ∀ c, P (String c s)) by tauto.
  induction s as [|a s [IH1 IH2]]; [by split|].
  split; [apply IH2|]. intros c. by apply H2.
Qed.

Lemma universal_newlines_app s t :
  starts_lf t = false →
  universal_newlines (s +:+ t) = universal_newlines s +:+ universal_newlines t.
Proof.
  intros Ht. induction s as [|c|c a s IH1 IH2] using string_pair_ind.
  - done.
  - rewrite app_String, app_empty_l. simpl.
    destruct (Ascii.eqb c CR); [|done].
    destruct t as [|c' t]; [done|]. simpl in Ht. by rewrite Ht.
  - rewrite !app_String. rewrite !app_String in IH2. simpl.
    destruct (Ascii.eqb c CR).
    + destruct (Ascii.eqb a LF).
      * by rewrite IH1.
      * simpl in IH2. by rewrite IH2.
    + simpl in IH2. by rewrite IH2.
Qed.

Lemma universal_newlines_no_cr s t :
  no_linebreak s = true →
  universal_newlines (s +:+ t) = s +:+ universal_newlines t.
Proof.
  induction s as [|c s IH]; simpl; [done|].
  intros [[_ Hc]%andb_prop Hs]%andb_prop.
  apply negb_true_iff in Hc. rewrite app_String. simpl.
  rewrite Hc. by rewrite IH.
Qed.

Lemma universal_newlines_line u t :
  no_linebreak u = true →
  universal_newlines ((u +:+ nl) +:+ t) = (u +:+ nl) +:+ universal_newlines t.
Proof.
  intros Hu. rewrite string_app_assoc, universal_newlines_no_cr by done.
  by rewrite string_app_assoc.
Qed.

Lemma readlines_line u t :
  no_lf u = true → readlines ((u +:+ nl) +:+ t) = (u +:+ nl) :: readlines t.
Proof.
  induction u as [|c u IH]; simpl; [done|].
  intros [Hc Hu]%andb_prop. apply negb_true_iff in Hc.
  rewrite !app_String. simpl. rewrite Hc, IH by done. done.
Qed.

Lemma readlines_one u : no_lf u = true → u ≠ "" → readlines u = [u].
Proof.
  induction u as [|c u IH]; simpl; [done|].
  intros [Hc Hu]%andb_prop _. apply negb_true_iff in Hc. rewrite Hc.
  destruct u as [|a u]; [done|]. by rewrite IH.
Qed.

Lemma readlines_cons_nonempty c s : readlines (String c s) ≠ [].
Proof. simpl. destruct (Ascii.eqb c LF); [done|]. by destruct (readlines s). Qed.

Lemma last_char_cons c s : last_char (String c s) = Some (default c (last_char s)).
Proof.
  revert c. induction s as [|a s IH]; intros c; [done|].
  change (last_char (String c (String a s))) with (last_char (String a s)).
  by rewrite IH.
Qed.

Lemma readlines_app x y :
  complete x = true → readlines (x +:+ y) = readlines x ++ readlines y.
Proof.
  unfold complete. induction x as [|c x IH]; [done|].
  rewrite last_char_cons, app_String. simpl. intros Hc.
  destruct (Ascii.eqb c LF) eqn:Ec.
  - destruct x as [|a x]; [done|]. rewrite IH; [done|].
    by rewrite last_char_cons in *.
  - destruct x as [|a x]; [simpl in Hc; congruence|].
    rewrite IH by (by rewrite last_char_cons in * ).
    pose proof (readlines_cons_nonempty a x).
    by destruct (readlines (String a x)).
Qed.

Lemma last_char_app_nl s : last_char (s +:+ nl) = Some LF.
Proof.
  induction s as [|c s IH]; [done|].
  by rewrite app_String, last_char_cons, IH.
Qed.

Lemma complete_app_nl s : complete (s +:+ nl) = true.
Proof. unfold complete. by rewrite last_char_app_nl. Qed.

Lemma no_linebreak_no_lf u : no_linebreak u = true → no_lf u = true.
Proof.
  induction u as [|c u IH]; simpl; [done|].
  intros [[-> _]%andb_prop ?]%andb_prop. simpl. auto.
Qed.

Lemma one_line_no_linebreak u : one_line u = true → no_linebreak u = true.
Proof. unfold one_line. by intros [_ H]%andb_prop. Qed.

Lemma blank_universal_newlines w :
  blank w = true → blank (universal_newlines w) = true.
Proof.
  induction w as [|c|c a s IH1 IH2] using string_pair_ind.
  - done.
  - simpl. intros Hc. destruct (Ascii.eqb c CR); [done|]. by simpl.
  - intros H. pose proof H as [Hc Has]%andb_prop.
    pose proof Has as [Ha Hs]%andb_prop.
    cbn [universal_newlines].
    destruct (Ascii.eqb c CR); [destruct (Ascii.eqb a LF)|].
    + simpl. auto.
    + change (isspace LF && blank (universal_newlines (String a s)) = true).
      rewrite IH2 by done. done.
    + change (isspace c && blank (universal_newlines (String a s)) = true).
      rewrite IH2 by done. by rewrite Hc.
Qed.

Lemma blank_readlines x :
  blank x = true → Forall (λ l, blank l = true) (readlines x).
Proof.
  induction x as [|c x IH]; simpl; [constructor|].
  intros [Hc Hx]%andb_prop. specialize (IH Hx).
  destruct (Ascii.eqb c LF); [by constructor|].
  destruct IH as [|l ls Hl Hls]; constructor; simpl; auto.
  - by rewrite Hc.
  - by rewrite Hc, Hl.
Qed.

Lemma url_lines_blank w : blank w = true → url_lines (universal_newlines w) = [].
Proof.
  intros Hw. unfold url_lines.
  pose proof (blank_readlines _ (blank_universal_newlines _ Hw)) as H.
  induction H as [|l ls Hl _ IH]; [done|].
  rewrite fmap_cons, filter_cons. rewrite strip_blank by done.
  by rewrite decide_False by auto.
Qed.

Lemma url_lines_one_line u :
  one_line u = true → url_lines (universal_newlines u) = [u].
Proof.
  intros Hu.
  pose proof (universal_newlines_no_cr u "" (one_line_no_linebreak u Hu)) as E.
  rewrite app_empty_r in E. simpl in E. rewrite app_empty_r in E.
  unfold url_lines. rewrite E.
  rewrite readlines_one by (by apply one_line_no_lf || by apply one_line_nonempty).
  rewrite fmap_cons, filter_cons.
  pose proof (one_line_nonempty u Hu) as Hne.
  unfold one_line in Hu. apply andb_prop in Hu as [[_ Hs]%andb_prop _].
  apply String.eqb_eq in Hs. rewrite Hs. by rewrite decide_True.
Qed.

(** The lines of a text of written URLs, and of what follows them. *)
Lemma readlines_lines_text urls t :
  Forall (λ u, one_line u = true) urls →
  universal_newlines (lines_text urls +:+ t) =
    lines_text urls +:+ universal_newlines t ∧
  readlines (lines_text urls +:+ t) =
    ((λ u, u +:+ nl) <$> urls) ++ readlines t.
Proof.
  induction 1 as [|u urls Hu _ [IH1 IH2]]; simpl; [done|].
  rewrite (string_app_assoc (u +:+ nl)). split.
  - rewrite universal_newlines_line by by apply one_line_no_linebreak.
    rewrite IH1. symmetry. apply string_app_assoc.
  - rewrite readlines_line by by apply one_line_no_lf. by rewrite IH2.
Qed.

Lemma url_lines_lines_text urls t :
  Forall (λ u, one_line u = true) urls →
  url_lines (universal_newlines (lines_text urls +:+ t)) =
    urls ++ url_lines (universal_newlines t).
Proof.
  intros Hu. destruct (readlines_lines_text urls t Hu) as [-> _].
  destruct (readlines_lines_text urls (universal_newlines t) Hu) as [_ H].
  unfold url_lines. rewrite H, fmap_app, filter_app. f_equal.
  clear H. induction Hu as [|u urls Hu _ IH]; [done|].
  rewrite !fmap_cons, filter_cons, strip_line by done.
  rewrite decide_True by by apply one_line_nonempty. by rewrite IH.
Qed.

(** Appending one line to a file that reads as complete lines. *)
Lemma url_lines_append s u :
  complete (universal_newlines s) = true → one_line u = true →
  universal_newlines (s +:+ (u +:+ nl)) = universal_newlines s +:+ (u +:+ nl) ∧
  url_lines (universal_newlines (s +:+ (u +:+ nl))) =
    url_lines (universal_newlines s) ++ [u].
Proof.
  intros Hs Hu.
  assert (universal_newlines (s +:+ (u +:+ nl)) =
          universal_newlines s +:+ (u +:+ nl)) as E.
  { rewrite universal_newlines_app.
    - f_equal. rewrite universal_newlines_no_cr by by apply one_line_no_linebreak.
      done.
    - destruct (one_line_head u Hu) as (c & u' & -> & Hc).
      rewrite app_String. simpl. destruct (Ascii.eqb_spec c LF) as [->|]; [|done].
      by rewrite isspace_LF in Hc. }
  split; [done|]. rewrite E. unfold url_lines.
  rewrite readlines_app by done.
  rewrite <-(app_empty_r (u +:+ nl)), readlines_line by by apply one_line_no_lf.
  rewrite fmap_app, filter_app. f_equal. simpl.
  rewrite filter_cons, strip_line by done.
  by rewrite decide_True by by apply one_line_nonempty.
Qed.

(** * Loading the URL files (independent.py, rekhta-data.py) *)

(** C10: loading the tracked URLs never raises: a file that cannot be
    read (missing, undecodable, denied) gives the empty set, any other
    the set of its stripped non-empty lines; so in [independent.py], so
    in [rekhta-data.py]. *)
Theorem load_tracked_urls_never_raises (cfg : Rekhta.config) (d : fs)
    (filename : string) :
  Independent.load_tracked_urls d filename =
    Ok (match read_text d filename with
        | Ok text => list_to_set (url_lines text)
        | Raise _ => ∅
        end)
  ∧ Rekhta.load_tracked_urls cfg d =
    Ok (match read_text d (Rekhta.track_file cfg) with
        | Ok text => list_to_set (url_lines text)
        | Raise _ => ∅
        end).
Proof.
  unfold Independent.load_tracked_urls, Independent.load_tracked_urls_body,
    Rekhta.load_tracked_urls, read_text.
  split.
  - by destruct (d !! filename) as [[]|].
  - by destruct (d !! Rekhta.track_file cfg) as [[]|].
Qed.

Lemma load_tracked_urls_regular d filename text :
  d !! filename = Some (Regular text) →
  Independent.load_tracked_urls d filename =
    Ok (list_to_set (url_lines (universal_newlines text))).
Proof.
  intros H. unfold Independent.load_tracked_urls,
    Independent.load_tracked_urls_body, read_text. by rewrite H.
Qed.

Lemma load_tracked_urls_missing d filename :
  d !! filename = None → Independent.load_tracked_urls d filename = Ok ∅.
Proof.
  intros H. unfold Independent.load_tracked_urls,
    Independent.load_tracked_urls_body, read_text. by rewrite H.
Qed.

Lemma first_index_is_Some u l : u ∈ l → is_Some (first_index u l).
Proof.
  induction l as [|x l IH]; [by intros ?%elem_of_nil|].
  intros [->|H]%elem_of_cons; simpl.
  - by rewrite decide_True.
  - destruct (decide (x = u)); [done|]. destruct (IH H) as [a ->]. by eexists.
Qed.

(** The loop of [load_candidate_urls]: what it adds to [urls]. *)
Lemma dedup_lines_spec lines : ∀ urls seen,
  seen = list_to_set urls → NoDup urls → (∀ u, u ∈ urls → u ≠ "") →
  ∃ extra,
    Independent.dedup_lines lines urls seen = urls ++ extra ∧
    NoDup (urls ++ extra) ∧
    (∀ u, u ∈ extra → u ≠ "" ∧ u ∈ strip <$> lines) ∧
    (∀ u, u ≠ "" → u ∈ strip <$> lines → u ∈ urls ++ extra) ∧
    (∀ i j x y, extra !! i = Some x → extra !! j = Some y → i < j →
       ∃ a b, first_index x (strip <$> lines) = Some a ∧
              first_index y (strip <$> lines) = Some b ∧ a < b).
Proof.
  induction lines as [|line rest IH]; intros urls seen Hseen Hnd Hne.
  - exists []. rewrite app_nil_r. simpl. split_and!; try done.
    + by intros u ?%elem_of_nil.
    + by intros u _ ?%elem_of_nil.
  - cbn [Independent.dedup_lines].
    destruct (bool_decide (strip line ≠ "") && bool_decide (strip line ∉ seen))
      eqn:Hnew.
    + apply andb_prop in Hnew as [Hn Hs].
      apply bool_decide_eq_true in Hn, Hs.
      assert (strip line ∉ urls) as Hfresh by (subst seen; set_solver).
      destruct (IH (urls ++ [strip line]) ({[strip line]} ∪ seen))
        as (extra & E & Hnd' & Hin & Hall & Hord).
      { subst seen. rewrite list_to_set_app_L. set_solver. }
      { apply NoDup_app. split_and!; [done| |apply NoDup_singleton].
        intros x Hx Hx'%list_elem_of_singleton. by subst. }
      { intros u [?|Hu%list_elem_of_singleton]%elem_of_app; [auto|by subst]. }
      exists (strip line :: extra). rewrite <-app_assoc in E, Hnd'.
      simpl in E, Hnd'. split_and!; try done.
      * intros u [->|Hu]%elem_of_cons; [split; [done|left]|].
        destruct (Hin u Hu). split; [done|by right].
      * intros u Hu [->|Hr]%elem_of_cons.
        { apply elem_of_app. right. left. }
        specialize (Hall u Hu Hr). rewrite <-app_assoc in Hall. done.
      * intros i j x y Hi Hj Hij.
        apply NoDup_app in Hnd' as (_ & _ & [Hx Hnd'']%NoDup_cons).
        destruct j as [|j]; [lia|]. simpl in Hj.
        assert (y ≠ strip line) as Hy.
        { intros ->. apply Hx. by eapply list_elem_of_lookup_2. }
        destruct (first_index_is_Some y (strip <$> rest)) as [b Hb].
        { eapply Hin, list_elem_of_lookup_2, Hj. }
        destruct i as [|i]; simpl in Hi.
        { injection Hi as <-. exists 0, (S b). rewrite fmap_cons. cbn [first_index].
          rewrite decide_True by done. rewrite decide_False by done.
          rewrite Hb. split_and!; [done|done|lia]. }
        assert (x ≠ strip line) as Hx'.
        { intros ->. apply Hx. by eapply list_elem_of_lookup_2. }
        destruct (Hord i j x y Hi Hj) as (a & b' & Ha & Hb' & Hab); [lia|].
        exists (S a), (S b'). rewrite fmap_cons. cbn [first_index].
        rewrite !decide_False by done.
        rewrite Ha, Hb'. split_and!; [done|done|lia].
    + destruct (IH urls seen Hseen Hnd Hne) as (extra & E & Hnd' & Hin & Hall & Hord).
      assert (strip line = "" ∨ strip line ∈ urls) as Hold.
      { apply andb_false_iff in Hnew as [H|H]; apply bool_decide_eq_false in H.
        - left. by destruct (decide (strip line = "")).
        - right. subst seen. destruct (decide (strip line ∈ urls)); [done|].
          exfalso. apply H. set_solver. }
      assert (∀ x, x ∈ extra → x ≠ strip line) as Hdiff.
      { intros x Hx ->. destruct Hold as [E0|Hu].
        - by destruct (Hin _ Hx).
        - apply NoDup_app in Hnd' as (_ & Hd & _). by apply (Hd _ Hu). }
      exists extra. split_and!; try done.
      * intros u Hu. destruct (Hin u Hu). split; [done|by right].
      * intros u Hu [->|Hr]%elem_of_cons; [|by apply Hall].
        destruct Hold as [?|?]; [done|]. apply elem_of_app. by left.
      * intros i j x y Hi Hj Hij.
        destruct (Hord i j x y Hi Hj Hij) as (a & b & Ha & Hb & Hab).
        exists (S a), (S b). rewrite fmap_cons. cbn [first_index].
        rewrite !decide_False
          by (apply not_eq_sym, Hdiff; by eapply list_elem_of_lookup_2).
        rewrite Ha, Hb. split_and!; [done|done|lia].
Qed.

(** C9: the candidate loader returns every distinct non-blank URL of
    the file once, in the order of the first occurrences. *)
Theorem load_candidate_urls_first_seen (d : fs) (filename text : string) :
  d !! filename = Some (Regular text) →
  ∃ urls,
    Independent.load_candidate_urls d filename = Ok urls ∧
    NoDup urls ∧
    (∀ u, u ∈ urls ↔
          u ≠ "" ∧ u ∈ strip <$> readlines (universal_newlines text)) ∧
    (∀ i j u v, urls !! i = Some u → urls !! j = Some v → i < j →
       ∃ a b,
         first_index u (strip <$> readlines (universal_newlines text)) = Some a ∧
         first_index v (strip <$> readlines (universal_newlines text)) = Some b ∧
         a < b).
Proof.
  intros Hf.
  destruct (dedup_lines_spec (readlines (universal_newlines text)) [] ∅)
    as (urls & E & Hnd & Hin & Hall & Hord); [done|constructor|by intros ? ?%elem_of_nil|].
  exists urls. simpl in *. split_and!; try done.
  - unfold Independent.load_candidate_urls,
      Independent.load_candidate_urls_body, read_text. rewrite Hf. simpl.
    by rewrite E.
  - intros u. split; [apply Hin|]. intros [? ?]. by apply Hall.
Qed.

(** The same on a file with repeated, padded and empty lines. *)
Lemma load_candidate_urls_first_seen_witness :
  ∃ urls,
    Independent.load_candidate_urls
      {[ "u.txt" := Regular ("b" +:+ nl +:+ " a " +:+ nl +:+ nl +:+ "b" +:+ nl +:+ "a") ]}
      "u.txt" = Ok urls ∧
    urls = ["b"; "a"] ∧ NoDup urls.
Proof.
  destruct (load_candidate_urls_first_seen
    {[ "u.txt" := Regular ("b" +:+ nl +:+ " a " +:+ nl +:+ nl +:+ "b" +:+ nl +:+ "a") ]}
    "u.txt" ("b" +:+ nl +:+ " a " +:+ nl +:+ nl +:+ "b" +:+ nl +:+ "a"))
    as (urls & E & Hnd & _); [reflexivity|].
  exists urls. split; [exact E|]. split; [|exact Hnd].
  vm_compute in E. by injection E as <-.
Defined.

(** * The tracker log (independent.py) *)

(** The log after a series of [add_to_tracked], started with no file:
    one line per URL. *)
Lemma add_to_tracked_Regular url f st s :
  disk st !! f = Some (Regular s) →
  disk (Independent.add_to_tracked url f st) !! f =
    Some (Regular (s +:+ (url +:+ nl))).
Proof.
  intros H. unfold Independent.add_to_tracked, append_text. rewrite H. simpl.
  by rewrite lookup_insert_eq.
Qed.

Lemma add_to_tracked_all urls f : ∀ st s,
  disk st !! f = Some (Regular s) →
  disk (foldl (λ st u, Independent.add_to_tracked u f st) st urls) !! f =
    Some (Regular (s +:+ lines_text urls)).
Proof.
  induction urls as [|u urls IH]; intros st s H; simpl.
  - by rewrite app_empty_r.
  - erewrite IH by by apply add_to_tracked_Regular.
    by rewrite !string_app_assoc.
Qed.

Lemma add_to_tracked_from_nothing urls f st tail d' :
  disk st !! f = None →
  append_text
    (disk (foldl (λ st u, Independent.add_to_tracked u f st) st urls)) f tail
    = Ok d' →
  d' !! f = Some (Regular (lines_text urls +:+ tail)).
Proof.
  intros Hf. destruct urls as [|u urls]; simpl.
  - unfold append_text. rewrite Hf. intros [= <-]. by rewrite lookup_insert_eq.
  - pose proof (add_to_tracked_all urls f
                  (Independent.add_to_tracked u f st) (u +:+ nl)) as H.
    unfold append_text. rewrite H.
    + intros [= <-]. rewrite lookup_insert_eq. by rewrite !string_app_assoc.
    + unfold Independent.add_to_tracked, append_text. rewrite Hf. simpl.
      by rewrite lookup_insert_eq.
Qed.

Lemma Ok_inj {A} (a b : A) : Ok a = Ok b → a = b.
Proof. by intros [=]. Qed.

(** C5, as stated, fails: a trailing line that is no URL, here one cut
    short, is not skipped; it is loaded as a URL of its own. *)
Lemma partial_trailing_line_is_loaded :
  Independent.load_tracked_urls cut_log "t.txt" =
    Ok {[ "https://a/node/1"; "https://a/node/2"; "https://a/no" ]} ∧
  Independent.load_tracked_urls cut_log "t.txt" ≠
    Ok {[ "https://a/node/1"; "https://a/node/2" ]}.
Proof.
  assert (Independent.load_tracked_urls cut_log "t.txt" =
    Ok {[ "https://a/node/1"; "https://a/node/2"; "https://a/no" ]}) as E
    by (vm_compute; reflexivity).
  split; [exact E|]. rewrite E. intros H%Ok_inj.
  assert ("https://a/no" ∈
          ({[ "https://a/node/1"; "https://a/node/2" ]} : gset string))
    as Hin by (rewrite <-H; set_solver).
  set_solver.
Qed.

(** * The worker of independent.py *)

Section IndependentWorker.

Variable now : nat → string.
Variable arun : nat → string → response.
Variable is_valid_article : string → bool.
Variable str : exn → string.
Variable cfg : Independent.config.

Local Abbreviation attempts := (Independent.attempts now arun is_valid_article str cfg).
Local Abbreviation download_article :=
  (Independent.download_article now arun is_valid_article str cfg).
Local Abbreviation add_to_failed := (Independent.add_to_failed now cfg).
Local Abbreviation track_file := (Independent.track_file cfg).

Lemma fetches_app t1 t2 : fetches (t1 ++ t2) = fetches t1 ++ fetches t2.
Proof. apply omap_app. Qed.
Lemma sleeps_app t1 t2 : sleeps (t1 ++ t2) = sleeps t1 ++ sleeps t2.
Proof. apply omap_app. Qed.
Lemma writes_app t1 t2 : writes (t1 ++ t2) = writes t1 ++ writes t2.
Proof. apply omap_app. Qed.
Lemma appends_app p t1 t2 : appends p (t1 ++ t2) = appends p t1 ++ appends p t2.
Proof. apply omap_app. Qed.

(** [add_to_tracked] appends one line to the log, or nothing when the
    log cannot be opened. *)
Lemma add_to_tracked_trace url f st :
  tracked (Independent.add_to_tracked url f st) = tracked st ∧
  failed (Independent.add_to_tracked url f st) = failed st ∧
  ∃ t, trace (Independent.add_to_tracked url f st) = trace st ++ t ∧
       fetches t = [] ∧ writes t = [] ∧ sleeps t = [] ∧
       (appends f t = [url +:+ nl] ∨ appends f t = []).
Proof.
  unfold Independent.add_to_tracked.
  destruct (append_text (disk st) f (url +:+ nl)); simpl.
  - split_and!; [done..|]. eexists. split; [done|]. simpl.
    rewrite decide_True by done. repeat split; auto.
  - split_and!; [done..|]. exists []. rewrite app_nil_r. repeat split; auto.
Qed.

Lemma add_to_failed_trace url reason st :
  tracked (add_to_failed url reason st) = tracked st ∧
  failed (add_to_failed url reason st) = failed st ∧
  ∃ t, trace (add_to_failed url reason st) = trace st ++ t ∧
       fetches t = [] ∧ writes t = [] ∧ sleeps t = [].
Proof.
  unfold Independent.add_to_failed.
  destruct (append_text _ _ _); simpl.
  - split_and!; [done..|]. eexists. by split.
  - split_and!; [done..|]. exists []. by rewrite app_nil_r.
Qed.

Lemma outcome_after_quiet url outfile st st1 st' ok :
  quiet track_file url st st1 → outcome track_file url outfile st1 st' ok → outcome track_file url outfile st st' ok.
Proof.
  intros (Ht & Hf & t0 & E0 & F0 & W0 & A0) (t & E & F & Hfs & H).
  exists (t0 ++ t). rewrite E, E0, <-app_assoc.
  rewrite fetches_app, writes_app, appends_app, W0, A0. simpl.
  split_and!; [done|by apply Forall_app|by rewrite <-Hf|].
  destruct ok; by rewrite <-?Ht, <-?Hf.
Qed.

Lemma mark_failed_outcome log url outfile reason st st' ok pg :
  Independent.mark_failed now cfg url reason st = (st', (ok, pg)) →
  outcome log url outfile st st' ok.
Proof.
  unfold Independent.mark_failed. intros [= <- <- <-].
  destruct (add_to_failed_trace url reason st) as (Ht & Hf & t & E & F & W & _).
  exists t. simpl. rewrite E, F, W, Ht, Hf.
  split_and!; [done|constructor|set_solver|done..].
Qed.

Ltac quiet_step :=
  split_and!; [done|done|];
  eexists; split; [simpl; rewrite <-?app_assoc; reflexivity|];
  simpl; split_and!; [by repeat constructor|done|done].

Lemma attempts_outcome url aid outfile n : ∀ attempt st st' ok pg,
  attempts n attempt url aid outfile st = (st', (ok, pg)) →
  outcome track_file url outfile st st' ok.
Proof.
  induction n as [|n IH]; intros attempt st st' ok pg H.
  - injection H as <- <- <-. exists []. rewrite app_nil_r. by repeat split.
  - cbn [Independent.attempts] in H.
    assert (∀ st1 reason, quiet track_file url st st1 →
              Independent.mark_failed now cfg url reason st1 = (st', (ok, pg)) →
              outcome track_file url outfile st st' ok) as Hfail.
    { intros st1 reason Hq Hm. eapply outcome_after_quiet; [done|].
      by eapply mark_failed_outcome. }
    assert (∀ st1 a, quiet track_file url st st1 →
              attempts n a url aid outfile st1 = (st', (ok, pg)) →
              outcome track_file url outfile st st' ok) as Hnext.
    { intros st1 a Hq Hm. eapply outcome_after_quiet; [done|]. by eapply IH. }
    repeat case_match;
      try (eapply Hnext; [|exact H]; quiet_step);
      try (eapply Hfail; [|exact H]; quiet_step).
    clear Hnext Hfail. injection H as <- <- <-. unfold outcome.
    match goal with
    | |- context [Independent.add_to_tracked url ?f ?s] =>
        destruct (add_to_tracked_trace url f s) as (Ht & Hf & t & E & F & W & _ & A)
    end.
    eexists. simpl. rewrite E. simpl. rewrite <-!app_assoc. split; [reflexivity|].
    rewrite !fetches_app, !writes_app, !appends_app, F, W, Ht, Hf.
    destruct A as [-> | ->]; simpl;
      (split_and!; [by repeat constructor|done|done|done|done|auto]).
Qed.

Local Abbreviation outfile_of := (Independent.outfile_of cfg).
Local Abbreviation gather := (Independent.gather now arun is_valid_article str cfg).
Local Abbreviation batch_loop :=
  (Independent.batch_loop now arun is_valid_article str cfg).
Local Abbreviation process_batch :=
  (Independent.process_batch now arun is_valid_article str cfg).

(** The three ways [download_article] ends. *)
Lemma download_article_cases url st st' ok pg :
  download_article url st = (st', (ok, pg)) →
  (url ∈ tracked st ∧ st' = st ∧ ok = false) ∨
  (url ∉ tracked st ∧ exists_path (disk st) (outfile_of url) = true ∧
   ok = false ∧ tracked st' = {[url]} ∪ tracked st ∧ failed st' = failed st ∧
   ∃ t, trace st' = trace st ++ t ∧ fetches t = [] ∧ writes t = [] ∧
        (appends track_file t = [url +:+ nl] ∨ appends track_file t = [])) ∨
  (url ∉ tracked st ∧ exists_path (disk st) (outfile_of url) = false ∧
   outcome track_file url (outfile_of url) (emit Pause st) st' ok).
Proof.
  unfold Independent.download_article. intros H.
  destruct (bool_decide (url ∈ tracked st)) eqn:Ht.
  { apply bool_decide_eq_true in Ht. injection H as <- <- <-. by left. }
  apply bool_decide_eq_false in Ht. right.
  destruct (exists_path (disk st) (outfile_of url)) eqn:Hx.
  - left. injection H as <- <- <-.
    destruct (add_to_tracked_trace url track_file st)
      as (Hk & Hf & t & E & F & W & _ & A).
    simpl. rewrite Hk. split_and!; try done. by exists t.
  - right. split_and!; try done. by eapply attempts_outcome.
Qed.

(** Every call of the worker extends the trace, keeps what is tracked
    and failed, and fetches nothing but its own URL, and this only when
    the URL was not tracked. *)
Lemma download_article_trace url st :
  ∃ t, trace (download_article url st).1 = trace st ++ t ∧
       tracked st ⊆ tracked (download_article url st).1 ∧
       failed st ⊆ failed (download_article url st).1 ∧
       ∀ u, u ∈ fetches t → u = url ∧ url ∉ tracked st.
Proof.
  destruct (download_article url st) as [st' [ok pg]] eqn:H. simpl.
  apply download_article_cases in H
    as [(Ht & -> & _)|[(Ht & _ & _ & Hk & Hf & t & E & F & _)|(Ht & _ & t & E & F & Hf & H)]].
  - exists []. rewrite app_nil_r. split_and!; try done. by intros u ?%elem_of_nil.
  - exists t. rewrite Hk, Hf, F. split_and!; [done|set_solver|done|].
    by intros u ?%elem_of_nil.
  - exists (Pause :: t). simpl in E. rewrite E, <-app_assoc. simpl in *.
    split_and!; [done| |done|].
    + destruct ok; [destruct H as (_ & -> & _)|destruct H as (_ & ->)]; set_solver.
    + intros u Hu. split; [|done].
      change (fetches (Pause :: t)) with (fetches t) in Hu.
      by eapply (proj1 (Forall_forall _ _) F).
Qed.

Lemma gather_trace tasks : ∀ st,
  ∃ t, trace (gather tasks st) = trace st ++ t ∧
       tracked st ⊆ tracked (gather tasks st) ∧
       failed st ⊆ failed (gather tasks st) ∧
       ∀ u, u ∈ fetches t → u ∈ tasks ∧ u ∉ tracked st.
Proof.
  unfold Independent.gather.
  induction tasks as [|url tasks IH]; intros st; simpl.
  - exists []. rewrite app_nil_r. split_and!; try done. by intros u ?%elem_of_nil.
  - destruct (download_article_trace url st) as (t1 & E1 & K1 & F1 & H1).
    destruct (IH (download_article url st).1) as (t2 & E2 & K2 & F2 & H2).
    exists (t1 ++ t2). rewrite E2, E1, <-app_assoc.
    split_and!; [done|set_solver|set_solver|].
    intros u. rewrite fetches_app. intros [Hu|Hu]%elem_of_app.
    + destruct (H1 u Hu) as [-> ?]. split; [left|done].
    + destruct (H2 u Hu) as [? ?]. split; [by right|set_solver].
Qed.

Lemma batch_loop_trace urls : ∀ tasks st,
  ∃ t, trace (batch_loop urls tasks st) = trace st ++ t ∧
       tracked st ⊆ tracked (batch_loop urls tasks st) ∧
       failed st ⊆ failed (batch_loop urls tasks st) ∧
       ∀ u, u ∈ fetches t → (u ∈ urls ∨ u ∈ tasks) ∧ u ∉ tracked st.
Proof.
  induction urls as [|url urls IH]; intros tasks st; simpl.
  - destruct tasks as [|a tasks].
    + exists []. rewrite app_nil_r. split_and!; try done.
      by intros u ?%elem_of_nil.
    + destruct (gather_trace (a :: tasks) st) as (t & E & K & F & H).
      exists t. split_and!; try done. intros u Hu. destruct (H u Hu). auto.
  - destruct (bool_decide (url ∈ tracked st) || bool_decide (url ∈ failed st)).
    { destruct (IH tasks st) as (t & E & K & F & H). exists t.
      split_and!; try done. intros u Hu. destruct (H u Hu) as [[?|?] ?].
      - split; [left; by right|done].
      - split; [by right|done]. }
    destruct (_ >=? _)%Z.
    + destruct (gather_trace (tasks ++ [url]) st) as (t1 & E1 & K1 & F1 & H1).
      destruct (IH [] (gather (tasks ++ [url]) st)) as (t2 & E2 & K2 & F2 & H2).
      exists (t1 ++ t2). rewrite E2, E1, <-app_assoc.
      split_and!; [done|set_solver|set_solver|].
      intros u. rewrite fetches_app. intros [Hu|Hu]%elem_of_app.
      * destruct (H1 u Hu) as [[?|?%list_elem_of_singleton]%elem_of_app ?].
        -- split; [by right|done].
        -- subst. split; [left; left|done].
      * destruct (H2 u Hu) as [[?|?%elem_of_nil] ?]; [|done].
        split; [left; by right|set_solver].
    + destruct (IH (tasks ++ [url]) st) as (t & E & K & F & H). exists t.
      split_and!; try done. intros u Hu.
      destruct (H u Hu) as [[?|[?|?%list_elem_of_singleton]%elem_of_app] ?].
      * split; [left; by right|done].
      * split; [by right|done].
      * subst. split; [left; left|done].
Qed.

(** When every call of the crawler raises, the retry loop sleeps
    [retry_delay * attempt] after each attempt but the last. *)
Lemma attempts_all_fail url aid outfile :
  (∀ k, ∃ reason, arun k url = Failure reason) →
  ∀ n attempt st,
    Z.of_nat n = (Independent.retry_count cfg - attempt + 1)%Z →
    ∃ t, trace (attempts n attempt url aid outfile st).1 = trace st ++ t ∧
         sleeps t = (λ k, Independent.retry_delay cfg * (attempt + Z.of_nat k))%Z
                      <$> seq 0 (n - 1) ∧
         fetches t = replicate n url.
Proof.
  intros Hfail. induction n as [|n IH]; intros attempt st Hn.
  - exists []. by rewrite app_nil_r.
  - cbn [Independent.attempts]. destruct (Hfail (calls st)) as [reason ->].
    destruct (Z.ltb_spec attempt (Independent.retry_count cfg)) as [Hlt|Hge].
    + destruct (IH (attempt + 1)%Z
                  (emit (Sleep (Independent.retry_delay cfg * attempt))
                     (called (emit (Fetch url) st)))) as (t & E & S & F); [lia|].
      eexists. rewrite E. simpl. rewrite <-!app_assoc. split; [reflexivity|].
      rewrite !sleeps_app, !fetches_app, S, F. simpl.
      destruct n as [|n]; [lia|]. simpl. rewrite Nat.sub_0_r.
      split; [|done]. f_equal; [f_equal; lia|].
      rewrite <-fmap_S_seq, <-list_fmap_compose. apply list_fmap_ext.
      intros i x _. simpl. f_equal. lia.
    + assert (n = 0) as -> by lia.
      destruct (add_to_failed_trace url reason (called (emit (Fetch url) st)))
        as (_ & _ & t & E & F & _ & S).
      eexists. unfold Independent.mark_failed. simpl. rewrite E. simpl.
      rewrite <-app_assoc. split; [reflexivity|].
      by rewrite sleeps_app, fetches_app, S, F.
Qed.

(** The backoff of [independent.py] is linear in the attempt number. *)
Lemma independent_backoff_linear url st :
  url ∉ tracked st → exists_path (disk st) (outfile_of url) = false →
  (1 ≤ Independent.retry_count cfg)%Z →
  (∀ k, ∃ reason, arun k url = Failure reason) →
  ∃ t, trace (download_article url st).1 = trace st ++ t ∧
       sleeps t = (λ k, Independent.retry_delay cfg * Z.of_nat (S k))%Z
                    <$> seq 0 (Z.to_nat (Independent.retry_count cfg) - 1) ∧
       fetches t = replicate (Z.to_nat (Independent.retry_count cfg)) url.
Proof.
  intros Ht Hx Hrc Hfail. unfold Independent.download_article.
  rewrite bool_decide_eq_false_2, Hx by done.
  destruct (attempts_all_fail url (Independent.article_id_of url) (outfile_of url)
              Hfail (Z.to_nat (Independent.retry_count cfg)) 1%Z (emit Pause st))
    as (t & E & S & F); [lia|].
  exists (Pause :: t). rewrite E. simpl. rewrite <-app_assoc.
  split; [done|]. split; [|done].
  change (sleeps (Pause :: t)) with (sleeps t). rewrite S.
  apply list_fmap_ext. intros i x _. f_equal. lia.
Qed.

(** C4: a URL that is tracked when it is dispatched is not fetched and
    the worker leaves the state as it is: called on it, [download_article]
    returns at once, and [process_batch] fetches only URLs of the batch
    that were not tracked. *)
Theorem tracked_url_is_not_fetched (url : string) (urls : list string)
    (st : state) :
  url ∈ tracked st →
  download_article url st = (st, (false, None)) ∧
  ∃ t, trace (process_batch urls st).1 = trace st ++ t ∧
       url ∉ fetches t ∧
       ∀ u, u ∈ fetches t → u ∈ urls ∧ u ∉ tracked st.
Proof.
  intros Hin. split.
  - unfold Independent.download_article. by rewrite bool_decide_eq_true_2.
  - unfold Independent.process_batch. simpl.
    destruct (batch_loop_trace urls [] st) as (t & E & _ & _ & H).
    exists t. split_and!; [done| |].
    + intros Hu. by destruct (H url Hu).
    + intros u Hu. destruct (H u Hu) as [[?|?%elem_of_nil] ?]; done.
Qed.


End IndependentWorker.

(** * The worker of nature-articles.py *)

Section NatureWorker.

Variable arun : nat → string → response.
Variable url_path : string → string.
Variable cfg : Nature.config.

Local Abbreviation nature_download := (Nature.download_article arun url_path cfg).


End NatureWorker.

(** * The retry loop of rekhta-data.py *)

Section RekhtaWorker.

Variable arun : nat → string → response.
Variable cfg : Rekhta.config.

(** When every call of the crawler raises, the loop sleeps [2 ** attempt]
    after each attempt but the last. *)
Lemma rekhta_attempts_all_fail url :
  (∀ k, ∃ reason, arun k url = Failure reason) →
  ∀ n attempt st,
    Z.of_nat n = (Rekhta.retry_attempts cfg - attempt)%Z →
    ∃ t, trace (Rekhta.attempts arun cfg n attempt url st).1 = trace st ++ t ∧
         sleeps t = (λ k, 2 ^ (attempt + Z.of_nat k))%Z <$> seq 0 (n - 1) ∧
         fetches t = replicate n url.
Proof.
  intros Hfail. induction n as [|n IH]; intros attempt st Hn.
  - exists []. by rewrite app_nil_r.
  - cbn [Rekhta.attempts]. destruct (Hfail (calls st)) as [reason ->].
    destruct (Z.ltb_spec attempt (Rekhta.retry_attempts cfg - 1)) as [Hlt|Hge].
    + destruct (IH (attempt + 1)%Z
                  (emit (Sleep (2 ^ attempt)) (called (emit (Fetch url) st))))
        as (t & E & S & F); [lia|].
      eexists. rewrite E. simpl. rewrite <-!app_assoc. split; [reflexivity|].
      rewrite !sleeps_app, !fetches_app, S, F.
      destruct n as [|n]; [lia|]. simpl. rewrite Nat.sub_0_r.
      split; [|done]. f_equal; [f_equal; f_equal; lia|].
      rewrite <-fmap_S_seq, <-list_fmap_compose. apply list_fmap_ext.
      intros i x _. simpl. f_equal. lia.
    + assert (n = 0) as -> by lia. eexists. simpl. by split.
Qed.

(** The backoff of [rekhta-data.py] doubles: 1, 2, 4, ... *)
Lemma rekhta_backoff_exponential url st :
  (∀ k, ∃ reason, arun k url = Failure reason) →
  ∃ t, trace (Rekhta.download_article arun cfg url st).1 = trace st ++ t ∧
       sleeps t = (λ k, 2 ^ Z.of_nat k)%Z
                    <$> seq 0 (Z.to_nat (Rekhta.retry_attempts cfg) - 1) ∧
       fetches t = replicate (Z.to_nat (Rekhta.retry_attempts cfg)) url.
Proof.
  intros Hfail. unfold Rekhta.download_article.
  destruct (Z.le_gt_cases 0 (Rekhta.retry_attempts cfg)) as [Hle|Hgt].
  - destruct (rekhta_attempts_all_fail url Hfail
                (Z.to_nat (Rekhta.retry_attempts cfg)) 0%Z st)
      as (t & E & S & F); [lia|].
    exists t. by split_and!.
  - replace (Z.to_nat (Rekhta.retry_attempts cfg)) with 0 by lia.
    exists []. by rewrite app_nil_r.
Qed.

End RekhtaWorker.

(** * The log of the worker of independent.py *)

Section IndependentLog.

Variable now : nat → string.
Variable arun : nat → string → response.
Variable is_valid_article : string → bool.
Variable str : exn → string.
Variable cfg : Independent.config.

Local Abbreviation attempts := (Independent.attempts now arun is_valid_article str cfg).
Local Abbreviation download_article :=
  (Independent.download_article now arun is_valid_article str cfg).
Local Abbreviation log := (Independent.track_file cfg).
Local Abbreviation outfile_of := (Independent.outfile_of cfg).



End IndependentLog.

(** * The claims on the workers *)

(** C1, at the failing input: with four attempts allowed, a retry delay
    of one second and a crawler whose every call raises, the worker of
    [independent.py] sleeps 1, 2 and 3 seconds between its four
    fetches: the delay grows by the attempt number, not by powers of
    two, and there is no sleep of 4. *)
Theorem independent_backoff_at_four_attempts :
  sleeps (trace (Independent.download_article sample_now sample_down
                   sample_valid sample_str (sample_cfg 5 4 10) node_1
                   (start ∅ ∅ ∅)).1) = [1; 2; 3]%Z ∧
  fetches (trace (Independent.download_article sample_now sample_down
                    sample_valid sample_str (sample_cfg 5 4 10) node_1
                    (start ∅ ∅ ∅)).1) = [node_1; node_1; node_1; node_1].
Proof. split; vm_compute; reflexivity. Qed.

(** The same failures in [rekhta-data.py], with four attempts: 1, 2, 4. *)
Example rekhta_backoff_at_four_attempts :
  sleeps (trace (Rekhta.download_article sample_down
                   {| Rekhta.download_dir := "out"; Rekhta.track_file := "t.txt";
                      Rekhta.retry_attempts := 4 |}
                   node_1 (start ∅ ∅ ∅)).1) = [1; 2; 4]%Z.
Proof. vm_compute. reflexivity. Qed.




(** The example of the idempotence property: with A and B tracked and a
    batch of A, B and C, only C is fetched; and the worker called on A
    returns at once. *)
Lemma tracked_url_is_not_fetched_witness :
  Independent.download_article sample_now sample_up sample_valid sample_str
    (sample_cfg 5 3 10) node_1 (start ∅ {[ node_1; node_2 ]} ∅)
  = (start ∅ {[ node_1; node_2 ]} ∅, (false, None)) ∧
  fetches (trace (Independent.process_batch sample_now sample_up sample_valid
                    sample_str (sample_cfg 5 3 10) [node_1; node_2; node_3]
                    (start ∅ {[ node_1; node_2 ]} ∅)).1) = [node_3].
Proof.
  assert (node_1 ∈ tracked (start ∅ {[ node_1; node_2 ]} ∅)) as Hin
    by (simpl; set_solver).
  split.
  - exact (proj1 (tracked_url_is_not_fetched sample_now sample_up sample_valid
                    sample_str (sample_cfg 5 3 10) node_1 [node_1; node_2; node_3]
                    (start ∅ {[ node_1; node_2 ]} ∅) Hin)).
  - vm_compute. reflexivity.
Defined.

(** * Growing the frontier (wiki-how.py, independent.py) *)

Lemma sorted_spec (s : gset string) :
  StronglySorted String.le (sorted s) ∧ NoDup (sorted s) ∧
  ∀ u, u ∈ sorted s ↔ u ∈ s.
Proof.
  unfold sorted. split_and!.
  - apply StronglySorted_merge_sort; apply _.
  - rewrite merge_sort_Permutation. apply NoDup_elements.
  - intros u. rewrite merge_sort_Permutation. apply elem_of_elements.
Qed.

Lemma sorted_length (s : gset string) : length (sorted s) = size s.
Proof. unfold sorted. by rewrite merge_sort_Permutation. Qed.

Section WikiHowFrontier.

Variable arun : nat → string → response.
Variable extract_article_links : nat → string → gset string.
Variable cfg : WikiHow.config.

Local Abbreviation discover := (WikiHow.discover extract_article_links).
Local Abbreviation expand := (WikiHow.expand extract_article_links).

(** The links [discover] collects are neither tracked nor seen, and the
    requests leave the tracked set alone. *)
Lemma discover_fresh batch c :
  tracked (discover batch c).1 = tracked (WikiHow.cs c) ∧
  ∀ u, u ∈ (discover batch c).2 →
       u ∉ tracked (WikiHow.cs c) ∧ u ∉ WikiHow.seen c.
Proof.
  unfold WikiHow.discover.
  assert (∀ acc : state * gset string,
            tracked acc.1 = tracked (WikiHow.cs c) →
            (∀ u, u ∈ acc.2 → u ∉ tracked (WikiHow.cs c) ∧ u ∉ WikiHow.seen c) →
            let r := foldl (λ acc url,
                       (called (emit (Lookup url) acc.1),
                        acc.2 ∪ (extract_article_links (calls acc.1) url
                                 ∖ tracked acc.1 ∖ WikiHow.seen c))) acc batch in
            tracked r.1 = tracked (WikiHow.cs c) ∧
            ∀ u, u ∈ r.2 → u ∉ tracked (WikiHow.cs c) ∧ u ∉ WikiHow.seen c) as H.
  { induction batch as [|url batch IH]; intros acc Ht Hacc; simpl; [done|].
    apply IH; simpl; [done|]. intros u. rewrite Ht.
    intros [?|?]%elem_of_union; [auto|set_solver]. }
  apply (H (WikiHow.cs c, ∅)); [done|]. intros u. set_solver.
Qed.

(** The enqueue of [wiki-how.py]: what [expand] appends to the queue is
    sorted, without repeats, and neither tracked nor seen; every URL of
    the queue stays seen. *)
Lemma expand_appends_fresh_sorted batch c :
  (∀ u, u ∈ WikiHow.queue c → u ∈ WikiHow.seen c) →
  ∃ added,
    WikiHow.queue (expand batch c) = WikiHow.queue c ++ added ∧
    WikiHow.seen (expand batch c) = WikiHow.seen c ∪ list_to_set added ∧
    StronglySorted String.le added ∧ NoDup added ∧
    (∀ u, u ∈ added →
       u ∉ tracked (WikiHow.cs c) ∧ u ∉ WikiHow.seen c ∧ u ∉ WikiHow.queue c) ∧
    (∀ u, u ∈ WikiHow.queue (expand batch c) → u ∈ WikiHow.seen (expand batch c)).
Proof.
  intros Hq. unfold WikiHow.expand.
  destruct (discover_fresh batch c) as [_ Hfresh].
  destruct (discover batch c) as [st new_links]. simpl in *.
  destruct (sorted_spec new_links) as (Hs & Hnd & Hin).
  exists (sorted new_links). split_and!; try done.
  - f_equal. apply set_eq. intros u. rewrite elem_of_list_to_set. by rewrite Hin.
  - intros u Hu%Hin. destruct (Hfresh u Hu). split_and!; [done|done|].
    intros ?%Hq. done.
  - intros u [?%Hq|?%Hin]%elem_of_app; set_solver.
Qed.

End WikiHowFrontier.

Section IndependentFrontier.

Variable cfg : Independent.config.

(** The enqueue of [independent.py]: [update_urls_file] appends, in
    sorted order, the new URLs that are not yet lines of the URL file;
    it neither reads nor changes what is tracked or failed. *)
Lemma update_urls_file_appends new_urls st text :
  disk st !! Independent.urls_file cfg = Some (Regular text) →
  let to_add :=
    sorted (new_urls ∖ list_to_set (url_lines (universal_newlines text))) in
  ∃ t, trace (Independent.update_urls_file cfg new_urls st).1 = trace st ++ t ∧
       appends (Independent.urls_file cfg) t = (λ u, u +:+ nl) <$> to_add ∧
       (Independent.update_urls_file cfg new_urls st).2 = length to_add ∧
       tracked (Independent.update_urls_file cfg new_urls st).1 = tracked st ∧
       failed (Independent.update_urls_file cfg new_urls st).1 = failed st.
Proof.
  intros Hf to_add. unfold Independent.update_urls_file.
  rewrite (load_tracked_urls_regular _ _ _ Hf).
  fold to_add.
  set (S := new_urls ∖ list_to_set (url_lines (universal_newlines text))) in *.
  destruct (bool_decide (S = ∅)) eqn:HS.
  - apply bool_decide_eq_true in HS. exists []. rewrite app_nil_r.
    subst to_add. rewrite HS. simpl. split_and!; try done.
  - unfold append_text. rewrite Hf. simpl.
    assert (∀ (ls : list string) s0,
              ∃ t, trace (foldl (λ st line, emit (Appended (Independent.urls_file cfg) line) st) s0 ls)
                     = trace s0 ++ t ∧
                   appends (Independent.urls_file cfg) t = ls ∧
                   tracked (foldl (λ st line, emit (Appended (Independent.urls_file cfg) line) st) s0 ls) = tracked s0 ∧
                   failed (foldl (λ st line, emit (Appended (Independent.urls_file cfg) line) st) s0 ls) = failed s0) as H.
    { induction ls as [|l ls IH]; intros s0; simpl.
      - exists []. by rewrite app_nil_r.
      - destruct (IH (emit (Appended (Independent.urls_file cfg) l) s0))
          as (t & E & A & K & F).
        exists (Appended (Independent.urls_file cfg) l :: t).
        rewrite E, K, F. simpl. rewrite <-app_assoc. split_and!; try done.
        unfold appends in *. simpl. rewrite decide_True by done. by rewrite A. }
    destruct (H ((λ url, url +:+ nl) <$> to_add)
                (with_disk (<[Independent.urls_file cfg :=
                   Regular (text +:+ String.concat "" ((λ url, url +:+ nl) <$> to_add))]>
                   (disk st)) st)) as (t & E & A & K & F).
    exists t. rewrite E, K, F. simpl. split_and!; try done.
    subst to_add. by rewrite sorted_length.
Qed.

End IndependentFrontier.

(** C6, as stated, fails: [update_urls_file] does not look at the
    tracker, so a discovered link that is already Completed but is no
    line of the URL file is inserted into the frontier again. *)
Lemma completed_url_is_enqueued_again :
  let st := start {[ "u.txt" := Regular (lines_text ["n/0"]) ]} {[ node_1 ]} ∅ in
  let r := Independent.update_urls_file (sample_cfg 5 3 10)
             {[ node_1; node_2 ]} st in
  node_1 ∈ tracked st ∧
  r.2 = 2 ∧
  appends "u.txt" (trace r.1) = [node_1 +:+ nl; node_2 +:+ nl] ∧
  disk r.1 !! "u.txt" = Some (Regular (lines_text ["n/0"; node_1; node_2])).
Proof.
  cbv zeta. split; [simpl; set_solver|].
  split_and!; vm_compute; reflexivity.
Qed.

(** C6, amended: in [wiki-how.py] the URLs appended to the queue are
    discovered links that are neither in the queue, nor tracked, nor
    seen before (every URL ever enqueued, so every failed one too, is
    seen), appended in sorted order without repeats; in [independent.py]
    [update_urls_file] appends, in sorted order, exactly the discovered
    URLs that are not yet lines of the URL file, whatever the tracker
    holds. *)
Theorem enqueue_appends_new_sorted
    (extract_article_links : nat → string → gset string)
    (batch : list string) (c : WikiHow.crawl)
    (cfg : Independent.config) (new_urls : gset string) (st : state)
    (text : string) :
  (∀ u, u ∈ WikiHow.queue c → u ∈ WikiHow.seen c) →
  disk st !! Independent.urls_file cfg = Some (Regular text) →
  (∃ added,
     WikiHow.queue (WikiHow.expand extract_article_links batch c)
       = WikiHow.queue c ++ added ∧
     StronglySorted String.le added ∧ NoDup added ∧
     ∀ u, u ∈ added →
       u ∉ tracked (WikiHow.cs c) ∧ u ∉ WikiHow.seen c ∧ u ∉ WikiHow.queue c) ∧
  (∃ to_add t,
     trace (Independent.update_urls_file cfg new_urls st).1 = trace st ++ t ∧
     appends (Independent.urls_file cfg) t = (λ u, u +:+ nl) <$> to_add ∧
     StronglySorted String.le to_add ∧ NoDup to_add ∧
     ∀ u, u ∈ to_add ↔
          u ∈ new_urls ∧ u ∉ url_lines (universal_newlines text)).
Proof.
  intros Hq Hf. split.
  - destruct (expand_appends_fresh_sorted extract_article_links batch c Hq)
      as (added & E & _ & Hs & Hnd & Hin & _).
    by exists added.
  - destruct (update_urls_file_appends cfg new_urls st text Hf)
      as (t & E & A & _).
    destruct (sorted_spec
                (new_urls ∖ list_to_set (url_lines (universal_newlines text))))
      as (Hs & Hnd & Hin).
    eexists _, t. split_and!; [exact E|exact A|exact Hs|exact Hnd|].
    intros u. rewrite Hin. set_solver.
Qed.

(** The amended claim on a queue of one URL whose page links to three,
    and on a URL file of two lines to which three discovered URLs are
    passed, one of them a line of the file already and one of them
    tracked. *)
Lemma enqueue_appends_new_sorted_witness :
  (∃ added,
     WikiHow.queue
       (WikiHow.expand (λ _ _, {[ "c"; "b"; "a" ]}) ["a"]
          {| WikiHow.cs := start ∅ ∅ ∅; WikiHow.queue := ["a"];
             WikiHow.seen := {[ "a" ]}; WikiHow.total_downloaded := 0 |})
       = ["a"] ++ added ∧
     StronglySorted String.le added ∧ NoDup added ∧
     ∀ u, u ∈ added →
       u ∉ tracked (start ∅ ∅ ∅) ∧ u ∉ ({[ "a" ]} : gset string) ∧ u ∉ ["a"]) ∧
  (∃ to_add t,
     trace (Independent.update_urls_file (sample_cfg 5 3 10)
              {[ node_1; node_2; node_3 ]}
              (start {[ "u.txt" := Regular (lines_text ["n/0"; node_2]) ]}
                     {[ node_1 ]} ∅)).1 = [] ++ t ∧
     appends "u.txt" t = (λ u, u +:+ nl) <$> to_add ∧
     StronglySorted String.le to_add ∧ NoDup to_add ∧
     ∀ u, u ∈ to_add ↔
          u ∈ ({[ node_1; node_2; node_3 ]} : gset string) ∧
          u ∉ url_lines (universal_newlines (lines_text ["n/0"; node_2]))).
Proof.
  assert (∀ u, u ∈ ["a"] → u ∈ ({[ "a" ]} : gset string)) as Hq by set_solver.
  assert (disk (start {[ "u.txt" := Regular (lines_text ["n/0"; node_2]) ]}
                      {[ node_1 ]} ∅)
            !! Independent.urls_file (sample_cfg 5 3 10)
          = Some (Regular (lines_text ["n/0"; node_2])))
    as Hf by (vm_compute; reflexivity).
  exact (enqueue_appends_new_sorted (λ _ _, {[ "c"; "b"; "a" ]}) ["a"]
           {| WikiHow.cs := start ∅ ∅ ∅; WikiHow.queue := ["a"];
              WikiHow.seen := {[ "a" ]}; WikiHow.total_downloaded := 0 |}
           (sample_cfg 5 3 10) {[ node_1; node_2; node_3 ]}
           (start {[ "u.txt" := Regular (lines_text ["n/0"; node_2]) ]}
                  {[ node_1 ]} ∅)
           (lines_text ["n/0"; node_2]) Hq Hf).
Defined.

(** What the sample appends to the URL file: the tracked URL and the
    new one, sorted; the URL that is a line of the file already is left
    out. *)
Example update_urls_file_sample :
  appends "u.txt"
    (trace (Independent.update_urls_file (sample_cfg 5 3 10)
              {[ node_1; node_2; node_3 ]}
              (start {[ "u.txt" := Regular (lines_text ["n/0"; node_2]) ]}
                     {[ node_1 ]} ∅)).1)
  = [node_1 +:+ nl; node_3 +:+ nl].
Proof. vm_compute. reflexivity. Qed.

Example expand_sample :
  WikiHow.queue
    (WikiHow.expand (λ _ _, {[ "c"; "b"; "a" ]}) ["a"]
       {| WikiHow.cs := start ∅ ∅ ∅; WikiHow.queue := ["a"];
          WikiHow.seen := {[ "a" ]}; WikiHow.total_downloaded := 0 |})
  = ["a"; "b"; "c"].
Proof. vm_compute. reflexivity. Qed.

(** * The checkpoint of bbc-articles.py *)

Section Checkpoint.

Variable now : nat → string.
Variable float_add : BBC.json → BBC.json → string.
Variable float_positive : string → bool.
Variable percent : BBC.json → BBC.json → string.
Variable seconds_between : string → string → option string.

Local Abbreviation update_progress := (BBC.update_progress now float_add).
Local Abbreviation update_progress_body := (BBC.update_progress_body now float_add).
Local Abbreviation finalize_progress :=
  (BBC.finalize_progress now float_add float_positive percent seconds_between).
Local Abbreviation finalize_progress_body :=
  (BBC.finalize_progress_body now float_add float_positive percent seconds_between).
Local Abbreviation with_statistics :=
  (BBC.with_statistics float_add float_positive percent seconds_between).

Lemma caught_bind {A B} (m : res A) (k : A → res B) :
  caught m → (∀ a, caught (k a)) → caught (m ≫= k).
Proof. destruct m; simpl; auto. Qed.

Lemma getitem_caught d k : caught (BBC.getitem d k).
Proof. unfold BBC.getitem. by repeat case_match. Qed.

Lemma setitem_caught d k v : caught (BBC.setitem d k v).
Proof. unfold BBC.setitem. by repeat case_match. Qed.

Lemma append_to_caught d k x : caught (BBC.append_to d k x).
Proof.
  unfold BBC.append_to. apply caught_bind; [apply getitem_caught|].
  intros []; try done. apply setitem_caught.
Qed.

Lemma count_one_caught d c u url : caught (BBC.count_one float_add d c u url).
Proof.
  unfold BBC.count_one. destruct (BBC.given url); [|done].
  apply caught_bind; [apply getitem_caught|]. intros n.
  apply caught_bind; [unfold BBC.add_one; by repeat case_match|]. intros n'.
  apply caught_bind; [apply setitem_caught|]. intros d'. apply append_to_caught.
Qed.


Lemma dump_caught v w : caught (BBC.dump v w).2.
Proof. unfold BBC.dump. by destruct (BBC.writable w). Qed.

Lemma initialize_progress_file_caught logger w :
  caught (BBC.initialize_progress_file now logger w).2.
Proof.
  unfold BBC.initialize_progress_file, BBC.dump. simpl.
  destruct (BBC.writable w) eqn:Hw; simpl; [done|].
  destruct logger; simpl; [|done]. by rewrite Hw.
Qed.

Lemma load_or_reset_caught w : caught (BBC.load_or_reset now w).2.
Proof.
  unfold BBC.load_or_reset, BBC.load.
  destruct (BBC.progress w) as [[| |v]|]; simpl; try done.
  - pose proof (initialize_progress_file_caught true w) as H.
    destruct (BBC.initialize_progress_file now true w) as [w' [|e]]; simpl in *;
      [|done]. by destruct (BBC.progress w') as [[| |?]|].
  - pose proof (initialize_progress_file_caught true w) as H.
    destruct (BBC.initialize_progress_file now true w) as [w' [|e]]; simpl in *;
      [|done]. by destruct (BBC.progress w') as [[| |?]|].
Qed.

Lemma update_progress_body_caught c f w : caught (update_progress_body c f w).2.
Proof.
  unfold BBC.update_progress_body.
  pose proof (load_or_reset_caught w) as H.
  destruct (BBC.load_or_reset now w) as [w' [d|e]]; simpl in *; [|done].
  pose proof (count_one_caught d "completed_articles" "completed_urls" c) as H1.
  destruct (BBC.count_one float_add d "completed_articles" "completed_urls" c)
    as [d1|e]; simpl in *; [|done].
  pose proof (count_one_caught d1 "failed_articles" "failed_urls" f) as H2.
  destruct (BBC.count_one float_add d1 "failed_articles" "failed_urls" f)
    as [d2|e]; simpl in *; [|done].
  pose proof (setitem_caught d2 "last_updated" (BBC.JStr (now (BBC.ticks w')))) as H3.
  destruct (BBC.setitem d2 "last_updated" _) as [d3|e]; simpl in *; [|done].
  apply dump_caught.
Qed.


(** Neither [update_progress] nor [finalize_progress] lets anything
    escape, whatever the progress file holds and whether or not it can
    be written. *)
Lemma update_progress_returns c f w : (update_progress c f w).2 = Ok ().
Proof.
  unfold BBC.update_progress.
  pose proof (update_progress_body_caught c f w) as H.
  destruct (update_progress_body c f w) as [w' [[]|e]]; simpl in *; [done|].
  by rewrite H.
Qed.



End Checkpoint.

(** * The run of bbc-articles.py *)

Section Run.

Variable now : nat → string.
Variable float_add : BBC.json → BBC.json → string.
Variable float_positive : string → bool.
Variable percent : BBC.json → BBC.json → string.
Variable seconds_between : string → string → option string.
Variable scrape_article : string → option BBC.json.
Variable output_path : string → string.
Variable sorted_urls : list string.
Variable interrupted : nat → bool.
Variable futures_threading : bool.

(** C8, on the code as it is: [run_scraper] is defined at module level,
    after the body of the class has ended, so the call
    [scraper.run_scraper(...)] of [main] raises [AttributeError]: no
    batch is ever processed and [finalize_progress] is never entered,
    whether or not an interrupt is under way; the run ends with exit
    code 1, or with the [AttributeError] of the constructor, and the
    trace is left as it was. *)
Theorem interrupt_handler_is_unreachable (count : nat) (resume : bool)
    (batch_size : nat) (w : BBC.world) :
  BBC.trace
    (BBC.main now float_add float_positive percent seconds_between
       scrape_article output_path sorted_urls interrupted BBC.class_methods
       futures_threading count resume batch_size w).1 = BBC.trace w ∧
  ((BBC.main now float_add float_positive percent seconds_between
      scrape_article output_path sorted_urls interrupted BBC.class_methods
      futures_threading count resume batch_size w).2 = Ok 1%Z ∨
   (BBC.main now float_add float_positive percent seconds_between
      scrape_article output_path sorted_urls interrupted BBC.class_methods
      futures_threading count resume batch_size w).2 = Raise AttributeError).
Proof.
  unfold BBC.main, BBC.init, BBC.initialize_progress_file, BBC.dump. simpl.
  destruct (BBC.writable w) eqn:Hw; simpl.
  - destruct futures_threading; simpl; auto.
  - auto.
Qed.

End Run.



(** A run of five URLs in batches of two, were the functions methods,
    interrupted while the second batch is under way: the four URLs of
    the first two batches are scraped, then the checkpoint is finalized
    once, as interrupted. *)
Example interrupted_run_when_bound :
  let w := (BBC.run_scraper sample_iso (λ _ _, "") (λ _, true) (λ _ _, "")
              (λ _ _, Some "0.0") (λ _, Some BBC.JNull) (λ u, u)
              ["a"; "b"; "c"; "d"; "e"] (λ n, bool_decide (n = 2))
              (BBC.class_methods ++ BBC.module_functions) 5 false 2
              no_progress).1 in
  BBC.scraped (BBC.trace w) = ["a"; "b"; "c"; "d"] ∧
  BBC.finalizations (BBC.trace w) = ["interrupted"].
Proof. split; vm_compute; reflexivity. Qed.

(** * More facts about Python text *)

Lemma no_cr_universal_newlines s : no_cr (universal_newlines s) = true.
Proof.
  induction s as [|c|c a s IH1 IH2] using string_pair_ind.
  - done.
  - simpl. destruct (Ascii.eqb c CR) eqn:E; simpl; [done|]. by rewrite E.
  - cbn [universal_newlines].
    destruct (Ascii.eqb c CR) eqn:E; [destruct (Ascii.eqb a LF)|].
    + simpl. done.
    + change (no_cr (String LF (universal_newlines (String a s))) = true).
      cbn [no_cr]. by rewrite IH2.
    + change (no_cr (String c (universal_newlines (String a s))) = true).
      cbn [no_cr]. by rewrite E, IH2.
Qed.

(** A line of a text without carriage returns: a body without line
    breaks, and the line feed that ended it, if one did. *)
Lemma readlines_shape t :
  no_cr t = true →
  Forall (λ l, ∃ body, no_linebreak body = true ∧ (l = body +:+ nl ∨ l = body))
         (readlines t).
Proof.
  induction t as [|c t IH]; simpl; [constructor|].
  intros [Hc Ht]%andb_prop. specialize (IH Ht).
  destruct (Ascii.eqb c LF) eqn:E.
  { constructor; [|done]. exists "". split; [done|by left]. }
  destruct IH as [|l ls (body & Hb & Hl) Hls].
  - constructor; [|constructor]. exists (String c ""). split; [|by right].
    simpl. by rewrite E, Hc.
  - constructor; [|done]. exists (String c body). split.
    + simpl. by rewrite E, Hc, Hb.
    + destruct Hl as [-> | ->]; [by left|by right].
Qed.

Lemma lstrip_app b t : blank b = false → lstrip (b +:+ t) = lstrip b +:+ t.
Proof.
  induction b as [|c b IH]; [done|].
  rewrite app_String. cbn [blank lstrip].
  destruct (isspace c); simpl; [exact IH|done].
Qed.

Lemma blank_app a b : blank (a +:+ b) = blank a && blank b.
Proof.
  induction a as [|c a IH]; [done|]. rewrite app_String. simpl.
  by rewrite IH, andb_assoc.
Qed.

Lemma strip_body body : strip (body +:+ nl) = strip body.
Proof.
  unfold strip. destruct (blank body) eqn:Hb.
  - rewrite (lstrip_blank body) by done.
    rewrite lstrip_blank; [done|]. by rewrite blank_app, Hb.
  - rewrite lstrip_app by done. by rewrite rstrip_app_blank.
Qed.

Lemma no_linebreak_lstrip s : no_linebreak s = true → no_linebreak (lstrip s) = true.
Proof.
  induction s as [|c s IH]; simpl; [done|].
  intros H. pose proof H as [_ Hs]%andb_prop.
  destruct (isspace c); [auto|done].
Qed.

Lemma no_linebreak_rstrip s : no_linebreak s = true → no_linebreak (rstrip s) = true.
Proof.
  induction s as [|c s IH]; simpl; [done|].
  intros [Hc Hs]%andb_prop. specialize (IH Hs).
  destruct (rstrip s) eqn:E.
  - destruct (isspace c); [done|]. simpl. by rewrite Hc.
  - simpl in *. by rewrite Hc, IH.
Qed.

(** What [lstrip] leaves is empty or starts with no white space. *)
Lemma lstrip_head s :
  lstrip s = "" ∨ ∃ c s', lstrip s = String c s' ∧ isspace c = false.
Proof.
  induction s as [|c s IH]; simpl; [by left|].
  destruct (isspace c) eqn:E; [done|]. right. by exists c, s.
Qed.

Lemma rstrip_idem s : rstrip (rstrip s) = rstrip s.
Proof.
  induction s as [|c s IH]; simpl; [done|].
  destruct (rstrip s) as [|a r] eqn:E.
  - destruct (isspace c) eqn:Ec; [done|]. simpl. by rewrite Ec.
  - cbn [rstrip]. cbn [rstrip] in IH. rewrite IH. done.
Qed.

Lemma strip_idem s : strip (strip s) = strip s.
Proof.
  unfold strip. destruct (lstrip_head s) as [->|(c & s' & -> & Hc)]; [done|].
  assert (∃ r, rstrip (String c s') = String c r) as [r Hr].
  { simpl. destruct (rstrip s'); [rewrite Hc|]; by eexists. }
  rewrite Hr. cbn [lstrip]. rewrite Hc. rewrite <-Hr. apply rstrip_idem.
Qed.

(** A stripped line of a text file is empty or a one-line string. *)
Lemma stripped_line_one_line s l :
  l ∈ readlines (universal_newlines s) → strip l ≠ "" →
  one_line (strip l) = true.
Proof.
  intros Hl Hne.
  pose proof (readlines_shape _ (no_cr_universal_newlines s)) as H.
  destruct (proj1 (Forall_forall _ _) H l Hl) as (body & Hb & Hlb).
  assert (strip l = strip body) as E
    by (destruct Hlb as [-> | ->]; [apply strip_body|done]).
  rewrite E in *. unfold one_line.
  rewrite strip_idem, String.eqb_refl.
  rewrite (proj2 (String.eqb_neq _ _) Hne). simpl.
  unfold strip. by apply no_linebreak_rstrip, no_linebreak_lstrip.
Qed.

Lemma url_lines_are_one_line s :
  Forall (λ u, one_line u = true) (url_lines (universal_newlines s)).
Proof.
  apply Forall_forall. intros u. unfold url_lines.
  intros [Hne (l & -> & Hl)%list_elem_of_fmap]%list_elem_of_filter.
  by eapply stripped_line_one_line.
Qed.

Lemma candidates_one_line d filename urls :
  Independent.load_candidate_urls d filename = Ok urls →
  Forall (λ u, one_line u = true) urls.
Proof.
  unfold Independent.load_candidate_urls, Independent.load_candidate_urls_body,
    read_text.
  destruct (d !! filename) as [[text| |]|]; simpl; intros [= <-];
    try by constructor.
  destruct (dedup_lines_spec (readlines (universal_newlines text)) [] ∅)
    as (urls & -> & _ & Hin & _); [done|constructor|by intros ? ?%elem_of_nil|].
  simpl. apply Forall_forall. intros u Hu.
  destruct (Hin u Hu) as [Hne (l & -> & Hl)%list_elem_of_fmap].
  by eapply stripped_line_one_line.
Qed.

(** X1: whatever the file holds, the URLs the two loaders of
    [independent.py] return are non-empty single lines without white
    space at either end: written back one per line they read back as
    themselves. *)
Theorem loaded_urls_are_single_lines (d : fs) (filename : string) :
  (∃ urls, Independent.load_candidate_urls d filename = Ok urls ∧
           Forall (λ u, one_line u = true) urls) ∧
  (∃ s, Independent.load_tracked_urls d filename = Ok s ∧
        ∀ u, u ∈ s → one_line u = true).
Proof.
  split.
  - destruct (Independent.load_candidate_urls d filename) as [urls|e] eqn:E.
    + exists urls. split; [done|]. by eapply candidates_one_line.
    + exfalso. revert E. unfold Independent.load_candidate_urls,
        Independent.load_candidate_urls_body, read_text.
      by destruct (d !! filename) as [[text| |]|].
  - unfold Independent.load_tracked_urls, Independent.load_tracked_urls_body,
      read_text.
    destruct (d !! filename) as [[text| |]|]; simpl;
      try (exists ∅; split; [done|]; by intros u ?%elem_of_empty).
    eexists. split; [done|]. intros u Hu%elem_of_list_to_set.
    by apply (proj1 (Forall_forall _ _) (url_lines_are_one_line text)).
Qed.

(** * The batches and the cap of independent.py *)

Lemma spaced_range k n :
  0 < k → spaced k n ((λ j, j * k) <$> seq 0 ((n + k - 1) / k)).
Proof.
  intros Hk.
  assert (∀ j, j < (n + k - 1) / k → j * k + k ≤ n + k - 1) as Hj.
  { intros j Hj. pose proof (Nat.Div0.mul_div_le (n + k - 1) k) as Hd.
    revert Hj Hd. generalize ((n + k - 1) / k). intros m Hj Hd.
    assert (S j * k ≤ k * m) as Hm.
    { rewrite (Nat.mul_comm k m). apply Nat.mul_le_mono_r. lia. }
    simpl in Hm. lia. }
  assert (∀ m a, (∀ j, j < a + m → j * k + k ≤ n + k - 1) →
            spaced k n ((λ j, j * k) <$> seq a m)) as H.
  { induction m as [|m IH]; intros a Ha; simpl; [done|].
    split.
    - destruct m as [|m]; simpl.
      + specialize (Ha a). lia.
      + specialize (Ha (S a)). simpl in Ha. lia.
    - apply IH. intros j ?. apply Ha. lia. }
  apply H. intros j ?. apply Hj. lia.
Qed.

Lemma load_tracked_urls_ext d d' f :
  d' !! f = d !! f →
  Independent.load_tracked_urls d' f = Independent.load_tracked_urls d f.
Proof.
  unfold Independent.load_tracked_urls, Independent.load_tracked_urls_body,
    read_text. by intros ->.
Qed.


Lemma log_matches_load log st :
  log_matches log st → Independent.load_tracked_urls (disk st) log = Ok (tracked st).
Proof.
  unfold log_matches. destruct (disk st !! log) as [[text| |]|] eqn:E; try done.
  - intros [_ ->]. by apply load_tracked_urls_regular.
  - intros ->. by apply load_tracked_urls_missing.
Qed.

Lemma log_matches_same log st st' :
  disk st' !! log = disk st !! log → tracked st' = tracked st →
  log_matches log st → log_matches log st'.
Proof. unfold log_matches. by intros -> ->. Qed.

Lemma log_matches_add log url st :
  one_line url = true → log_matches log st →
  log_matches log
    (with_tracked ({[url]} ∪ tracked (Independent.add_to_tracked url log st))
                  (Independent.add_to_tracked url log st)).
Proof.
  intros Hu. unfold log_matches, Independent.add_to_tracked, append_text.
  destruct (disk st !! log) as [[text| |]|] eqn:E; try done; simpl.
  - intros [Hc Ht]. rewrite lookup_insert_eq.
    destruct (url_lines_append text url Hc Hu) as [E1 E2].
    rewrite E2, E1, Ht. split.
    + rewrite <-string_app_assoc. apply complete_app_nl.
    + rewrite list_to_set_app_L. simpl. set_solver.
  - intros Ht. rewrite lookup_insert_eq.
    destruct (url_lines_append "" url eq_refl Hu) as [E1 E2].
    rewrite !app_empty_l in E1, E2. change (universal_newlines "") with "" in *.
    rewrite app_empty_l in E1. rewrite E2, E1, Ht. split.
    + apply complete_app_nl.
    + simpl. set_solver.
Qed.

Lemma open_w_other d p d' q : open_w d p = Ok d' → p ≠ q → d' !! q = d !! q.
Proof.
  unfold open_w. intros H Hpq.
  destruct (d !! p) as [[]|]; simplify_eq; by rewrite lookup_insert_ne.
Qed.

Lemma append_text_other d p t d' q :
  append_text d p t = Ok d' → p ≠ q → d' !! q = d !! q.
Proof.
  unfold append_text. intros H Hpq.
  destruct (d !! p) as [[]|]; simplify_eq; by rewrite ?lookup_insert_ne.
Qed.

Section IndependentCap.

Variable now : nat → string.
Variable arun : nat → string → response.
Variable is_valid_article : string → bool.
Variable str : exn → string.
Variable cached_links : string → gset string.
Variable cfg : Independent.config.

Local Abbreviation log := (Independent.track_file cfg).
Local Abbreviation attempts := (Independent.attempts now arun is_valid_article str cfg).
Local Abbreviation download_article :=
  (Independent.download_article now arun is_valid_article str cfg).
Local Abbreviation gather := (Independent.gather now arun is_valid_article str cfg).
Local Abbreviation batch_loop :=
  (Independent.batch_loop now arun is_valid_article str cfg).
Local Abbreviation process_batch :=
  (Independent.process_batch now arun is_valid_article str cfg).

Hypothesis log_is_not_error_file : Independent.error_file cfg ≠ log.
Hypothesis log_is_not_urls_file : Independent.urls_file cfg ≠ log.

Lemma mark_failed_keeps_log url reason st :
  log_matches log st →
  log_matches log (Independent.mark_failed now cfg url reason st).1.
Proof.
  intros H. unfold Independent.mark_failed, Independent.add_to_failed. simpl.
  destruct (append_text _ _ _) as [d|e] eqn:E; simpl.
  - apply (log_matches_same log st); [|done|exact H]. simpl.
    by eapply append_text_other.
  - by apply (log_matches_same log st).
Qed.

Lemma attempts_keeps_log url aid outfile n :
  one_line url = true → outfile ≠ log →
  ∀ attempt st, log_matches log st →
    log_matches log (attempts n attempt url aid outfile st).1.
Proof.
  intros Hu Ho. induction n as [|n IH]; intros attempt st H; [done|].
  cbn [Independent.attempts].
  assert (∀ st1 a, disk st1 !! log = disk st !! log → tracked st1 = tracked st →
            log_matches log (attempts n a url aid outfile st1).1) as Hnext.
  { intros st1 a Hd Ht. apply IH. by apply (log_matches_same log st). }
  assert (∀ st1 reason, disk st1 !! log = disk st !! log →
            tracked st1 = tracked st →
            log_matches log (Independent.mark_failed now cfg url reason st1).1)
    as Hfail.
  { intros st1 reason Hd Ht. apply mark_failed_keeps_log.
    by apply (log_matches_same log st). }
  destruct (arun (calls st) url) as [p|reason].
  2:{ destruct (_ <? _)%Z; [by apply Hnext|by apply Hfail]. }
  destruct (negb _).
  { destruct (_ <? _)%Z; [by apply Hnext|by apply Hfail]. }
  destruct (open_w _ _) as [d|e] eqn:Eo.
  2:{ destruct (_ <? _)%Z; [by apply Hnext|by apply Hfail]. }
  pose proof (open_w_other _ _ _ log Eo Ho) as Hd. simpl in Hd.
  destruct (markdown p) as [md|].
  2:{ destruct (_ <? _)%Z; [by apply Hnext|by apply Hfail]. }
  cbn [fst]. apply log_matches_add; [done|].
  apply (log_matches_same log st); [|done|exact H]. simpl.
  by rewrite lookup_insert_ne.
Qed.

Lemma download_article_keeps_log url st :
  loggable cfg url → log_matches log st →
  log_matches log (download_article url st).1.
Proof.
  intros [Hu Ho] H. unfold Independent.download_article.
  destruct (bool_decide _); [done|].
  destruct (exists_path _ _); cbn [fst].
  - by apply log_matches_add.
  - apply attempts_keeps_log; [done|done|]. by apply (log_matches_same log st).
Qed.

(** The worker tracks at most its own URL. *)
Lemma download_article_tracks_own url st :
  tracked (download_article url st).1 ⊆ {[url]} ∪ tracked st.
Proof using Type.
  clear log_is_not_error_file log_is_not_urls_file cached_links.
  destruct (download_article url st) as [st' [ok pg]] eqn:H. simpl.
  apply download_article_cases in H
    as [(_ & -> & _)|[(_ & _ & _ & -> & _)|(_ & _ & t & _ & _ & _ & H)]].
  - set_solver.
  - done.
  - destruct ok; [destruct H as (_ & -> & _)|destruct H as (_ & ->)]; set_solver.
Qed.

(** With a crawler that always answers, one attempt is enough. *)
Lemma download_article_succeeds url st :
  all_up arun is_valid_article → (1 ≤ Independent.retry_count cfg)%Z →
  url ∈ tracked (download_article url st).1 ∧
  failed (download_article url st).1 = failed st.
Proof.
  intros Hup Hrc. unfold Independent.download_article.
  destruct (bool_decide _) eqn:Ht.
  { apply bool_decide_eq_true in Ht. by split. }
  destruct (exists_path _ _) eqn:Hx; cbn [fst].
  { split; [simpl; set_solver|].
    destruct (add_to_tracked_trace url log st) as (_ & Hf & _). exact Hf. }
  destruct (Z.to_nat (Independent.retry_count cfg)) as [|n] eqn:Hn; [lia|].
  cbn [Independent.attempts].
  destruct (Hup (calls (emit Pause st)) url) as (p & md & -> & -> & ->).
  cbn [negb]. unfold open_w. simpl.
  unfold exists_path in Hx. apply bool_decide_eq_false in Hx.
  destruct (disk st !! _) as [nd|] eqn:Hd; [exfalso; apply Hx; by eexists|].
  cbn [fst]. split; [simpl; set_solver|].
  match goal with |- context [Independent.add_to_tracked url ?f ?s] =>
    destruct (add_to_tracked_trace url f s) as (_ & Hf & _); exact Hf end.
Qed.

Lemma gather_keeps tasks : ∀ st,
  Forall (loggable cfg) tasks → log_matches log st →
  log_matches log (gather tasks st).
Proof.
  unfold Independent.gather.
  induction tasks as [|url tasks IH]; intros st Hl H; simpl; [done|].
  apply Forall_cons in Hl as [Hu Hl].
  apply IH; [done|]. by apply download_article_keeps_log.
Qed.

Lemma gather_tracks tasks : ∀ st,
  tracked (gather tasks st) ⊆ list_to_set tasks ∪ tracked st.
Proof using Type.
  clear log_is_not_error_file log_is_not_urls_file cached_links.
  unfold Independent.gather.
  induction tasks as [|url tasks IH]; intros st; simpl.
  { clear. set_solver. }
  pose proof (download_article_tracks_own url st) as H2.
  pose proof (IH (download_article url st).1) as H3.
  revert H2 H3. generalize (tracked (download_article url st).1).
  generalize (tracked (foldl (λ st url, (download_article url st).1)
                             (download_article url st).1 tasks)).
  clear. set_solver.
Qed.

Lemma gather_succeeds tasks : ∀ st,
  all_up arun is_valid_article → (1 ≤ Independent.retry_count cfg)%Z →
  (∀ u, u ∈ tasks → u ∈ tracked (gather tasks st)) ∧
  failed (gather tasks st) = failed st.
Proof.
  intros st Hup Hrc. revert st.
  induction tasks as [|url tasks IH]; intros st.
  { split; [by intros u ?%elem_of_nil|done]. }
  destruct (download_article_succeeds url st Hup Hrc) as [S1 S2].
  destruct (IH (download_article url st).1) as [I1 I2].
  destruct (gather_trace now arun is_valid_article str cfg tasks
              (download_article url st).1) as (_ & _ & K & _).
  change (gather (url :: tasks) st) with (gather tasks (download_article url st).1).
  split; [|by rewrite I2].
  intros u [->|Hin]%elem_of_cons; [by apply K|by apply I1].
Qed.

Lemma batch_loop_keeps urls : ∀ tasks st,
  Forall (loggable cfg) urls → Forall (loggable cfg) tasks →
  log_matches log st →
  log_matches log (batch_loop urls tasks st).
Proof.
  induction urls as [|url urls IH]; intros tasks st Hl Ht H; simpl.
  - destruct tasks as [|a tasks]; [done|]. by apply gather_keeps.
  - apply Forall_cons in Hl as [Hu Hl].
    destruct (_ || _); [by apply IH|].
    assert (Forall (loggable cfg) (tasks ++ [url])) as Ht'
      by (apply Forall_app; split; [done|by constructor]).
    destruct (_ >=? _)%Z.
    + apply IH; [done|constructor|]. by apply gather_keeps.
    + by apply IH.
Qed.

Lemma batch_loop_tracks urls : ∀ tasks st,
  tracked (batch_loop urls tasks st)
    ⊆ list_to_set urls ∪ list_to_set tasks ∪ tracked st.
Proof using Type.
  clear log_is_not_error_file log_is_not_urls_file cached_links.
  induction urls as [|url urls IH]; intros tasks st; simpl.
  - destruct tasks as [|a tasks]; [clear; set_solver|].
    pose proof (gather_tracks (a :: tasks) st) as G. revert G.
    generalize (tracked (gather (a :: tasks) st)).
    generalize (list_to_set (C:=gset string) (a :: tasks)). clear. set_solver.
  - destruct (_ || _).
    { pose proof (IH tasks st) as I. revert I.
      generalize (tracked (batch_loop urls tasks st)). clear. set_solver. }
    destruct (_ >=? _)%Z.
    + pose proof (gather_tracks (tasks ++ [url]) st) as G.
      pose proof (IH [] (gather (tasks ++ [url]) st)) as I.
      rewrite list_to_set_app_L in G. revert G I.
      generalize (tracked (batch_loop urls [] (gather (tasks ++ [url]) st))).
      generalize (tracked (gather (tasks ++ [url]) st)).
      clear. set_solver.
    + pose proof (IH (tasks ++ [url]) st) as I.
      rewrite list_to_set_app_L in I. revert I.
      generalize (tracked (batch_loop urls (tasks ++ [url]) st)).
      clear. set_solver.
Qed.

Lemma batch_loop_succeeds urls : ∀ tasks st,
  all_up arun is_valid_article → (1 ≤ Independent.retry_count cfg)%Z →
  failed st = ∅ →
  (∀ u, u ∈ urls ∨ u ∈ tasks → u ∈ tracked (batch_loop urls tasks st)) ∧
  failed (batch_loop urls tasks st) = ∅.
Proof.
  intros tasks st Hup Hrc. revert tasks st.
  induction urls as [|url urls IH]; intros tasks st Hf; simpl.
  - destruct tasks as [|a tasks].
    + split; [|done]. intros u [?%elem_of_nil|?%elem_of_nil]; done.
    + destruct (gather_succeeds (a :: tasks) st Hup Hrc) as [G5 G6].
      split; [|by rewrite G6]. intros u [?%elem_of_nil|?]; [done|by apply G5].
  - destruct (bool_decide (url ∈ tracked st) || bool_decide (url ∈ failed st))
      eqn:Hskip.
    { destruct (IH tasks st Hf) as [I5 I6]. split; [|done].
      destruct (batch_loop_trace now arun is_valid_article str cfg urls tasks st)
        as (_ & _ & K & _).
      intros u [[->|?]%elem_of_cons|?]; [|apply I5; auto..].
      apply orb_prop in Hskip as [Hs|Hs]; apply bool_decide_eq_true in Hs.
      - by apply K.
      - rewrite Hf in Hs. by apply elem_of_empty in Hs. }
    destruct (_ >=? _)%Z.
    + destruct (gather_succeeds (tasks ++ [url]) st Hup Hrc) as [G5 G6].
      rewrite Hf in G6.
      destruct (IH [] (gather (tasks ++ [url]) st) G6) as [I5 I6].
      destruct (batch_loop_trace now arun is_valid_article str cfg urls []
                  (gather (tasks ++ [url]) st)) as (_ & _ & K & _).
      split; [|done].
      intros u [[->|?]%elem_of_cons|?]; [| apply I5; auto |].
      * apply K, G5, elem_of_app. right. by left.
      * apply K, G5, elem_of_app. by left.
    + destruct (IH (tasks ++ [url]) st Hf) as [I5 I6]. split; [|done].
      intros u [[->|?]%elem_of_cons|?]; apply I5; auto.
      * right. apply elem_of_app. right. by left.
      * right. apply elem_of_app. by left.
Qed.

Lemma size_list_to_set_le (l : list string) :
  size (list_to_set l : gset string) ≤ length l.
Proof.
  induction l as [|x l IH].
  { rewrite list_to_set_nil, size_empty. simpl. lia. }
  rewrite list_to_set_cons. cbn [length].
  rewrite size_union_alt, size_singleton.
  assert ((list_to_set l ∖ {[x]} : gset string) ⊆ list_to_set l) as Hs
    by (clear; set_solver).
  apply subseteq_size in Hs. lia.
Qed.

Lemma size_union_le (X Y : gset string) : size (X ∪ Y) ≤ size X + size Y.
Proof.
  rewrite size_union_alt.
  assert (Y ∖ X ⊆ Y) as Hs by (clear; set_solver).
  apply subseteq_size in Hs. lia.
Qed.


Local Abbreviation discover := (Independent.discover cached_links).
Local Abbreviation round :=
  (Independent.round now arun is_valid_article str cached_links cfg).
Local Abbreviation rounds :=
  (Independent.rounds now arun is_valid_article str cached_links cfg).

(** The look-ups after a batch touch neither the disk nor the sets. *)
Lemma discover_quiet batch st :
  disk (discover batch st).1 = disk st ∧
  tracked (discover batch st).1 = tracked st ∧
  failed (discover batch st).1 = failed st ∧
  ∃ t, trace (discover batch st).1 = trace st ++ t ∧ fetches t = [].
Proof.
  unfold Independent.discover.
  assert (∀ acc : state * gset string,
            let r := foldl (λ acc url,
                       if bool_decide (url ∈ tracked acc.1 ∧ url ∉ failed acc.1)
                       then (emit (Lookup url) acc.1, acc.2 ∪ cached_links url)
                       else acc) acc batch in
            disk r.1 = disk acc.1 ∧ tracked r.1 = tracked acc.1 ∧
            failed r.1 = failed acc.1 ∧
            ∃ t, trace r.1 = trace acc.1 ++ t ∧ fetches t = []) as H.
  { induction batch as [|url batch IH]; intros acc; simpl.
    { split_and!; [done..|]. exists []. by rewrite app_nil_r. }
    destruct (bool_decide _); [|apply IH].
    destruct (IH (emit (Lookup url) acc.1, acc.2 ∪ cached_links url))
      as (Hd & Ht & Hf & t & E & F).
    split_and!; [done..|]. exists (Lookup url :: t). simpl in E.
    rewrite E, <-app_assoc. by split. }
  apply (H (st, ∅)).
Qed.

Lemma update_urls_file_quiet new_urls st :
  (∀ q, q ≠ Independent.urls_file cfg →
        disk (Independent.update_urls_file cfg new_urls st).1 !! q = disk st !! q) ∧
  tracked (Independent.update_urls_file cfg new_urls st).1 = tracked st ∧
  failed (Independent.update_urls_file cfg new_urls st).1 = failed st ∧
  ∃ t, trace (Independent.update_urls_file cfg new_urls st).1 = trace st ++ t ∧
       fetches t = [].
Proof.
  assert (∀ (ls : list string) s0,
            let r := foldl (λ st line, emit (Appended (Independent.urls_file cfg) line) st) s0 ls in
            disk r = disk s0 ∧ tracked r = tracked s0 ∧ failed r = failed s0 ∧
            ∃ t, trace r = trace s0 ++ t ∧ fetches t = []) as H.
  { induction ls as [|l ls IH]; intros s0; simpl.
    { split_and!; [done..|]. exists []. by rewrite app_nil_r. }
    destruct (IH (emit (Appended (Independent.urls_file cfg) l) s0))
      as (Hd & Ht & Hf & t & E & F).
    split_and!; [done..|]. exists (Appended (Independent.urls_file cfg) l :: t).
    simpl in E. rewrite E, <-app_assoc. by split. }
  assert (∃ t, trace st = trace st ++ t ∧ fetches t = []) as Hnil
    by (exists []; by rewrite app_nil_r).
  unfold Independent.update_urls_file.
  destruct (Independent.load_tracked_urls _ _) as [existing|e]; [|done].
  destruct (bool_decide _); [done|].
  destruct (append_text _ _ _) as [d|e] eqn:E; [|done]. cbn [fst].
  match goal with |- context [foldl ?f ?s0 ?ls] =>
    destruct (H ls s0) as (Hd & Ht & Hf & t & Et & F) end.
  split_and!; [|done|done|by exists t].
  intros q Hq. rewrite Hd. simpl. by eapply append_text_other.
Qed.

Lemma load_candidate_urls_returns d f :
  ∃ l, Independent.load_candidate_urls d f = Ok l.
Proof.
  unfold Independent.load_candidate_urls, Independent.load_candidate_urls_body,
    read_text.
  destruct (d !! f) as [[]|]; simpl; eauto.
Qed.

Lemma load_tracked_urls_returns d f :
  ∃ s, Independent.load_tracked_urls d f = Ok s.
Proof.
  unfold Independent.load_tracked_urls, Independent.load_tracked_urls_body,
    read_text.
  destruct (d !! f) as [[]|]; simpl; eauto.
Qed.

(** One round of the loop of [main]: it returns; it fetches only URLs
    of its batch; the count it leaves is the size of the set the batch
    left; the candidates change only in a round that reaches the end of
    the list. *)
Lemma round_spec i r :
  let bs := Z.to_nat (Independent.batch_size cfg) in
  let batch := take bs (drop i (Independent.candidates r)) in
  let s1 := (process_batch batch (Independent.st r)).1 in
  ∃ r', round i r = Ok r' ∧
    Independent.count r' = size (tracked s1) ∧
    failed (Independent.st r') = failed s1 ∧
    (∀ q, q ≠ Independent.urls_file cfg →
          disk (Independent.st r') !! q = disk s1 !! q) ∧
    Independent.load_tracked_urls (disk (Independent.st r')) log
      = Ok (tracked (Independent.st r')) ∧
    (∃ t, trace (Independent.st r') = trace s1 ++ t ∧ fetches t = []) ∧
    (i + bs < length (Independent.candidates r) →
     Independent.candidates r' = Independent.candidates r).
Proof.
  intros bs batch s1. unfold Independent.round. fold bs. fold batch.
  unfold Independent.process_batch. fold (process_batch batch (Independent.st r)).
  change (batch_loop batch [] (Independent.st r)) with s1.
  destruct (discover_quiet batch s1) as (Dd & Dt & Df & t1 & E1 & F1).
  destruct (discover batch s1) as [s2 new_links]. simpl in Dd, Dt, Df, E1.
  destruct (bool_decide (new_links = ∅)).
  { simpl. destruct (load_tracked_urls_returns (disk s2) log) as [re Hre].
    rewrite Hre. simpl. eexists. split; [reflexivity|]. simpl.
    split_and!; [done|done| |done| |done].
    - intros q _. by rewrite Dd.
    - exists t1. by split. }
  destruct (update_urls_file_quiet new_links s2) as (Ud & Ut & Uf & t2 & E2 & F2).
  destruct (Independent.update_urls_file cfg new_links s2) as [s3 added].
  simpl in Ud, Ut, Uf, E2.
  assert (∃ t, trace s3 = trace s1 ++ t ∧ fetches t = []) as Htr.
  { exists (t1 ++ t2). rewrite E2, E1, <-app_assoc. split; [done|].
    by rewrite fetches_app, F1, F2. }
  assert (∀ q, q ≠ Independent.urls_file cfg → disk s3 !! q = disk s1 !! q) as Hd.
  { intros q Hq. by rewrite Ud, Dd. }
  destruct (load_tracked_urls_returns (disk s3) log) as [re Hre].
  destruct (bool_decide (0 < added) && _) eqn:Hlow.
  - destruct (load_candidate_urls_returns (disk s3) (Independent.urls_file cfg))
      as [nc Hnc].
    rewrite Hnc. simpl. rewrite Hre. simpl. eexists. split; [reflexivity|]. simpl.
    split_and!; [done|congruence|done|done|done|].
    apply andb_prop in Hlow as [_ Hlow]. apply bool_decide_eq_true in Hlow.
    intros ?. lia.
  - simpl. rewrite Hre. simpl. eexists. split; [reflexivity|]. simpl.
    split_and!; [done|congruence|done|done|done|done].
Qed.


Lemma batch_in_candidates i bs (l : list string) u :
  u ∈ take bs (drop i l) → u ∈ l.
Proof.
  intros Hu. apply (subseteq_drop i l), (subseteq_take bs (drop i l)), Hu.
Qed.



(** One round under the invariant of the loop: the log holds the
    tracked set, and the count is its size. *)
Lemma round_keeps i r :
  let bs := Z.to_nat (Independent.batch_size cfg) in
  Forall (loggable cfg) (Independent.candidates r) →
  log_matches log (Independent.st r) →
  Independent.count r = size (tracked (Independent.st r)) →
  ∃ r', round i r = Ok r' ∧
    log_matches log (Independent.st r') ∧
    Independent.count r' = size (tracked (Independent.st r')) ∧
    tracked (Independent.st r) ⊆ tracked (Independent.st r') ∧
    Independent.count r' ≤ Independent.count r + bs ∧
    (i + bs < length (Independent.candidates r) →
     Independent.candidates r' = Independent.candidates r) ∧
    (all_up arun is_valid_article → (1 ≤ Independent.retry_count cfg)%Z →
     failed (Independent.st r) = ∅ →
     failed (Independent.st r') = ∅ ∧
     ∀ u, u ∈ take bs (drop i (Independent.candidates r)) →
          u ∈ tracked (Independent.st r')).
Proof.
  intros bs Hl Hlog Hcount.
  set (batch := take bs (drop i (Independent.candidates r))).
  assert (Forall (loggable cfg) batch) as Hb.
  { apply Forall_forall. intros u Hu.
    apply (proj1 (Forall_forall _ _) Hl). by eapply batch_in_candidates. }
  destruct (round_spec i r) as (r' & Hr & Hc & Hf & Hd & Hre & _ & Hcand).
  fold bs in Hc, Hf, Hd, Hcand. fold batch in Hc, Hf, Hd.
  unfold Independent.process_batch in Hc, Hf, Hd. cbn [fst] in Hc, Hf, Hd.
  pose proof (batch_loop_keeps batch [] (Independent.st r) Hb (Forall_nil_2 _) Hlog)
    as Hlog1.
  pose proof (batch_loop_tracks batch [] (Independent.st r)) as Hsub.
  destruct (batch_loop_trace now arun is_valid_article str cfg batch []
              (Independent.st r)) as (_ & _ & Hmono & _ & _).
  set (s1 := batch_loop batch [] (Independent.st r)) in *.
  assert (tracked (Independent.st r') = tracked s1) as Ht.
  { rewrite (load_tracked_urls_ext (disk s1)) in Hre
      by (apply Hd; by apply not_eq_sym).
    rewrite (log_matches_load _ _ Hlog1) in Hre. by injection Hre. }
  exists r'. split_and!; [done| |congruence|by rewrite Ht| |done|].
  - apply (log_matches_same log s1); [|done|done].
    apply Hd. by apply not_eq_sym.
  - rewrite Hc, Hcount. etrans; [apply (subseteq_size _ _ Hsub)|].
    rewrite list_to_set_nil, (right_id_L ∅ (∪)).
    etrans; [apply size_union_le|].
    pose proof (size_list_to_set_le batch).
    assert (length batch ≤ bs) by (unfold batch; rewrite length_take; lia).
    lia.
  - intros Hup Hrc Hf0.
    destruct (batch_loop_succeeds batch [] (Independent.st r) Hup Hrc Hf0)
      as [S1 S2].
    split; [by rewrite Hf|]. intros u Hu. rewrite Ht. apply S1. by left.
Qed.

(** The rounds under the invariant: the count passes the cap by less
    than a batch; a run that starts at the cap does nothing; and with a
    crawler that always answers the rounds end at the cap or with the
    URLs of all their batches tracked. *)
Lemma rounds_keep starts : ∀ r,
  let bs := Z.to_nat (Independent.batch_size cfg) in
  spaced bs (length (Independent.candidates r)) starts →
  Forall (loggable cfg) (Independent.candidates r) →
  log_matches log (Independent.st r) →
  Independent.count r = size (tracked (Independent.st r)) →
  ∃ r', rounds starts r = Ok r' ∧
    Independent.count r' = size (tracked (Independent.st r')) ∧
    tracked (Independent.st r) ⊆ tracked (Independent.st r') ∧
    ((Z.of_nat (Independent.count r)
        < Independent.max_downloads cfg + Z.of_nat bs)%Z →
     (Z.of_nat (Independent.count r')
        < Independent.max_downloads cfg + Z.of_nat bs)%Z) ∧
    ((Independent.max_downloads cfg ≤ Z.of_nat (Independent.count r))%Z →
     r' = r) ∧
    (all_up arun is_valid_article → (1 ≤ Independent.retry_count cfg)%Z →
     failed (Independent.st r) = ∅ →
     (Independent.max_downloads cfg ≤ Z.of_nat (Independent.count r'))%Z ∨
     ∀ i u, i ∈ starts → u ∈ take bs (drop i (Independent.candidates r)) →
            u ∈ tracked (Independent.st r')).
Proof.
  induction starts as [|i rest IH]; intros r bs Hsp Hl Hlog Hcount.
  { exists r. split_and!; [done..|]. intros _ _ _. right.
    by intros i u ?%elem_of_nil. }
  cbn [Independent.rounds].
  destruct (Z.geb_spec (Z.of_nat (Independent.count r))
              (Independent.max_downloads cfg)) as [Hcap|Hcap].
  { exists r. split_and!; [done..|]. intros _ _ _. left. lia. }
  destruct (round_keeps i r Hl Hlog Hcount)
    as (r1 & -> & Hlog1 & Hcount1 & Hmono1 & Hle1 & Hc1 & Hs1).
  fold bs in Hle1, Hc1, Hs1. simpl. destruct Hsp as [Hi Hsp].
  destruct rest as [|i' rest].
  { exists r1. split_and!; [done|done|done|lia|lia|].
    intros Hup Hrc Hf. right. destruct (Hs1 Hup Hrc Hf) as [_ Hin].
    intros j u ->%list_elem_of_singleton. apply Hin. }
  specialize (Hc1 Hi).
  destruct (IH r1) as (r' & Hr & Hcount' & Hmono' & Hup' & _ & Hs');
    [by rewrite Hc1|by rewrite Hc1|done|done|].
  exists r'. split_and!; [done|done|by etrans| |lia|].
  - intros _. apply Hup'. lia.
  - intros Hup Hrc Hf. destruct (Hs1 Hup Hrc Hf) as [Hf1 Hin].
    destruct (Hs' Hup Hrc Hf1) as [?|Hall]; [by left|]. right.
    intros j u [->|Hj]%elem_of_cons Hu.
    + by apply Hmono', Hin.
    + apply (Hall j u Hj). by rewrite Hc1.
Qed.


Local Abbreviation main :=
  (Independent.main now arun is_valid_article str cached_links cfg).

(** Every position of the list falls into the batch of one start. *)
Lemma range_covers k (l : list string) u :
  0 < k → u ∈ l →
  ∃ i, i ∈ (λ j, j * k) <$> seq 0 ((length l + k - 1) / k) ∧
       u ∈ take k (drop i l).
Proof.
  intros Hk [p Hp]%list_elem_of_lookup.
  pose proof (lookup_lt_Some _ _ _ Hp) as Hlt.
  pose proof (Nat.div_mod_eq p k) as Hdm.
  pose proof (Nat.mod_upper_bound p k ltac:(lia)) as Hmod.
  exists (p / k * k). split.
  - apply list_elem_of_fmap. exists (p / k). split; [done|].
    apply elem_of_seq. split; [lia|]. simpl.
    apply Nat.Div0.div_lt_upper_bound.
    pose proof (Nat.div_mod_eq (length l + k - 1) k) as Hdm'.
    pose proof (Nat.mod_upper_bound (length l + k - 1) k ltac:(lia)) as Hmod'.
    destruct (decide (p / k < (length l + k - 1) / k)) as [?|Hge]; [nia|].
    exfalso.
    assert ((length l + k - 1) / k ≤ p / k) as Hle by lia.
    assert (k * ((length l + k - 1) / k) ≤ k * (p / k)) as Hmul
      by (apply Nat.mul_le_mono_l, Hle).
    lia.
  - apply list_elem_of_lookup. exists (p mod k).
    rewrite lookup_take_lt by done. rewrite lookup_drop.
    replace (p / k * k + p mod k) with p by lia. done.
Qed.


Lemma range_from_0_cases n step :
  (step = 0%Z ∧ Independent.range_from_0 n step = Raise ValueError) ∨
  ((step < 0)%Z ∧ Independent.range_from_0 n step = Ok []) ∨
  ((0 < step)%Z ∧
   Independent.range_from_0 n step =
     Ok ((λ j, j * Z.to_nat step) <$>
           seq 0 ((n + Z.to_nat step - 1) / Z.to_nat step))).
Proof.
  unfold Independent.range_from_0.
  destruct (Z.eqb_spec step 0); [by left|]. right.
  destruct (Z.ltb_spec step 0); [by left|]. right. split; [lia|done].
Qed.


Lemma start_log_matches d tracked0 failed0 :
  whole_lines d log → Independent.load_tracked_urls d log = Ok tracked0 →
  log_matches log (start d tracked0 failed0).
Proof.
  unfold log_matches. simpl. intros [Hn|(text & Hf & Hc)] Hl.
  - rewrite Hn. rewrite load_tracked_urls_missing in Hl by done. by injection Hl.
  - rewrite Hf. rewrite (load_tracked_urls_regular _ _ _ Hf) in Hl.
    split; [done|]. by injection Hl.
Qed.

(** X3: the cap of [main] is tested between batches only.  On a track
    file of complete lines, kept apart from the other files, a run with
    a positive batch size returns with the count equal to the number of
    tracked URLs; a run that starts below the cap ends less than one
    batch above it; a run that starts at the cap does nothing. *)
Theorem main_passes_cap_by_less_than_a_batch (reset_errors : bool) (d : fs) :
  (∀ u, Independent.outfile_of cfg u ≠ log) →
  whole_lines d log →
  (0 < Independent.batch_size cfg)%Z →
  ∃ tracked0 r,
    Independent.load_tracked_urls d log = Ok tracked0 ∧
    main reset_errors d = Ok r ∧
    Independent.count r = size (tracked (Independent.st r)) ∧
    tracked0 ⊆ tracked (Independent.st r) ∧
    ((Z.of_nat (size tracked0) < Independent.max_downloads cfg)%Z →
     (Z.of_nat (Independent.count r)
        < Independent.max_downloads cfg + Independent.batch_size cfg)%Z) ∧
    ((Independent.max_downloads cfg ≤ Z.of_nat (size tracked0))%Z →
     trace (Independent.st r) = [] ∧ tracked (Independent.st r) = tracked0).
Proof.
  intros Hout Hlog Hbs.
  destruct (load_tracked_urls_returns d log) as [tracked0 Ht].
  exists tracked0. unfold Independent.main. rewrite Ht. simpl.
  assert (∃ failed0, (if reset_errors then Ok ∅
                      else Independent.load_tracked_urls d
                             (Independent.error_file cfg)) = Ok failed0)
    as [failed0 ->].
  { destruct reset_errors; [by eexists|apply load_tracked_urls_returns]. }
  simpl.
  destruct (load_candidate_urls_returns d (Independent.urls_file cfg))
    as [cands Hc].
  rewrite Hc. simpl.
  destruct (range_from_0_cases (length cands) (Independent.batch_size cfg))
    as [[Hz _]|[[Hneg _]|[_ ->]]]; [lia|lia|]. simpl.
  destruct (rounds_keep
              ((λ j, j * Z.to_nat (Independent.batch_size cfg)) <$>
                 seq 0 ((length cands + Z.to_nat (Independent.batch_size cfg) - 1)
                        / Z.to_nat (Independent.batch_size cfg)))
              {| Independent.st := start d tracked0 failed0;
                 Independent.candidates := cands;
                 Independent.count := size tracked0;
                 Independent.total_successful := 0 |})
    as (r & Hr & Hcount & Hmono & Hup & Hstop & _).
  - simpl. apply spaced_range. lia.
  - simpl. eapply Forall_impl; [by eapply candidates_one_line|].
    intros u Hu. by split.
  - simpl. by apply start_log_matches.
  - done.
  - exists r. simpl in *. split_and!; [done|done|done|done| |].
    + intros Hlt. rewrite Z2Nat.id in Hup by lia. apply Hup. lia.
    + intros Hge. by rewrite (Hstop Hge).
Qed.

(** X4: with a positive batch size, a track file of complete lines
    kept apart from the other files, a crawler that answers every call
    with a valid article, at least one attempt per URL and the failures
    of earlier runs reset, a run ends at the cap or with every
    candidate of the URL file tracked. *)
Theorem main_downloads_up_to_cap (d : fs) :
  (∀ u, Independent.outfile_of cfg u ≠ log) →
  whole_lines d log →
  (0 < Independent.batch_size cfg)%Z →
  all_up arun is_valid_article →
  (1 ≤ Independent.retry_count cfg)%Z →
  ∃ cands r,
    Independent.load_candidate_urls d (Independent.urls_file cfg) = Ok cands ∧
    main true d = Ok r ∧
    ((Independent.max_downloads cfg ≤ Z.of_nat (Independent.count r))%Z ∨
     ∀ u, u ∈ cands → u ∈ tracked (Independent.st r)).
Proof.
  intros Hout Hlog Hbs Hup Hrc.
  destruct (load_candidate_urls_returns d (Independent.urls_file cfg))
    as [cands Hc].
  exists cands. unfold Independent.main.
  destruct (load_tracked_urls_returns d log) as [tracked0 Ht].
  rewrite Ht. simpl. rewrite Hc. simpl.
  destruct (range_from_0_cases (length cands) (Independent.batch_size cfg))
    as [[Hz _]|[[Hneg _]|[_ ->]]]; [lia|lia|]. simpl.
  destruct (rounds_keep
              ((λ j, j * Z.to_nat (Independent.batch_size cfg)) <$>
                 seq 0 ((length cands + Z.to_nat (Independent.batch_size cfg) - 1)
                        / Z.to_nat (Independent.batch_size cfg)))
              {| Independent.st := start d tracked0 ∅;
                 Independent.candidates := cands;
                 Independent.count := size tracked0;
                 Independent.total_successful := 0 |})
    as (r & Hr & _ & _ & _ & _ & Hall).
  - simpl. apply spaced_range. lia.
  - simpl. eapply Forall_impl; [by eapply candidates_one_line|].
    intros u Hu. by split.
  - simpl. by apply start_log_matches.
  - done.
  - exists r. split; [done|]. split; [done|].
    destruct (Hall Hup Hrc eq_refl) as [?|Hin]; [by left|]. right.
    intros u Hu. simpl in Hin.
    destruct (range_covers (Z.to_nat (Independent.batch_size cfg)) cands u)
      as (i & Hi & Hb); [lia|done|].
    by apply (Hin i u).
Qed.


(** X5: a batch keeps the track file in step with the tracked set: when
    the file held the set as complete lines before the batch, loading
    the file after the batch, as [main] does for the next one, gives the
    set the batch left in memory. *)
Theorem batch_keeps_log_in_step (urls : list string) (st : state) :
  Forall (loggable cfg) urls → log_matches log st →
  log_matches log (process_batch urls st).1 ∧
  Independent.load_tracked_urls (disk (process_batch urls st).1) log
    = Ok (tracked (process_batch urls st).1).
Proof.
  intros Hl H. unfold Independent.process_batch. cbn [fst].
  pose proof (batch_loop_keeps urls [] st Hl (Forall_nil_2 _) H) as H1.
  split; [done|]. by apply log_matches_load.
Qed.

(** X6: a batch only adds to the tracked and failed sets, tracks
    nothing but URLs of the batch, so at most as many as the batch
    holds, and reports at most as many successes. *)
Theorem batch_tracks_only_its_urls (urls : list string) (st : state) :
  tracked st ⊆ tracked (process_batch urls st).1 ∧
  failed st ⊆ failed (process_batch urls st).1 ∧
  tracked (process_batch urls st).1 ⊆ list_to_set urls ∪ tracked st ∧
  size (tracked (process_batch urls st).1) ≤ size (tracked st) + length urls ∧
  (process_batch urls st).2 ≤ length urls.
Proof using Type.
  clear log_is_not_error_file log_is_not_urls_file cached_links.
  unfold Independent.process_batch. cbn [fst snd].
  destruct (batch_loop_trace now arun is_valid_article str cfg urls [] st)
    as (_ & _ & Hk & Hf & _).
  pose proof (batch_loop_tracks urls [] st) as Hsub.
  rewrite list_to_set_nil, (right_id_L ∅ (∪)) in Hsub.
  split_and!; [done|done|done| |].
  - etrans; [apply (subseteq_size _ _ Hsub)|].
    etrans; [apply size_union_le|].
    pose proof (size_list_to_set_le urls). lia.
  - unfold Independent.successful_in. apply length_filter.
Qed.

(** X7: the successes a batch reports are the URLs of the batch that
    are tracked and not failed when it ends, whenever they were
    downloaded: a batch of URLs that are all tracked already, none of
    them failed, fetches nothing, changes nothing, and reports every
    one of them as a success. *)
Theorem tracked_batch_counts_as_successful (urls : list string) (st : state) :
  (∀ u, u ∈ urls → u ∈ tracked st ∧ u ∉ failed st) →
  process_batch urls st = (st, length urls).
Proof.
  intros H. unfold Independent.process_batch.
  assert (batch_loop urls [] st = st) as ->.
  { induction urls as [|u urls IH]; [done|]. simpl.
    destruct (H u) as [Hu _]; [left|].
    rewrite (bool_decide_eq_true_2 _ Hu). simpl. apply IH.
    intros v Hv. apply H. by right. }
  f_equal. unfold Independent.successful_in.
  induction urls as [|u urls IH]; [done|].
  rewrite filter_cons_True by (apply H; left). simpl. f_equal.
  apply IH. intros v Hv. apply H. by right.
Qed.

End IndependentCap.

Lemma sample_artifact_is_not_log cap tries size u :
  Independent.outfile_of (sample_cfg cap tries size) u
    ≠ Independent.track_file (sample_cfg cap tries size).
Proof. intros H. vm_compute in H. discriminate. Qed.

(** The cap of one, with batches of two, on three candidates. *)
Lemma main_passes_cap_by_less_than_a_batch_witness :
  ∃ tracked0 r,
    Independent.load_tracked_urls three_candidates "t.txt" = Ok tracked0 ∧
    Independent.main sample_now sample_up sample_valid sample_str (λ _, ∅)
      (sample_cfg 1 3 2) true three_candidates = Ok r ∧
    Independent.count r = size (tracked (Independent.st r)) ∧
    tracked0 ⊆ tracked (Independent.st r) ∧
    ((Z.of_nat (size tracked0) < 1)%Z →
     (Z.of_nat (Independent.count r) < 1 + 2)%Z) ∧
    ((1 ≤ Z.of_nat (size tracked0))%Z →
     trace (Independent.st r) = [] ∧ tracked (Independent.st r) = tracked0).
Proof.
  assert ("e.txt" ≠ "t.txt") as H1 by discriminate.
  assert ("u.txt" ≠ "t.txt") as H2 by discriminate.
  assert (whole_lines three_candidates "t.txt") as H3 by (left; reflexivity).
  assert (0 < 2)%Z as H4 by lia.
  exact (main_passes_cap_by_less_than_a_batch sample_now sample_up sample_valid
           sample_str (λ _, ∅) (sample_cfg 1 3 2) H1 H2 true three_candidates
           (sample_artifact_is_not_log 1 3 2) H3 H4).
Defined.

Lemma sample_up_all_up : all_up sample_up sample_valid.
Proof. intros k u. by eexists _, _. Qed.

Lemma main_downloads_up_to_cap_witness :
  ∃ cands r,
    Independent.load_candidate_urls three_candidates "u.txt" = Ok cands ∧
    Independent.main sample_now sample_up sample_valid sample_str (λ _, ∅)
      (sample_cfg 5 3 2) true three_candidates = Ok r ∧
    ((5 ≤ Z.of_nat (Independent.count r))%Z ∨
     ∀ u, u ∈ cands → u ∈ tracked (Independent.st r)).
Proof.
  assert ("e.txt" ≠ "t.txt") as H1 by discriminate.
  assert ("u.txt" ≠ "t.txt") as H2 by discriminate.
  assert (whole_lines three_candidates "t.txt") as H3 by (left; reflexivity).
  assert (0 < 2)%Z as H4 by lia.
  assert (1 ≤ 3)%Z as H5 by lia.
  exact (main_downloads_up_to_cap sample_now sample_up sample_valid
           sample_str (λ _, ∅) (sample_cfg 5 3 2) H1 H2 three_candidates
           (sample_artifact_is_not_log 5 3 2) H3 H4 sample_up_all_up H5).
Defined.

Lemma sample_loggable u : one_line u = true → loggable (sample_cfg 5 3 10) u.
Proof. intros H. split; [done|apply sample_artifact_is_not_log]. Qed.

Lemma batch_keeps_log_in_step_witness :
  Independent.load_tracked_urls
    (disk (Independent.process_batch sample_now sample_up sample_valid
             sample_str (sample_cfg 5 3 10) [node_1; node_2] (start ∅ ∅ ∅)).1)
    "t.txt"
  = Ok (tracked (Independent.process_batch sample_now sample_up sample_valid
                   sample_str (sample_cfg 5 3 10) [node_1; node_2]
                   (start ∅ ∅ ∅)).1).
Proof.
  assert ("e.txt" ≠ "t.txt") as H1 by discriminate.
  assert (Forall (loggable (sample_cfg 5 3 10)) [node_1; node_2]) as H2
    by (repeat constructor; apply sample_loggable; reflexivity).
  assert (log_matches "t.txt" (start ∅ ∅ ∅)) as H3 by reflexivity.
  exact (proj2 (batch_keeps_log_in_step sample_now sample_up sample_valid
                  sample_str (sample_cfg 5 3 10) H1 [node_1; node_2]
                  (start ∅ ∅ ∅) H2 H3)).
Defined.

Lemma tracked_batch_counts_as_successful_witness :
  Independent.process_batch sample_now sample_down sample_valid sample_str
    (sample_cfg 5 3 10) [node_1; node_2] (start ∅ {[ node_1; node_2 ]} ∅)
  = (start ∅ {[ node_1; node_2 ]} ∅, 2).
Proof.
  assert (∀ u, u ∈ [node_1; node_2] →
            u ∈ tracked (start ∅ {[ node_1; node_2 ]} ∅) ∧
            u ∉ failed (start ∅ {[ node_1; node_2 ]} ∅)) as H.
  { intros u Hu. simpl. split; [set_solver|set_solver]. }
  exact (tracked_batch_counts_as_successful sample_now sample_down sample_valid
           sample_str (sample_cfg 5 3 10) [node_1; node_2]
           (start ∅ {[ node_1; node_2 ]} ∅) H).
Defined.

(** * The URL files of independent.py *)

Lemma app_eq_self s x : s +:+ x = s → x = "".
Proof.
  induction s as [|c s IH]; [done|]. rewrite app_String. intros [= H]. auto.
Qed.

Lemma rstrip_nonblank b : blank b = false → rstrip b ≠ "".
Proof.
  induction b as [|c b IH]; simpl; [done|].
  destruct (rstrip b) eqn:E; [|done].
  destruct (isspace c); [|done]. simpl. intros H. by apply IH in H.
Qed.

Lemma rstrip_app_nonblank a b :
  blank b = false → rstrip (a +:+ b) = a +:+ rstrip b.
Proof.
  intros Hb. induction a as [|c a IH]; [done|].
  rewrite !app_String. cbn [rstrip]. rewrite IH.
  destruct (a +:+ rstrip b) eqn:E; [|done].
  exfalso. apply (rstrip_nonblank b Hb).
  destruct a; [done|]. by rewrite app_String in E.
Qed.

Lemma no_linebreak_app a b :
  no_linebreak (a +:+ b) = no_linebreak a && no_linebreak b.
Proof.
  induction a as [|c a IH]; [done|]. rewrite app_String. simpl.
  by rewrite IH, andb_assoc.
Qed.

(** Appending one line, stripped or not, to a file of complete lines. *)
Lemma url_lines_append_body s body c body' :
  complete (universal_newlines s) = true →
  body = String c body' → isspace c = false → no_linebreak body = true →
  universal_newlines (s +:+ (body +:+ nl)) = universal_newlines s +:+ (body +:+ nl) ∧
  url_lines (universal_newlines (s +:+ (body +:+ nl))) =
    url_lines (universal_newlines s) ++ filter (λ u, u ≠ "") [strip body].
Proof.
  intros Hs -> Hc Hb.
  assert (universal_newlines (s +:+ (String c body' +:+ nl)) =
          universal_newlines s +:+ (String c body' +:+ nl)) as E.
  { rewrite universal_newlines_app.
    - f_equal. by rewrite universal_newlines_no_cr.
    - rewrite app_String. simpl. destruct (Ascii.eqb_spec c LF) as [->|]; [|done].
      by rewrite isspace_LF in Hc. }
  split; [done|]. rewrite E. unfold url_lines.
  rewrite readlines_app by done.
  rewrite <-(app_empty_r (String c body' +:+ nl)), readlines_line
    by by apply no_linebreak_no_lf.
  rewrite fmap_app, filter_app. f_equal. simpl.
  by rewrite strip_body.
Qed.

Lemma union_absorbs (old new_urls : gset string) :
  new_urls ∖ old = ∅ → old ∪ new_urls = old.
Proof.
  intros H. apply set_eq. intros u.
  assert (u ∈ new_urls → u ∈ old) as Hin.
  { intros Hu. destruct (decide (u ∈ old)); [done|].
    assert (u ∈ new_urls ∖ old) as Hx by set_solver.
    rewrite H in Hx. set_solver. }
  set_solver.
Qed.

Lemma concat_lines urls :
  String.concat "" ((λ u, u +:+ nl) <$> urls) = lines_text urls.
Proof.
  induction urls as [|u urls IH]; [done|].
  rewrite fmap_cons. cbn [lines_text]. rewrite <-IH.
  destruct urls as [|v urls]; [by rewrite app_empty_r|].
  rewrite fmap_cons. cbn [String.concat]. by rewrite app_empty_l.
Qed.

(** Lines written after a text of complete lines. *)
Lemma url_lines_after s urls :
  complete (universal_newlines s) = true →
  Forall (λ u, one_line u = true) urls →
  complete (universal_newlines (s +:+ lines_text urls)) = true ∧
  url_lines (universal_newlines (s +:+ lines_text urls)) =
    url_lines (universal_newlines s) ++ urls.
Proof.
  intros Hs Hu. revert s Hs.
  induction Hu as [|u urls Hu _ IH]; intros s Hs.
  { simpl. by rewrite app_empty_r, app_nil_r. }
  cbn [lines_text]. rewrite <-string_app_assoc.
  destruct (url_lines_append s u Hs Hu) as [E1 E2].
  destruct (IH (s +:+ (u +:+ nl))) as [I1 I2].
  { rewrite E1, <-string_app_assoc. apply complete_app_nl. }
  split; [done|]. by rewrite I2, E2, <-app_assoc.
Qed.

Section IndependentFiles.

Variable now : nat → string.
Variable cfg : Independent.config.

Local Abbreviation add_to_failed := (Independent.add_to_failed now cfg).
Local Abbreviation error_file := (Independent.error_file cfg).

(** X8: the error file is read back with the loader of the track file,
    which takes a whole line for a URL, while [add_to_failed] writes the
    URL, a time stamp and the reason on one line.  So, on an error file
    of complete lines, the record of a failed URL that is a single line,
    with a reason and a time stamp that hold no line break, is loaded
    as one string that is never the URL itself: without
    [--reset-errors] the next run knows the URL as failed only if the
    file held it on a line of its own before. *)
Theorem failed_url_is_not_read_back (url reason : string) (st : state) :
  one_line url = true →
  no_linebreak reason = true →
  no_linebreak (now (ticks st)) = true →
  blank (now (ticks st)) = false →
  whole_lines (disk st) error_file →
  ∃ old record,
    Independent.load_tracked_urls (disk st) error_file = Ok old ∧
    Independent.load_tracked_urls (disk (add_to_failed url reason st)) error_file
      = Ok (old ∪ {[record]}) ∧
    record = url +:+ rstrip (tab +:+ now (ticks st) +:+ tab +:+ reason) ∧
    record ≠ url.
Proof.
  intros Hu Hr Hn Hb Hw.
  set (rest := tab +:+ now (ticks st) +:+ tab +:+ reason).
  assert (blank rest = false) as Hrest.
  { unfold rest. rewrite !blank_app, Hb. reflexivity. }
  destruct (one_line_head url Hu) as (c & u' & Eu & Hc).
  assert (strip (url +:+ rest) = url +:+ rstrip rest) as Hstrip.
  { unfold strip. rewrite Eu, app_String. cbn [lstrip]. rewrite Hc.
    rewrite <-app_String. by apply rstrip_app_nonblank. }
  assert (url +:+ rstrip rest ≠ url) as Hne.
  { intros H%app_eq_self. by apply (rstrip_nonblank rest). }
  assert (no_linebreak (url +:+ rest) = true) as Hnl.
  { unfold rest. rewrite !no_linebreak_app, Hr, Hn.
    by rewrite (one_line_no_linebreak url Hu). }
  assert (url +:+ tab +:+ now (ticks st) +:+ tab +:+ reason +:+ nl
          = (url +:+ rest) +:+ nl) as Eline.
  { unfold rest. by rewrite !string_app_assoc. }
  assert (url +:+ rest = String c (u' +:+ rest)) as Ebody
    by (by rewrite Eu, app_String).
  unfold Independent.add_to_failed, append_text. simpl. rewrite Eline.
  destruct Hw as [Hnone|(text & Hf & Hcomp)].
  - rewrite Hnone. simpl.
    exists ∅, (url +:+ rstrip rest). split_and!; [|..|done|done].
    { by apply load_tracked_urls_missing. }
    erewrite load_tracked_urls_regular by apply lookup_insert_eq.
    destruct (url_lines_append_body "" (url +:+ rest) c (u' +:+ rest)
                eq_refl Ebody Hc Hnl) as [_ E].
    rewrite app_empty_l in E. change (universal_newlines "") with "" in E.
    rewrite E, Hstrip. unfold url_lines at 1. simpl.
    rewrite filter_cons_True by (intros H; by destruct url).
    simpl. by rewrite (right_id_L ∅ (∪)), (left_id_L ∅ (∪)).
  - rewrite Hf. simpl.
    exists (list_to_set (url_lines (universal_newlines text))),
           (url +:+ rstrip rest).
    split_and!; [|..|done|done].
    { by apply load_tracked_urls_regular. }
    erewrite load_tracked_urls_regular by apply lookup_insert_eq.
    destruct (url_lines_append_body text (url +:+ rest) c (u' +:+ rest)
                Hcomp Ebody Hc Hnl) as [_ E].
    rewrite E, Hstrip, list_to_set_app_L.
    rewrite filter_cons_True by (intros H; by destruct url).
    simpl. by rewrite (right_id_L ∅ (∪)).
Qed.


(** X9: after [update_urls_file] the URL file holds the new URLs beside
    the old ones, and a second call with the same URLs adds nothing and
    leaves the state as it is. *)
Theorem update_urls_file_is_idempotent (new_urls : gset string) (st : state)
    (text : string) :
  disk st !! Independent.urls_file cfg = Some (Regular text) →
  complete (universal_newlines text) = true →
  (∀ u, u ∈ new_urls → one_line u = true) →
  let st' := (Independent.update_urls_file cfg new_urls st).1 in
  Independent.load_tracked_urls (disk st') (Independent.urls_file cfg)
    = Ok (list_to_set (url_lines (universal_newlines text)) ∪ new_urls) ∧
  Independent.update_urls_file cfg new_urls st' = (st', 0).
Proof.
  intros Hf Hc Hnew st'.
  set (old := list_to_set (url_lines (universal_newlines text)) : gset string).
  assert (Independent.load_tracked_urls (disk st') (Independent.urls_file cfg)
          = Ok (old ∪ new_urls)) as Hload.
  { subst st'. unfold Independent.update_urls_file.
    rewrite (load_tracked_urls_regular _ _ _ Hf). fold old.
    destruct (bool_decide (new_urls ∖ old = ∅)) eqn:He.
    - apply bool_decide_eq_true in He. simpl.
      rewrite (load_tracked_urls_regular _ _ _ Hf). fold old. f_equal.
      by rewrite union_absorbs.
    - unfold append_text. rewrite Hf. cbn [fst].
      match goal with |- context [foldl ?f ?s0 ?ls] =>
        assert (disk (foldl f s0 ls) = disk s0) as ->
          by (generalize s0; generalize ls; intros ls0;
              induction ls0 as [|l0 ls0 IH]; intros s1; simpl;
              [done|by rewrite IH]) end.
      simpl. erewrite load_tracked_urls_regular by apply lookup_insert_eq.
      rewrite concat_lines.
      destruct (sorted_spec (new_urls ∖ old)) as (_ & _ & Hin).
      destruct (url_lines_after text (sorted (new_urls ∖ old)) Hc) as [_ ->].
      { apply Forall_forall. intros u Hu%Hin. apply Hnew.
        revert Hu. clear. set_solver. }
      rewrite list_to_set_app_L. fold old. f_equal. apply set_eq. intros u.
      rewrite elem_of_union, elem_of_list_to_set, Hin.
      rewrite elem_of_union, elem_of_difference.
      destruct (decide (u ∈ old)); tauto. }
  split; [done|].
  unfold Independent.update_urls_file at 1. rewrite Hload.
  rewrite bool_decide_eq_true_2; [done|]. generalize old. clear. set_solver.
Qed.

End IndependentFiles.

(** An error file with the record of one failure. *)
Lemma failed_url_is_not_read_back_witness :
  ∃ old record,
    Independent.load_tracked_urls (disk (start ∅ ∅ ∅)) "e.txt" = Ok old ∧
    Independent.load_tracked_urls
      (disk (Independent.add_to_failed sample_now (sample_cfg 5 3 10)
               node_1 "timeout" (start ∅ ∅ ∅))) "e.txt"
      = Ok (old ∪ {[record]}) ∧
    record = node_1 +:+ rstrip (tab +:+ sample_now 0 +:+ tab +:+ "timeout") ∧
    record ≠ node_1.
Proof.
  assert (one_line node_1 = true) as H1 by reflexivity.
  assert (no_linebreak "timeout" = true) as H2 by reflexivity.
  assert (no_linebreak (sample_now (ticks (start ∅ ∅ ∅))) = true) as H3
    by reflexivity.
  assert (blank (sample_now (ticks (start ∅ ∅ ∅))) = false) as H4
    by reflexivity.
  assert (whole_lines (disk (start ∅ ∅ ∅))
            (Independent.error_file (sample_cfg 5 3 10))) as H5
    by (left; reflexivity).
  exact (failed_url_is_not_read_back sample_now (sample_cfg 5 3 10) node_1
           "timeout" (start ∅ ∅ ∅) H1 H2 H3 H4 H5).
Defined.

Lemma update_urls_file_is_idempotent_witness :
  let st := start {[ "u.txt" := Regular (lines_text [node_1]) ]} ∅ ∅ in
  let st' := (Independent.update_urls_file (sample_cfg 5 3 10)
                {[ node_1; node_2 ]} st).1 in
  Independent.update_urls_file (sample_cfg 5 3 10) {[ node_1; node_2 ]} st'
    = (st', 0).
Proof.
  assert (disk (start {[ "u.txt" := Regular (lines_text [node_1]) ]} ∅ ∅)
            !! Independent.urls_file (sample_cfg 5 3 10)
          = Some (Regular (lines_text [node_1]))) as H1 by reflexivity.
  assert (complete (universal_newlines (lines_text [node_1])) = true) as H2
    by reflexivity.
  assert (∀ u, u ∈ ({[ node_1; node_2 ]} : gset string) → one_line u = true)
    as H3.
  { intros u [->%elem_of_singleton| ->%elem_of_singleton]%elem_of_union;
      reflexivity. }
  exact (proj2 (update_urls_file_is_idempotent (sample_cfg 5 3 10)
                  {[ node_1; node_2 ]}
                  (start {[ "u.txt" := Regular (lines_text [node_1]) ]} ∅ ∅)
                  (lines_text [node_1]) H1 H2 H3)).
Defined.

(** * The tracker log, whatever it held before *)

(** Universal newlines of two texts put together: the texts are read
    one after the other, but for a carriage return that ends the first
    and a line feed that starts the second, which are read as one line
    end. *)
Lemma universal_newlines_app_cases s t :
  universal_newlines (s +:+ t) = universal_newlines s +:+ universal_newlines t ∨
  ∃ t', t = String LF t' ∧
        universal_newlines (s +:+ t) = universal_newlines s +:+ universal_newlines t'.
Proof.
  induction s as [|c|c a s IH1 IH2] using string_pair_ind.
  - by left.
  - rewrite app_String, app_empty_l. simpl.
    destruct (Ascii.eqb c CR); [|by left].
    destruct t as [|c' t]; [by left|].
    destruct (Ascii.eqb c' LF) eqn:Hc; [|by left].
    apply Ascii.eqb_eq in Hc as ->. right. by exists t.
  - rewrite !app_String. rewrite !app_String in IH2. simpl.
    destruct (Ascii.eqb c CR).
    + destruct (Ascii.eqb a LF).
      * destruct IH1 as [->|(t' & -> & ->)]; [by left|right; by eexists].
      * simpl in IH2.
        destruct IH2 as [->|(t' & -> & ->)]; [by left|right; by eexists].
    + simpl in IH2.
      destruct IH2 as [->|(t' & -> & ->)]; [by left|right; by eexists].
Qed.

Lemma url_lines_app x y :
  complete x = true → url_lines (x +:+ y) = url_lines x ++ url_lines y.
Proof.
  intros Hx. unfold url_lines. by rewrite readlines_app, fmap_app, filter_app.
Qed.

(** Text put after complete lines adds its own lines to theirs. *)
Lemma url_lines_after_complete s t :
  complete (universal_newlines s) = true →
  url_lines (universal_newlines (s +:+ t)) =
    url_lines (universal_newlines s) ++ url_lines (universal_newlines t).
Proof.
  intros Hs.
  destruct (universal_newlines_app_cases s t) as [->|(t' & -> & ->)].
  - by apply url_lines_app.
  - rewrite url_lines_app by done. f_equal.
Qed.

Lemma lstrip_nonblank b : blank b = false → blank (lstrip b) = false.
Proof.
  induction b as [|c b IH]; [done|]. simpl.
  destruct (isspace c) eqn:Hc; simpl; [done|]. by rewrite Hc.
Qed.

(** A text that is one line, cut short or not a URL at all, is read as
    one URL: itself, stripped. *)
Lemma url_lines_one_tail tail :
  no_linebreak tail = true → blank tail = false →
  url_lines (universal_newlines tail) = [strip tail].
Proof.
  intros Hl Hb.
  pose proof (universal_newlines_no_cr tail "" Hl) as Hu.
  change (universal_newlines "") with "" in Hu.
  rewrite !app_empty_r in Hu. rewrite Hu.
  unfold url_lines. rewrite readlines_one.
  - simpl. rewrite filter_cons_True; [done|].
    unfold strip. apply rstrip_nonblank. by apply lstrip_nonblank.
  - by apply no_linebreak_no_lf.
  - by intros ->.
Qed.

(** The log after the appends, and after a tail is put behind them. *)
Lemma add_to_tracked_onto urls f st :
  whole_lines (disk st) f →
  ∃ s0, complete (universal_newlines s0) = true ∧
        (disk st !! f = None ∨ disk st !! f = Some (Regular "") → s0 = "") ∧
        Independent.load_tracked_urls (disk st) f
          = Ok (list_to_set (url_lines (universal_newlines s0))) ∧
        Independent.load_tracked_urls
          (disk (foldl (λ st u, Independent.add_to_tracked u f st) st urls)) f
          = Ok (list_to_set
                  (url_lines (universal_newlines (s0 +:+ lines_text urls)))) ∧
        ∀ tail d',
          append_text
            (disk (foldl (λ st u, Independent.add_to_tracked u f st) st urls))
            f tail = Ok d' →
          d' !! f = Some (Regular ((s0 +:+ lines_text urls) +:+ tail)).
Proof.
  intros [Hf|(s & Hf & Hs)].
  - exists "". split_and!; [done|done| | |].
    + by rewrite load_tracked_urls_missing.
    + destruct urls as [|u urls].
      * simpl. by rewrite load_tracked_urls_missing.
      * rewrite app_empty_l. cbn [foldl].
        erewrite load_tracked_urls_regular; [reflexivity|].
        erewrite add_to_tracked_all.
        2:{ unfold Independent.add_to_tracked, append_text. rewrite Hf. simpl.
            apply lookup_insert_eq. }
        done.
    + intros tail d' Hd'. rewrite app_empty_l.
      by apply (add_to_tracked_from_nothing urls f st).
  - exists s. split_and!; [done| | | |].
    + intros [H|H]; rewrite Hf in H; [discriminate|]. by injection H.
    + by rewrite (load_tracked_urls_regular _ _ _ Hf).
    + by rewrite (load_tracked_urls_regular _ _ _
                    (add_to_tracked_all urls f st s Hf)).
    + intros tail d' Hd'. unfold append_text in Hd'.
      rewrite (add_to_tracked_all urls f st s Hf) in Hd'.
      injection Hd' as <-. apply lookup_insert_eq.
Qed.

(** C5, amended: URLs written one per line by [add_to_tracked] into a
    log that is missing, empty or made of complete lines are loaded
    back as exactly the URLs the log held before and those written (a
    URL being a non-empty string with no line break inside and no white
    space at either end); blank text after them is skipped; text after
    them that is not blank is not skipped: its lines are loaded as URLs
    after stripping, a single line cut short or malformed as one URL;
    and no trailing text makes the load fail. *)
Theorem tracker_log_round_trip (urls : list string) (f : string) (st : state) :
  Forall (λ u, one_line u = true) urls →
  whole_lines (disk st) f →
  let logged := foldl (λ st u, Independent.add_to_tracked u f st) st urls in
  ∃ old,
    Independent.load_tracked_urls (disk st) f = Ok old ∧
    (disk st !! f = None ∨ disk st !! f = Some (Regular "") → old = ∅) ∧
    Independent.load_tracked_urls (disk logged) f
      = Ok (old ∪ list_to_set urls) ∧
    ∀ tail d', append_text (disk logged) f tail = Ok d' →
      Independent.load_tracked_urls d' f
        = Ok (old ∪ list_to_set urls
              ∪ list_to_set (url_lines (universal_newlines tail))) ∧
      (blank tail = true →
         Independent.load_tracked_urls d' f = Ok (old ∪ list_to_set urls)) ∧
      (no_linebreak tail = true → blank tail = false →
         Independent.load_tracked_urls d' f
           = Ok (old ∪ list_to_set urls ∪ {[strip tail]})).
Proof.
  intros Hu Hw logged. subst logged.
  destruct (add_to_tracked_onto urls f st Hw) as (s0 & Hc & He & Hl0 & Hl & Ht).
  destruct (url_lines_after s0 urls Hc Hu) as [Hc' Hs].
  exists (list_to_set (url_lines (universal_newlines s0))).
  split_and!; [exact Hl0| |by rewrite Hl, Hs, list_to_set_app_L|].
  { intros H. by rewrite (He H). }
  intros tail d' Hd'.
  assert (Independent.load_tracked_urls d' f
          = Ok (list_to_set (url_lines (universal_newlines s0))
                ∪ list_to_set urls
                ∪ list_to_set (url_lines (universal_newlines tail)))) as E.
  { rewrite (load_tracked_urls_regular _ _ _ (Ht tail d' Hd')).
    rewrite url_lines_after_complete by done.
    by rewrite Hs, !list_to_set_app_L. }
  split_and!; [exact E| |].
  - intros Hb. rewrite E, (url_lines_blank tail Hb).
    by rewrite list_to_set_nil, (right_id_L ∅ (∪)).
  - intros Hn Hb. rewrite E, (url_lines_one_tail tail Hn Hb).
    by rewrite list_to_set_cons, list_to_set_nil, (right_id_L ∅ (∪) {[strip tail]}).
Qed.

(** The round trip on the empty log that the set-up leaves: two URLs,
    and then a line cut short. *)
Lemma tracker_log_round_trip_witness :
  ∃ old,
    Independent.load_tracked_urls
      (disk (start {[ "t.txt" := Regular "" ]} ∅ ∅)) "t.txt" = Ok old ∧
    old = ∅ ∧
    Independent.load_tracked_urls
      (disk (foldl (λ st u, Independent.add_to_tracked u "t.txt" st)
                   (start {[ "t.txt" := Regular "" ]} ∅ ∅)
                   ["https://a/node/1"; "https://a/node/2"]))
      "t.txt"
    = Ok (old ∪ list_to_set ["https://a/node/1"; "https://a/node/2"]) ∧
    Independent.load_tracked_urls cut_log "t.txt"
    = Ok (old ∪ list_to_set ["https://a/node/1"; "https://a/node/2"]
          ∪ {[strip "https://a/no"]}).
Proof.
  assert (Forall (λ u, one_line u = true)
            ["https://a/node/1"; "https://a/node/2"]) as H1
    by (repeat constructor).
  assert (whole_lines (disk (start {[ "t.txt" := Regular "" ]} ∅ ∅)) "t.txt")
    as H2 by (right; exists ""; split; reflexivity).
  destruct (tracker_log_round_trip ["https://a/node/1"; "https://a/node/2"]
              "t.txt" (start {[ "t.txt" := Regular "" ]} ∅ ∅) H1 H2)
    as (old & L0 & He & L & Ht).
  exists old. split; [exact L0|]. split; [apply He; right; reflexivity|].
  split; [exact L|].
  refine (proj2 (proj2 (Ht "https://a/no" cut_log _)) _ _); reflexivity.
Defined.

(** * The set-up of independent.py *)

Lemma touch_lookup dir d f p :
  Independent.touch dir d f !! p =
    match d !! p with
    | Some n => Some n
    | None => if bool_decide (p = f) && negb (bool_decide (p = dir))
              then Some (Regular "") else None
    end.
Proof.
  unfold Independent.touch, exists_path.
  destruct (decide (p = f)) as [->|Hne].
  - rewrite (bool_decide_eq_true_2 (f = f)) by done. cbn [andb].
    destruct (bool_decide (f = dir)); cbn [orb negb].
    { by destruct (d !! f). }
    destruct (d !! f) as [n|] eqn:Hf.
    + rewrite bool_decide_eq_true_2 by (by eexists). by rewrite Hf.
    + rewrite bool_decide_eq_false_2 by (by intros [? ?]).
      by rewrite lookup_insert_eq.
  - rewrite (bool_decide_eq_false_2 (p = f)) by done. cbn [andb].
    destruct (_ || _); [by destruct (d !! p)|].
    rewrite lookup_insert_ne by done. by destruct (d !! p).
Qed.

(** The files after the loop that creates the missing ones. *)
Lemma touched_lookup dir d (files : list string) p :
  foldl (Independent.touch dir) d files !! p =
    match d !! p with
    | Some n => Some n
    | None => if bool_decide (p ∈ files) && negb (bool_decide (p = dir))
              then Some (Regular "") else None
    end.
Proof.
  revert d. induction files as [|f files IH]; intros d; simpl.
  { by destruct (d !! p). }
  rewrite IH, touch_lookup. destruct (d !! p) as [n|] eqn:Hp; [done|].
  destruct (decide (p = f)) as [->|Hne].
  - rewrite (bool_decide_eq_true_2 (f = f)) by done.
    rewrite (bool_decide_eq_true_2 (f ∈ f :: files)) by left.
    destruct (bool_decide (f = dir)); cbn [negb andb]; by rewrite ?andb_false_r.
  - rewrite (bool_decide_eq_false_2 (p = f)) by done. cbn [andb].
    assert (bool_decide (p ∈ f :: files) = bool_decide (p ∈ files)) as ->; [|done].
    apply bool_decide_ext. rewrite elem_of_cons. naive_solver.
Qed.

Section IndependentSetup.

Variable cfg : Independent.config.
Variable seed_url : string.
Variable denied_empty : string → bool.

Local Abbreviation setup_environment :=
  (Independent.setup_environment cfg seed_url denied_empty).
Local Abbreviation dir := (Independent.download_dir cfg).
Local Abbreviation files :=
  [Independent.track_file cfg; Independent.urls_file cfg;
   Independent.error_file cfg].
Local Abbreviation urls_file := (Independent.urls_file cfg).
Local Abbreviation touched d := (foldl (Independent.touch dir) d files).

(** What the set-up returns, by what it finds. *)
Lemma setup_environment_eq (made : option exn) (d : fs) :
  setup_environment made d =
    match d !! dir, made with
    | Some _, _ => Raise FileExistsError
    | None, Some e => Raise e
    | None, None =>
        if bool_decide (urls_file = dir) then
          if denied_empty urls_file then Raise IsADirectoryError
          else Ok (touched d)
        else
          match d !! urls_file with
          | Some (Regular s) =>
              if bool_decide (s = "")
              then Ok (<[urls_file := Regular (seed_url +:+ nl)]> (touched d))
              else Ok (touched d)
          | Some Undecodable => Ok (touched d)
          | Some Denied =>
              if denied_empty urls_file then Raise PermissionError
              else Ok (touched d)
          | None => Ok (<[urls_file := Regular (seed_url +:+ nl)]> (touched d))
          end
    end.
Proof.
  unfold Independent.setup_environment, Independent.makedirs, exists_path.
  destruct (d !! dir) as [n|] eqn:Hd.
  { rewrite (bool_decide_eq_true_2 (is_Some (Some n))) by (by eexists). done. }
  rewrite (bool_decide_eq_false_2 (is_Some (@None node))) by (by intros [? ?]).
  destruct made as [e|]; [done|]. cbn [mbind res_bind]. cbv zeta.
  unfold Independent.is_empty.
  destruct (bool_decide (urls_file = dir)) eqn:Hu; cbn [mbind res_bind].
  { by destruct (denied_empty urls_file). }
  assert (touched d !! urls_file
          = match d !! urls_file with
            | Some n => Some n | None => Some (Regular "") end) as Hl.
  { rewrite (touched_lookup dir d files urls_file), Hu.
    by rewrite (bool_decide_eq_true_2 (urls_file ∈ files)) by (right; left). }
  unfold open_w. rewrite !Hl.
  destruct (d !! urls_file) as [[s| |]|] eqn:Hf; cbn [mbind res_bind].
  - destruct (bool_decide (s = "")); [|done]. cbn [mbind res_bind].
    by rewrite insert_insert_eq.
  - done.
  - by destruct (denied_empty urls_file).
  - rewrite bool_decide_eq_true_2 by done. cbn [mbind res_bind].
    by rewrite insert_insert_eq.
Qed.

Lemma touched_again (d' : fs) :
  (∀ p, p ∈ files → p ≠ dir → is_Some (d' !! p)) → touched d' = d'.
Proof.
  intros Hd'. apply map_eq. intros p. rewrite touched_lookup.
  destruct (d' !! p) eqn:E; [done|].
  destruct (bool_decide (p ∈ files)) eqn:Hp; [|done].
  destruct (bool_decide (p = dir)) eqn:Hq; [done|].
  apply bool_decide_eq_true in Hp. apply bool_decide_eq_false in Hq.
  destruct (Hd' p Hp Hq) as [? ?]. congruence.
Qed.

Lemma touched_exist (d : fs) p :
  p ∈ files → p ≠ dir → is_Some (touched d !! p).
Proof.
  intros Hp Hq. rewrite touched_lookup. destruct (d !! p); [by eexists|].
  rewrite bool_decide_eq_true_2, bool_decide_eq_false_2 by done. by eexists.
Qed.

Lemma seeded_exist (d : fs) p :
  p ∈ files → p ≠ dir →
  is_Some (<[urls_file := Regular (seed_url +:+ nl)]> (touched d) !! p).
Proof.
  intros Hp Hq. destruct (decide (p = urls_file)) as [->|Hne].
  - rewrite lookup_insert_eq. by eexists.
  - rewrite lookup_insert_ne by done. by apply touched_exist.
Qed.

Lemma seed_line_not_empty : seed_url +:+ nl ≠ "".
Proof. by destruct seed_url. Qed.

(** X10: [setup_environment] raises only [FileExistsError], when a
    file stands where the download directory should be, or what
    [os.makedirs] raises when the directory cannot be made, or, with
    the directory made, on an empty URL file that cannot be opened.
    Otherwise the three files exist afterwards; a file that was there
    and not empty is left as it was, as is every file but the three;
    the URL file holds the seed line when it was missing or empty; and
    a second set-up changes nothing. *)
Theorem setup_environment_is_gentle (made : option exn) (d : fs) :
  (is_Some (d !! dir) ∧ setup_environment made d = Raise FileExistsError) ∨
  (d !! dir = None ∧
   ∃ e, made = Some e ∧ setup_environment made d = Raise e) ∨
  (d !! dir = None ∧ made = None ∧ denied_empty urls_file = true ∧
   ((urls_file = dir ∧ setup_environment made d = Raise IsADirectoryError) ∨
    (urls_file ≠ dir ∧ d !! urls_file = Some Denied ∧
     setup_environment made d = Raise PermissionError))) ∨
  (d !! dir = None ∧ made = None ∧
   ∃ d', setup_environment made d = Ok d' ∧
     setup_environment None d' = Ok d' ∧
     (∀ p, p ∈ files → p ≠ dir → is_Some (d' !! p)) ∧
     (∀ p n, d !! p = Some n → n ≠ Regular "" → d' !! p = Some n) ∧
     (∀ p, p ∉ files → d' !! p = d !! p) ∧
     d' !! dir = None ∧
     (urls_file ≠ dir →
      d !! urls_file = None ∨ d !! urls_file = Some (Regular "") →
      d' !! urls_file = Some (Regular (seed_url +:+ nl)))).
Proof.
  rewrite (setup_environment_eq made d).
  destruct (d !! dir) as [n0|] eqn:Hdir; [left; split; [by eexists|done]|].
  destruct made as [e|]; [right; left; split; [done|by exists e]|].
  right; right.
  set (d3 := touched d).
  assert (∀ p, d3 !! p = match d !! p with
                         | Some n => Some n
                         | None => if bool_decide (p ∈ files)
                                      && negb (bool_decide (p = dir))
                                   then Some (Regular "") else None
                         end) as H3 by apply touched_lookup.
  assert (∀ p n, d !! p = Some n → d3 !! p = Some n) as Hkept
    by (intros p n Hp; by rewrite H3, Hp).
  assert (∀ p n, d !! p = Some n → n ≠ Regular "" → d3 !! p = Some n) as Hkept'
    by (intros p n Hp _; by apply Hkept).
  assert (∀ p, p ∉ files → d3 !! p = d !! p) as Hother.
  { intros p Hp. rewrite H3. destruct (d !! p); [done|].
    by rewrite (bool_decide_eq_false_2 (p ∈ files)). }
  assert (d3 !! dir = None) as Hdir3.
  { rewrite H3, Hdir. rewrite (bool_decide_eq_true_2 (dir = dir)) by done.
    by rewrite andb_false_r. }
  assert (∀ p, p ∉ files →
            <[urls_file := Regular (seed_url +:+ nl)]> d3 !! p = d !! p)
    as Hother'.
  { intros p Hp. rewrite lookup_insert_ne; [by apply Hother|].
    intros <-. apply Hp. right; left. }
  assert (urls_file ≠ dir →
          setup_environment None (<[urls_file := Regular (seed_url +:+ nl)]> d3)
          = Ok (<[urls_file := Regular (seed_url +:+ nl)]> d3)) as Hseeded.
  { intros Hne. rewrite setup_environment_eq.
    rewrite lookup_insert_ne, Hdir3 by done.
    rewrite bool_decide_eq_false_2 by done.
    rewrite touched_again by apply seeded_exist.
    rewrite lookup_insert_eq.
    by rewrite bool_decide_eq_false_2 by apply seed_line_not_empty. }
  assert (setup_environment None d3 = Ok d3 ∨
          (d3 !! urls_file = Some (Regular "") ∧ urls_file ≠ dir) ∨
          (denied_empty urls_file = true ∧
           (urls_file = dir ∨ d3 !! urls_file = Some Denied))) as Htouched.
  { rewrite setup_environment_eq, Hdir3.
    rewrite touched_again by apply touched_exist. fold d3.
    destruct (bool_decide (urls_file = dir)) eqn:Hu.
    { apply bool_decide_eq_true in Hu.
      destruct (denied_empty urls_file); [right; right; auto|by left]. }
    apply bool_decide_eq_false in Hu.
    assert (is_Some (d3 !! urls_file)) as [n Hn]
      by (apply touched_exist; [right; left|done]).
    rewrite Hn. destruct n as [s| |]; [|by left|].
    - destruct (bool_decide (s = "")) eqn:Hs; [|by left].
      apply bool_decide_eq_true in Hs. subst s. right; left. done.
    - destruct (denied_empty urls_file); [right; right; auto|by left]. }
  destruct (bool_decide (urls_file = dir)) eqn:Hu.
  { apply bool_decide_eq_true in Hu.
    destruct (denied_empty urls_file) eqn:He.
    { left. split_and!; [done|done|done|]. left. by split. }
    right. split_and!; [done|done|]. exists d3. split; [done|].
    split_and!; [|apply touched_exist|done|done|done|done].
    destruct Htouched as [H|[[_ H]|[H _]]]; [done|done|congruence]. }
  apply bool_decide_eq_false in Hu.
  destruct (d !! urls_file) as [[s| |]|] eqn:Hf.
  - right. split_and!; [done|done|].
    destruct (bool_decide (s = "")) eqn:Hs.
    + apply bool_decide_eq_true in Hs. subst s. eexists. split; [done|].
      split_and!; [by apply Hseeded|apply seeded_exist| |done| |].
      * intros p n Hp Hn. destruct (decide (p = urls_file)) as [->|Hne].
        { rewrite Hf in Hp. by injection Hp as <-. }
        rewrite lookup_insert_ne by done. by apply Hkept.
      * by rewrite lookup_insert_ne.
      * intros _ _. by rewrite lookup_insert_eq.
    + apply bool_decide_eq_false in Hs. exists d3. split; [done|].
      split_and!; [|apply touched_exist|done|done|done|].
      * destruct Htouched as [H|[[H _]|[_ [H|H]]]]; [done| |done|].
        -- rewrite (Hkept _ _ Hf) in H. by injection H.
        -- by rewrite (Hkept _ _ Hf) in H.
      * intros _ [?|[=]]; [done|]. by subst s.
  - right. split_and!; [done|done|]. exists d3. split; [done|].
    split_and!; [|apply touched_exist|done|done|done|].
    + destruct Htouched as [H|[[H _]|[_ [H|H]]]]; [done| |done|];
        by rewrite (Hkept _ _ Hf) in H.
    + by intros _ [?|?].
  - destruct (denied_empty urls_file) eqn:He.
    { left. split_and!; [done|done|done|]. right. by split_and!. }
    right. split_and!; [done|done|]. exists d3. split; [done|].
    split_and!; [|apply touched_exist|done|done|done|].
    + destruct Htouched as [H|[[H _]|[H _]]]; [done| |done].
      by rewrite (Hkept _ _ Hf) in H.
    + by intros _ [?|?].
  - right. split_and!; [done|done|]. eexists. split; [done|].
    split_and!; [by apply Hseeded|apply seeded_exist| |done| |].
    + intros p n Hp Hn. destruct (decide (p = urls_file)) as [->|Hne].
      { by rewrite Hf in Hp. }
      rewrite lookup_insert_ne by done. by apply Hkept.
    + by rewrite lookup_insert_ne.
    + intros _ _. by rewrite lookup_insert_eq.
Qed.

(** X11: a run on a URL file that is missing or empty starts from the
    seed alone: when the download directory is there or can be made,
    and the URL file is another path, after the set-up the candidate
    loader returns the seed URL and nothing else. *)
Theorem first_run_starts_from_seed (d : fs) :
  d !! dir = None → urls_file ≠ dir →
  d !! urls_file = None ∨ d !! urls_file = Some (Regular "") →
  one_line seed_url = true →
  ∃ d', setup_environment None d = Ok d' ∧
        Independent.load_candidate_urls d' urls_file = Ok [seed_url].
Proof.
  intros Hdir Hne Hf Hs. rewrite setup_environment_eq, Hdir.
  rewrite bool_decide_eq_false_2 by done.
  exists (<[urls_file := Regular (seed_url +:+ nl)]> (touched d)).
  split; [by destruct Hf as [-> | ->]|].
  unfold Independent.load_candidate_urls, Independent.load_candidate_urls_body,
    read_text. rewrite lookup_insert_eq. cbn [mbind res_bind mret res_ret].
  rewrite universal_newlines_no_cr by by apply one_line_no_linebreak.
  change (universal_newlines nl) with nl.
  rewrite <-(app_empty_r (seed_url +:+ nl)).
  rewrite readlines_line by by apply one_line_no_lf.
  cbn [readlines Independent.dedup_lines]. rewrite strip_line by done.
  rewrite bool_decide_eq_true_2 by by apply one_line_nonempty.
  rewrite bool_decide_eq_true_2 by set_solver. done.
Qed.

End IndependentSetup.

(** A first run in an empty directory. *)
Lemma first_run_starts_from_seed_witness :
  ∃ d', Independent.setup_environment (sample_cfg 5 3 10) node_1 (λ _, false)
          None ∅ = Ok d' ∧
        Independent.load_candidate_urls d' "u.txt" = Ok [node_1].
Proof.
  assert ((∅ : fs) !! Independent.download_dir (sample_cfg 5 3 10) = None)
    as H0 by reflexivity.
  assert (Independent.urls_file (sample_cfg 5 3 10)
          ≠ Independent.download_dir (sample_cfg 5 3 10)) as Hne
    by discriminate.
  assert ((∅ : fs) !! Independent.urls_file (sample_cfg 5 3 10) = None ∨
          (∅ : fs) !! Independent.urls_file (sample_cfg 5 3 10)
            = Some (Regular "")) as H1 by (left; reflexivity).
  assert (one_line node_1 = true) as H2 by reflexivity.
  exact (first_run_starts_from_seed (sample_cfg 5 3 10) node_1 (λ _, false) ∅
           H0 Hne H1 H2).
Defined.

(** * The crawl loop of wiki-how.py *)

Section WikiHowLoop.

Variable arun : nat → string → response.
Variable extract_article_links : nat → string → gset string.
Variable cfg : WikiHow.config.

Local Abbreviation fill_batch := (WikiHow.fill_batch cfg).
Local Abbreviation download_one := (WikiHow.download_one arun cfg).
Local Abbreviation download_batch := (WikiHow.download_batch arun cfg).
Local Abbreviation discover := (WikiHow.discover extract_article_links).
Local Abbreviation expand := (WikiHow.expand extract_article_links).
Local Abbreviation turn := (WikiHow.turn arun extract_article_links cfg).
Local Abbreviation loop := (WikiHow.loop arun extract_article_links cfg).
Local Abbreviation log := (WikiHow.track_file cfg).
Local Abbreviation cap := (WikiHow.max_downloads cfg).

(** X12: filling a batch pops a prefix of the queue and keeps, in
    order, the popped URLs that are not tracked; it stops when the queue
    is empty or the batch is full. *)
Theorem fill_batch_takes_untracked_prefix (queue batch : list string)
    (tracked : gset string) :
  ∃ popped,
    queue = popped ++ (fill_batch queue batch tracked).1 ∧
    (fill_batch queue batch tracked).2
      = batch ++ filter (λ u, u ∉ tracked) popped ∧
    ((fill_batch queue batch tracked).1 = [] ∨
     (WikiHow.batch_size cfg
        ≤ Z.of_nat (length (fill_batch queue batch tracked).2))%Z) ∧
    (Z.of_nat (length (fill_batch queue batch tracked).2)
       ≤ Z.max (Z.of_nat (length batch)) (WikiHow.batch_size cfg))%Z.
Proof.
  revert batch. induction queue as [|url rest IH]; intros batch; simpl.
  { exists []. simpl. rewrite app_nil_r. split_and!; [done|done|by left|lia]. }
  destruct (bool_decide (Z.of_nat (length batch) < _)%Z) eqn:Hfull.
  - apply bool_decide_eq_true in Hfull.
    destruct (bool_decide (url ∉ tracked)) eqn:Hu.
    + apply bool_decide_eq_true in Hu.
      destruct (IH (batch ++ [url])) as (popped & E1 & E2 & E3 & E4).
      exists (url :: popped). split_and!; [by rewrite <-app_comm_cons, <-E1| |done|].
      * rewrite E2, filter_cons_True by done. by rewrite <-app_assoc.
      * rewrite length_app in E4. simpl in E4. lia.
    + apply bool_decide_eq_false in Hu.
      destruct (IH batch) as (popped & E1 & E2 & E3 & E4).
      exists (url :: popped). split_and!; [by rewrite <-app_comm_cons, <-E1| |done|done].
      by rewrite E2, filter_cons_False.
  - apply bool_decide_eq_false in Hfull. exists []. simpl. rewrite app_nil_r.
    split_and!; [done|done|right; lia|lia].
Qed.

(** One download: the counter goes up by one exactly when a line is
    appended to the track file. *)
Lemma download_one_counts url c :
  WikiHow.queue (download_one url c) = WikiHow.queue c ∧
  WikiHow.seen (download_one url c) = WikiHow.seen c ∧
  tracked (WikiHow.cs c) ⊆ tracked (WikiHow.cs (download_one url c)) ∧
  ∃ t, trace (WikiHow.cs (download_one url c)) = trace (WikiHow.cs c) ++ t ∧
       fetches t = [url] ∧ length (appends log t) ≤ 1 ∧
       WikiHow.total_downloaded (download_one url c)
         = WikiHow.total_downloaded c + length (appends log t).
Proof.
  unfold WikiHow.download_one.
  destruct (arun _ _) as [p|reason]; simpl.
  2:{ split_and!; [done..|]. eexists. split; [done|]. simpl.
      split_and!; [done|lia|lia]. }
  destruct (open_w _ _) as [d|e]; simpl.
  2:{ split_and!; [done..|]. eexists. split; [done|]. simpl.
      split_and!; [done|lia|lia]. }
  destruct (markdown p) as [md|]; simpl.
  2:{ split_and!; [done..|]. eexists. split; [done|]. simpl.
      split_and!; [done|lia|lia]. }
  destruct (append_text _ _ _) as [d'|e]; simpl.
  - split_and!; [done|done|set_solver|]. eexists.
    rewrite <-!app_assoc. split; [done|]. simpl.
    rewrite decide_True by done. simpl. split_and!; [done|lia|lia].
  - split_and!; [done|done|set_solver|]. eexists.
    rewrite <-!app_assoc. split; [done|]. simpl. split_and!; [done|lia|lia].
Qed.

Lemma download_batch_counts batch : ∀ c,
  WikiHow.queue (download_batch batch c) = WikiHow.queue c ∧
  WikiHow.seen (download_batch batch c) = WikiHow.seen c ∧
  tracked (WikiHow.cs c) ⊆ tracked (WikiHow.cs (download_batch batch c)) ∧
  (Z.of_nat (WikiHow.total_downloaded (download_batch batch c))
     ≤ Z.max (Z.of_nat (WikiHow.total_downloaded c)) cap)%Z ∧
  ∃ t, trace (WikiHow.cs (download_batch batch c)) = trace (WikiHow.cs c) ++ t ∧
       fetches t `prefix_of` batch ∧
       WikiHow.total_downloaded (download_batch batch c)
         = WikiHow.total_downloaded c + length (appends log t).
Proof.
  induction batch as [|url rest IH]; intros c; simpl.
  { split_and!; [done|done|done|lia|]. exists []. rewrite app_nil_r.
    split_and!; [done|done|simpl; lia]. }
  destruct (bool_decide _) eqn:Hcap.
  { split_and!; [done|done|done|lia|]. exists []. rewrite app_nil_r.
    split_and!; [done|apply prefix_nil|simpl; lia]. }
  apply bool_decide_eq_false in Hcap.
  destruct (download_one_counts url c) as (Q1 & S1 & K1 & t1 & E1 & F1 & Hone & C1).
  destruct (IH (download_one url c)) as (Q2 & S2 & K2 & B2 & t2 & E2 & F2 & C2).
  split_and!; [congruence|congruence|by etrans|lia|].
  exists (t1 ++ t2). rewrite E2, E1, <-app_assoc. split; [done|].
  rewrite fetches_app, appends_app, length_app, F1. split; [|lia].
  by apply prefix_cons.
Qed.

Lemma discover_trace batch c :
  ∃ t, trace (discover batch c).1 = trace (WikiHow.cs c) ++ t ∧
       fetches t = [] ∧ appends log t = [].
Proof.
  unfold WikiHow.discover.
  assert (∀ acc : state * gset string,
            ∃ t, trace (foldl (λ acc url,
                     (called (emit (Lookup url) acc.1),
                      acc.2 ∪ (extract_article_links (calls acc.1) url
                               ∖ tracked acc.1 ∖ WikiHow.seen c))) acc batch).1
                   = trace acc.1 ++ t ∧ fetches t = [] ∧ appends log t = []) as H.
  { induction batch as [|url batch IH]; intros acc; simpl.
    { exists []. by rewrite app_nil_r. }
    destruct (IH (called (emit (Lookup url) acc.1),
                  acc.2 ∪ (extract_article_links (calls acc.1) url
                           ∖ tracked acc.1 ∖ WikiHow.seen c)))
      as (t & E & F & A).
    exists (Lookup url :: t). simpl in E. rewrite E, <-app_assoc. by split. }
  apply (H (WikiHow.cs c, ∅)).
Qed.

(** X13: one turn of the crawl loop never takes the counter past the
    cap, and the counter goes up by the number of lines the turn
    appends to the track file; so it is for every number of turns the
    loop makes. *)
Theorem wikihow_counter_stays_within_cap (fuel : nat) (c : WikiHow.crawl) :
  (Z.of_nat (WikiHow.total_downloaded (turn c))
     ≤ Z.max (Z.of_nat (WikiHow.total_downloaded c)) cap)%Z ∧
  (∃ t, trace (WikiHow.cs (turn c)) = trace (WikiHow.cs c) ++ t ∧
        WikiHow.total_downloaded (turn c)
          = WikiHow.total_downloaded c + length (appends log t)) ∧
  ∀ c', loop fuel c = Some c' →
    (Z.of_nat (WikiHow.total_downloaded c')
       ≤ Z.max (Z.of_nat (WikiHow.total_downloaded c)) cap)%Z ∧
    (WikiHow.queue c' = [] ∨
     (cap ≤ Z.of_nat (WikiHow.total_downloaded c'))%Z) ∧
    ∃ t, trace (WikiHow.cs c') = trace (WikiHow.cs c) ++ t ∧
         WikiHow.total_downloaded c'
           = WikiHow.total_downloaded c + length (appends log t).
Proof.
  assert (∀ c,
    (Z.of_nat (WikiHow.total_downloaded (turn c))
       ≤ Z.max (Z.of_nat (WikiHow.total_downloaded c)) cap)%Z ∧
    (∃ t, trace (WikiHow.cs (turn c)) = trace (WikiHow.cs c) ++ t ∧
          WikiHow.total_downloaded (turn c)
            = WikiHow.total_downloaded c + length (appends log t))) as Hturn.
  { clear c. intros c. unfold WikiHow.turn.
    destruct (fill_batch (WikiHow.queue c) [] (tracked (WikiHow.cs c)))
      as [q batch].
    set (c0 := {| WikiHow.cs := WikiHow.cs c; WikiHow.queue := q;
                  WikiHow.seen := WikiHow.seen c;
                  WikiHow.total_downloaded := WikiHow.total_downloaded c |}).
    destruct (download_batch_counts batch c0) as (_ & _ & _ & B & t1 & E1 & _ & C1).
    destruct (discover_trace batch (download_batch batch c0)) as (t2 & E2 & _ & A2).
    unfold WikiHow.expand.
    destruct (discover batch (download_batch batch c0)) as [st new_links].
    simpl in *. split; [done|]. exists (t1 ++ t2).
    rewrite E2, E1, <-app_assoc. split; [done|].
    rewrite appends_app, A2, app_nil_r. done. }
  split; [apply Hturn|]. split; [apply Hturn|].
  revert c. induction fuel as [|fuel IH]; intros c c'; simpl.
  - destruct (WikiHow.queue c) eqn:Hq.
    + intros [= <-]. split_and!; [lia|by left|]. exists [].
      rewrite app_nil_r. simpl. split; [done|lia].
    + destruct (bool_decide _) eqn:Hcap; [done|].
      apply bool_decide_eq_false in Hcap.
      intros [= <-]. split_and!; [lia|right; lia|]. exists [].
      rewrite app_nil_r. simpl. split; [done|lia].
  - destruct (WikiHow.queue c) eqn:Hq.
    + intros [= <-]. split_and!; [lia|by left|]. exists [].
      rewrite app_nil_r. simpl. split; [done|lia].
    + destruct (bool_decide _) eqn:Hcap.
      * apply bool_decide_eq_true in Hcap. intros H.
        destruct (IH (turn c) c' H) as (B & Q & t2 & E2 & C2).
        destruct (Hturn c) as (B1 & t1 & E1 & C1).
        split_and!; [lia|done|]. exists (t1 ++ t2).
        rewrite E2, E1, <-app_assoc. split; [done|].
        rewrite appends_app, length_app. lia.
      * apply bool_decide_eq_false in Hcap.
        intros [= <-]. split_and!; [lia|right; lia|]. exists [].
        rewrite app_nil_r. simpl. split; [done|lia].
Qed.


Lemma fill_batch_length queue : ∀ batch tracked,
  length (fill_batch queue batch tracked).1 ≤ length queue.
Proof.
  induction queue as [|url rest IH]; intros batch tracked; simpl; [done|].
  destruct (bool_decide _); [|done].
  destruct (bool_decide _); etrans; try apply IH; lia.
Qed.

Lemma discover_within (U : gset string) batch c :
  (∀ k u, extract_article_links k u ⊆ U) →
  (discover batch c).2 ⊆ U ∖ WikiHow.seen c.
Proof.
  intros HU. unfold WikiHow.discover.
  assert (∀ acc : state * gset string,
            acc.2 ⊆ U ∖ WikiHow.seen c →
            (foldl (λ acc url,
               (called (emit (Lookup url) acc.1),
                acc.2 ∪ (extract_article_links (calls acc.1) url
                         ∖ tracked acc.1 ∖ WikiHow.seen c))) acc batch).2
              ⊆ U ∖ WikiHow.seen c) as H.
  { induction batch as [|url batch IH]; intros acc Hacc; simpl; [done|].
    apply IH. simpl. pose proof (HU (calls acc.1) url) as Hsub.
    revert Hacc Hsub. generalize (extract_article_links (calls acc.1) url).
    generalize (tracked acc.1). generalize acc.2. clear. set_solver. }
  apply (H (WikiHow.cs c, ∅)). simpl. clear. set_solver.
Qed.

(** One turn on a queue that is not empty uses up the measure of the
    loop: the length of the queue and the links not seen yet. *)
Lemma turn_decreases (U : gset string) c :
  (1 ≤ WikiHow.batch_size cfg)%Z →
  (∀ k u, extract_article_links k u ⊆ U) →
  WikiHow.queue c ≠ [] →
  length (WikiHow.queue (turn c)) + size (U ∖ WikiHow.seen (turn c))
    < length (WikiHow.queue c) + size (U ∖ WikiHow.seen c).
Proof.
  intros Hbs HU Hq. unfold WikiHow.turn.
  destruct (WikiHow.queue c) as [|url rest] eqn:Eq; [done|].
  assert (length (fill_batch (url :: rest) [] (tracked (WikiHow.cs c))).1
          ≤ length rest) as Hpop.
  { simpl. rewrite bool_decide_eq_true_2 by (simpl; lia).
    destruct (bool_decide _); apply fill_batch_length. }
  destruct (fill_batch (url :: rest) [] (tracked (WikiHow.cs c))) as [q batch].
  simpl in Hpop.
  set (c0 := {| WikiHow.cs := WikiHow.cs c; WikiHow.queue := q;
                WikiHow.seen := WikiHow.seen c;
                WikiHow.total_downloaded := WikiHow.total_downloaded c |}).
  destruct (download_batch_counts batch c0) as (Q & S & _).
  pose proof (discover_within U batch (download_batch batch c0) HU) as Hnew.
  unfold WikiHow.expand.
  destruct (discover batch (download_batch batch c0)) as [st new_links].
  simpl in *. rewrite Q, S in *. simpl in *.
  rewrite length_app, sorted_length.
  assert (size (U ∖ WikiHow.seen c)
          = size (U ∖ (WikiHow.seen c ∪ new_links)) + size new_links) as ->.
  { rewrite <-size_union by (clear; set_solver). f_equal.
    apply set_eq. intros u. revert Hnew. clear. intros Hnew.
    specialize (Hnew u). rewrite !elem_of_union, !elem_of_difference,
      elem_of_union in *.
    destruct (decide (u ∈ new_links)); tauto. }
  lia.
Qed.

(** X14: when the site has finitely many article links, the crawl loop
    ends: a fuel of the length of the queue and the number of links not
    yet seen is enough, whatever the crawler answers. *)
Theorem wikihow_crawl_terminates (U : gset string) (fuel : nat)
    (c : WikiHow.crawl) :
  (1 ≤ WikiHow.batch_size cfg)%Z →
  (∀ k u, extract_article_links k u ⊆ U) →
  length (WikiHow.queue c) + size (U ∖ WikiHow.seen c) ≤ fuel →
  ∃ c', loop fuel c = Some c'.
Proof.
  intros Hbs HU. revert c. induction fuel as [|fuel IH]; intros c Hfuel; simpl.
  - destruct (WikiHow.queue c); [by eexists|simpl in Hfuel; lia].
  - destruct (WikiHow.queue c) as [|url rest] eqn:Hq; [by eexists|].
    destruct (bool_decide _); [|by eexists].
    apply IH. pose proof (turn_decreases U c Hbs HU) as Hdec.
    rewrite Hq in Hdec. specialize (Hdec ltac:(done)). simpl in *. lia.
Qed.

End WikiHowLoop.

Lemma wikihow_crawl_terminates_witness :
  ∃ c', WikiHow.loop sample_down (λ _ _, {[ "a"; "b" ]})
          {| WikiHow.download_dir := "out"; WikiHow.track_file := "t.txt";
             WikiHow.max_downloads := 5; WikiHow.batch_size := 2 |}
          3
          {| WikiHow.cs := start ∅ ∅ ∅; WikiHow.queue := ["a"];
             WikiHow.seen := {[ "a" ]}; WikiHow.total_downloaded := 0 |}
        = Some c'.
Proof.
  assert (1 ≤ 2)%Z as H1 by lia.
  assert (∀ (k : nat) (u : string),
            ({[ "a"; "b" ]} : gset string) ⊆ {[ "a"; "b" ]}) as H2 by done.
  assert (length ["a"] + size (({[ "a"; "b" ]} : gset string) ∖ {[ "a" ]}) ≤ 3)
    as H3 by (vm_compute; lia).
  exact (wikihow_crawl_terminates sample_down (λ _ _, {[ "a"; "b" ]})
           {| WikiHow.download_dir := "out"; WikiHow.track_file := "t.txt";
              WikiHow.max_downloads := 5; WikiHow.batch_size := 2 |}
           {[ "a"; "b" ]} 3
           {| WikiHow.cs := start ∅ ∅ ∅; WikiHow.queue := ["a"];
              WikiHow.seen := {[ "a" ]}; WikiHow.total_downloaded := 0 |}
           H1 H2 H3).
Defined.

(** * The cap on the downloads (independent.py, wiki-how.py) *)

(** C2, as stated, fails: [independent.py] tests the cap before a batch,
    not before a URL.  With a cap of one, batches of two and three
    candidates that all succeed, the first batch downloads two URLs:
    two are marked, not one. *)
Lemma cap_is_passed_within_a_batch :
  ∃ r, Independent.main sample_now sample_up sample_valid sample_str (λ _, ∅)
         (sample_cfg 1 3 2) true three_candidates = Ok r ∧
       Independent.count r = 2 ∧
       tracked (Independent.st r) = {[ node_1; node_2 ]} ∧
       fetches (trace (Independent.st r)) = [node_1; node_2].
Proof.
  eexists. split; [vm_compute; reflexivity|].
  split_and!; vm_compute; reflexivity.
Qed.

(** The loop of [wiki-how.py] tests the cap before every URL. *)
Lemma wikihow_loop_within_cap (arun : nat → string → response)
    (extract_article_links : nat → string → gset string)
    (cfg : WikiHow.config) (fuel : nat) : ∀ c c',
  WikiHow.loop arun extract_article_links cfg fuel c = Some c' →
  (Z.of_nat (WikiHow.total_downloaded c')
     ≤ Z.max (Z.of_nat (WikiHow.total_downloaded c))
             (WikiHow.max_downloads cfg))%Z ∧
  (WikiHow.queue c' = [] ∨
   (WikiHow.max_downloads cfg ≤ Z.of_nat (WikiHow.total_downloaded c'))%Z).
Proof.
  assert (∀ c,
    (Z.of_nat (WikiHow.total_downloaded
                 (WikiHow.turn arun extract_article_links cfg c))
       ≤ Z.max (Z.of_nat (WikiHow.total_downloaded c))
               (WikiHow.max_downloads cfg))%Z) as Hturn.
  { intros c. unfold WikiHow.turn.
    destruct (WikiHow.fill_batch cfg (WikiHow.queue c) []
                (tracked (WikiHow.cs c))) as [q batch].
    set (c0 := {| WikiHow.cs := WikiHow.cs c; WikiHow.queue := q;
                  WikiHow.seen := WikiHow.seen c;
                  WikiHow.total_downloaded := WikiHow.total_downloaded c |}).
    destruct (download_batch_counts arun cfg batch c0) as (_ & _ & _ & B & _).
    unfold WikiHow.expand.
    destruct (WikiHow.discover extract_article_links batch
                (WikiHow.download_batch arun cfg batch c0)) as [st new_links].
    exact B. }
  induction fuel as [|fuel IH]; intros c c'; simpl.
  - destruct (WikiHow.queue c) eqn:Hq.
    + intros [= <-]. split; [lia|by left].
    + destruct (bool_decide _) eqn:Hcap; [done|].
      apply bool_decide_eq_false in Hcap.
      intros [= <-]. split; [lia|right; lia].
  - destruct (WikiHow.queue c) eqn:Hq.
    + intros [= <-]. split; [lia|by left].
    + destruct (bool_decide _) eqn:Hcap.
      * apply bool_decide_eq_true in Hcap. intros H.
        destruct (IH _ c' H) as (B & Q). pose proof (Hturn c). split; [lia|done].
      * apply bool_decide_eq_false in Hcap.
        intros [= <-]. split; [lia|right; lia].
Qed.

(** C2, amended: [independent.py] tests the cap between batches only.
    With a positive batch size, a track file of complete lines kept
    apart from the other files, a crawler that answers every call with a
    valid article, at least one attempt per URL and the failures of
    earlier runs reset, [main] returns with its count equal to the
    number of tracked URLs; a run that starts below the cap ends with
    the count at the cap or above it, by less than one batch, or with
    every candidate tracked; a run that starts at the cap dispatches
    nothing.  [wiki-how.py] tests the cap before every URL: when its
    loop ends, the counter has not passed the cap, and it is at the cap
    unless the queue is empty. *)
Theorem cap_is_tested_between_batches
    (now : nat → string) (arun : nat → string → response)
    (is_valid_article : string → bool) (str : exn → string)
    (cached_links : string → gset string) (cfg : Independent.config)
    (d : fs)
    (extract_article_links : nat → string → gset string)
    (wcfg : WikiHow.config) (fuel : nat) (c c' : WikiHow.crawl) :
  Independent.error_file cfg ≠ Independent.track_file cfg →
  Independent.urls_file cfg ≠ Independent.track_file cfg →
  (∀ u, Independent.outfile_of cfg u ≠ Independent.track_file cfg) →
  whole_lines d (Independent.track_file cfg) →
  (0 < Independent.batch_size cfg)%Z →
  all_up arun is_valid_article →
  (1 ≤ Independent.retry_count cfg)%Z →
  WikiHow.loop arun extract_article_links wcfg fuel c = Some c' →
  (∃ tracked0 cands r,
     Independent.load_tracked_urls d (Independent.track_file cfg)
       = Ok tracked0 ∧
     Independent.load_candidate_urls d (Independent.urls_file cfg)
       = Ok cands ∧
     Independent.main now arun is_valid_article str cached_links cfg true d
       = Ok r ∧
     Independent.count r = size (tracked (Independent.st r)) ∧
     tracked0 ⊆ tracked (Independent.st r) ∧
     ((Z.of_nat (size tracked0) < Independent.max_downloads cfg)%Z →
      (Z.of_nat (Independent.count r)
         < Independent.max_downloads cfg + Independent.batch_size cfg)%Z) ∧
     ((Independent.max_downloads cfg ≤ Z.of_nat (Independent.count r))%Z ∨
      ∀ u, u ∈ cands → u ∈ tracked (Independent.st r)) ∧
     ((Independent.max_downloads cfg ≤ Z.of_nat (size tracked0))%Z →
      trace (Independent.st r) = [] ∧ tracked (Independent.st r) = tracked0)) ∧
  ((Z.of_nat (WikiHow.total_downloaded c')
      ≤ Z.max (Z.of_nat (WikiHow.total_downloaded c))
              (WikiHow.max_downloads wcfg))%Z ∧
   (WikiHow.queue c' = [] ∨
    (WikiHow.max_downloads wcfg ≤ Z.of_nat (WikiHow.total_downloaded c'))%Z)).
Proof.
  intros He Hu Hout Hlog Hbs Hup Hrc Hloop.
  split; [|by eapply wikihow_loop_within_cap].
  destruct (load_tracked_urls_returns d (Independent.track_file cfg))
    as [tracked0 Ht].
  destruct (load_candidate_urls_returns d (Independent.urls_file cfg))
    as [cands Hc].
  exists tracked0, cands. unfold Independent.main.
  rewrite Ht. simpl. rewrite Hc. simpl.
  destruct (range_from_0_cases (length cands) (Independent.batch_size cfg))
    as [[Hz _]|[[Hneg _]|[_ ->]]]; [lia|lia|]. simpl.
  destruct (rounds_keep now arun is_valid_article str cached_links cfg He Hu
              ((λ j, j * Z.to_nat (Independent.batch_size cfg)) <$>
                 seq 0 ((length cands + Z.to_nat (Independent.batch_size cfg) - 1)
                        / Z.to_nat (Independent.batch_size cfg)))
              {| Independent.st := start d tracked0 ∅;
                 Independent.candidates := cands;
                 Independent.count := size tracked0;
                 Independent.total_successful := 0 |})
    as (r & Hr & Hcount & Hmono & Hbelow & Hstop & Hall).
  - simpl. apply spaced_range. lia.
  - simpl. eapply Forall_impl; [by eapply candidates_one_line|].
    intros u Hin. by split.
  - simpl. by apply start_log_matches.
  - done.
  - exists r. simpl in *. split_and!; [done|done|done|done|done| | |].
    + intros Hlt. rewrite Z2Nat.id in Hbelow by lia. apply Hbelow. lia.
    + destruct (Hall Hup Hrc eq_refl) as [?|Hin]; [by left|]. right.
      intros u Hin'.
      destruct (range_covers (Z.to_nat (Independent.batch_size cfg)) cands u)
        as (i & Hi & Hb); [lia|done|].
      by apply (Hin i u).
    + intros Hge. by rewrite (Hstop Hge).
Qed.

(** The cap of one with batches of two on three candidates in
    [independent.py]; in [wiki-how.py] the cap of two with batches of
    one on a site whose pages link to three articles: the loop stops
    with two downloads and a URL left in the queue. *)
Lemma cap_is_tested_between_batches_witness :
  ∃ c',
    WikiHow.loop sample_up (λ _ _, {[ "a"; "b"; "c" ]}) (sample_wikihow 2 1)
      3 from_a = Some c' ∧
    WikiHow.total_downloaded c' = 2 ∧ WikiHow.queue c' = ["c"] ∧
    (∃ tracked0 cands r,
       Independent.load_tracked_urls three_candidates "t.txt" = Ok tracked0 ∧
       Independent.load_candidate_urls three_candidates "u.txt" = Ok cands ∧
       Independent.main sample_now sample_up sample_valid sample_str (λ _, ∅)
         (sample_cfg 1 3 2) true three_candidates = Ok r ∧
       Independent.count r = size (tracked (Independent.st r)) ∧
       tracked0 ⊆ tracked (Independent.st r) ∧
       ((Z.of_nat (size tracked0) < 1)%Z →
        (Z.of_nat (Independent.count r) < 1 + 2)%Z) ∧
       ((1 ≤ Z.of_nat (Independent.count r))%Z ∨
        ∀ u, u ∈ cands → u ∈ tracked (Independent.st r)) ∧
       ((1 ≤ Z.of_nat (size tracked0))%Z →
        trace (Independent.st r) = [] ∧ tracked (Independent.st r) = tracked0)) ∧
    ((Z.of_nat (WikiHow.total_downloaded c')
        ≤ Z.max (Z.of_nat (WikiHow.total_downloaded from_a)) 2)%Z ∧
     (WikiHow.queue c' = [] ∨ (2 ≤ Z.of_nat (WikiHow.total_downloaded c'))%Z)).
Proof.
  assert ("e.txt" ≠ "t.txt") as H1 by discriminate.
  assert ("u.txt" ≠ "t.txt") as H2 by discriminate.
  assert (whole_lines three_candidates "t.txt") as H3 by (left; reflexivity).
  assert (0 < 2)%Z as H4 by lia.
  assert (1 ≤ 3)%Z as H5 by lia.
  destruct (WikiHow.loop sample_up (λ _ _, {[ "a"; "b"; "c" ]})
              (sample_wikihow 2 1) 3 from_a) as [c'|] eqn:E;
    [|vm_compute in E; discriminate E].
  pose proof (cap_is_tested_between_batches sample_now sample_up sample_valid
                sample_str (λ _, ∅) (sample_cfg 1 3 2) three_candidates
                (λ _ _, {[ "a"; "b"; "c" ]}) (sample_wikihow 2 1) 3 from_a c'
                H1 H2 (sample_artifact_is_not_log 1 3 2) H3 H4
                sample_up_all_up H5 E) as H.
  exists c'. split; [reflexivity|].
  split; [|split; [|exact H]].
  - vm_compute in E. injection E as <-. reflexivity.
  - vm_compute in E. injection E as <-. reflexivity.
Defined.

(** * The loader of wiki-how.py *)

(** X15: the loader of [wiki-how.py] has no [try] and does not skip
    blank lines: what [open] or the decoding raises escapes, where
    [independent.py] returns the empty set, and on a readable file it
    returns the set [independent.py] returns, with the empty string
    added exactly when a line of the file is blank. *)
Theorem wikihow_loader_keeps_blank_lines (cfg : WikiHow.config) (d : fs) :
  match read_text d (WikiHow.track_file cfg) with
  | Raise e =>
      WikiHow.load_tracked_urls cfg d = Raise e ∧
      Independent.load_tracked_urls d (WikiHow.track_file cfg) = Ok ∅
  | Ok text =>
      ∃ s s',
        WikiHow.load_tracked_urls cfg d = Ok s ∧
        Independent.load_tracked_urls d (WikiHow.track_file cfg) = Ok s' ∧
        s ∖ {[""]} = s' ∧ ("" ∉ s') ∧
        ("" ∈ s ↔ ∃ l, l ∈ readlines text ∧ blank l = true)
  end.
Proof.
  unfold WikiHow.load_tracked_urls, Independent.load_tracked_urls,
    Independent.load_tracked_urls_body, read_text.
  destruct (d !! WikiHow.track_file cfg) as [[text| |]|]; simpl; try done.
  unfold url_lines.
  generalize (readlines (universal_newlines text)). intros ls.
  eexists _, _. split; [done|]. split; [done|].
  split_and!.
  - apply set_eq. intros u.
    rewrite elem_of_difference, !elem_of_list_to_set, list_elem_of_filter.
    rewrite not_elem_of_singleton. naive_solver.
  - rewrite elem_of_list_to_set, list_elem_of_filter. naive_solver.
  - rewrite elem_of_list_to_set, list_elem_of_fmap. split.
    + intros (l & Hl & Hin). exists l. split; [done|].
      symmetry in Hl. revert Hl. clear. unfold strip.
      induction l as [|c l IH]; [done|]. simpl.
      destruct (isspace c) eqn:Hc; [auto|].
      simpl. destruct (rstrip l); [by rewrite Hc|done].
    + intros (l & Hin & Hb). exists l. split; [|done].
      symmetry. by apply strip_blank.
Qed.

(** * The batches of bbc-articles.py *)

Lemma chunks_spec n : ∀ fuel urls,
  0 < n → length urls ≤ fuel →
  concat (BBC.chunks fuel n urls) = urls ∧
  Forall (λ b, 0 < length b ≤ n) (BBC.chunks fuel n urls) ∧
  length (BBC.chunks fuel n urls) = (length urls + n - 1) / n.
Proof.
  intros fuel urls Hn. revert urls.
  induction fuel as [|fuel IH]; intros urls Hfuel.
  { destruct urls; [|simpl in Hfuel; lia]. simpl.
    split_and!; [done|constructor|].
    symmetry. apply Nat.div_small. lia. }
  destruct urls as [|u urls].
  { simpl. split_and!; [done|constructor|].
    symmetry. apply Nat.div_small. lia. }
  cbn [BBC.chunks].
  destruct (IH (drop n (u :: urls))) as (I1 & I2 & I3).
  { rewrite length_drop. simpl in *. lia. }
  split_and!.
  - cbn [concat]. rewrite I1. apply take_drop.
  - constructor; [|done]. rewrite length_take. simpl. lia.
  - cbn [length]. rewrite I3, length_drop.
    change (length (u :: urls)) with (S (length urls)).
    assert (0 < S (length urls)) as Hpos by lia.
    revert Hpos. generalize (S (length urls)). intros m Hpos.
    destruct (decide (m ≤ n)) as [Hle|Hgt].
    + replace (m - n) with 0 by lia.
      rewrite (Nat.div_small (0 + n - 1)) by lia.
      apply Nat.div_unique with (r := m - 1); lia.
    + replace (m + n - 1) with ((m - n + n - 1) + 1 * n) by lia.
      rewrite Nat.div_add by lia. lia.
Qed.

(** X16: the batches of [run_scraper] cut the list of URLs into
    consecutive pieces: joined in order they give the list back, every
    batch holds at least one URL and at most [batch_size], and there are
    as many as the size asks for; a size of zero makes [range] raise
    [ValueError], whatever the list. *)
Theorem batches_partition_the_urls (batch_size : nat) (urls : list string) :
  match BBC.batches_of batch_size urls with
  | Ok batches =>
      0 < batch_size ∧
      concat batches = urls ∧
      Forall (λ b, 0 < length b ≤ batch_size) batches ∧
      length batches = (length urls + batch_size - 1) / batch_size
  | Raise e => e = ValueError ∧ batch_size = 0
  end.
Proof.
  unfold BBC.batches_of. destruct batch_size as [|n].
  - by split.
  - destruct (chunks_spec (S n) (length urls) urls) as (H1 & H2 & H3);
      [lia|lia|]. split_and!; [lia|done|done|done].
Qed.

(** * The run of bbc-articles.py, had its functions been methods *)


Section BBCRecorder.

Variable now : nat → string.
Variable float_add : BBC.json → BBC.json → string.

Local Abbreviation update_progress := (BBC.update_progress now float_add).

Lemma same_outside_refl w : same_outside w w.
Proof. done. Qed.

Lemma same_outside_trans w1 w2 w3 :
  same_outside w1 w2 → same_outside w2 w3 → same_outside w1 w3.
Proof. intros (?&?&?) (?&?&?). split_and!; congruence. Qed.

Lemma dump_outside v w : same_outside w (BBC.dump v w).1.
Proof. unfold BBC.dump. by destruct (BBC.writable w). Qed.

Lemma initialize_progress_file_outside logger w :
  same_outside w (BBC.initialize_progress_file now logger w).1.
Proof.
  unfold BBC.initialize_progress_file, BBC.dump. simpl.
  destruct (BBC.writable w) eqn:Hw; simpl; [done|].
  destruct logger; simpl; [|done]. by rewrite Hw.
Qed.

Lemma load_or_reset_outside w : same_outside w (BBC.load_or_reset now w).1.
Proof.
  unfold BBC.load_or_reset.
  pose proof (initialize_progress_file_outside true w) as H.
  destruct (BBC.load w) as [v|e]; [done|].
  destruct e; try done;
    by destruct (BBC.initialize_progress_file now true w) as [w' [|?]].
Qed.

Lemma update_progress_outside c f w : same_outside w (update_progress c f w).1.
Proof.
  unfold BBC.update_progress, BBC.update_progress_body.
  pose proof (load_or_reset_outside w) as H.
  destruct (BBC.load_or_reset now w) as [w1 [d|e]]; simpl in *.
  2:{ by destruct (is_Exception e). }
  destruct (_ ≫= _) as [d1|e]; simpl.
  2:{ by destruct (is_Exception e). }
  destruct (BBC.setitem d1 _ _) as [d2|e]; simpl.
  2:{ by destruct (is_Exception e). }
  pose proof (dump_outside d2 (BBC.tick w1)) as H2.
  destruct (BBC.dump d2 (BBC.tick w1)) as [w2 [|e]]; simpl in *.
  - eapply same_outside_trans; [exact H|]. exact H2.
  - destruct (is_Exception e); (eapply same_outside_trans; [exact H|exact H2]).
Qed.

End BBCRecorder.


Lemma scraped_app t1 t2 :
  BBC.scraped (t1 ++ t2) = BBC.scraped t1 ++ BBC.scraped t2.
Proof. apply omap_app. Qed.

Section BBCWorker.

Variable now : nat → string.
Variable float_add : BBC.json → BBC.json → string.
Variable scrape_article : string → option BBC.json.
Variable output_path : string → string.

Local Abbreviation update_progress := (BBC.update_progress now float_add).
Local Abbreviation process_article :=
  (BBC.process_article now float_add scrape_article output_path).
Local Abbreviation work := (BBC.work now float_add scrape_article output_path).

Lemma process_article_spec (url : string) (w : BBC.world) :
  (process_article url w).2
    = Ok (bool_decide (output_path url ∈ BBC.articles w)
          || bool_decide (is_Some (scrape_article url))) ∧
  BBC.finalizations (BBC.trace (process_article url w).1)
    = BBC.finalizations (BBC.trace w) ∧
  BBC.scraped (BBC.trace (process_article url w).1)
    = BBC.scraped (BBC.trace w)
      ++ (if bool_decide (output_path url ∈ BBC.articles w) then [] else [url]) ∧
  BBC.articles w ⊆ BBC.articles (process_article url w).1.
Proof.
  unfold BBC.process_article, BBC.process_article_body.
  destruct (bool_decide (output_path url ∈ BBC.articles w)) eqn:Hx.
  - pose proof (update_progress_returns now float_add (Some url) None w) as Hr.
    pose proof (update_progress_outside now float_add (Some url) None w) as (Ht & Ha & _).
    destruct (update_progress (Some url) None w) as [w1 r]. simpl in *.
    subst r. simpl. rewrite Ht, Ha, app_nil_r. done.
  - set (w0 := BBC.emit (BBC.Scraped url) (BBC.emit BBC.Napped w)).
    assert (BBC.finalizations (BBC.trace w0) = BBC.finalizations (BBC.trace w))
      as Hf0.
    { unfold w0, BBC.finalizations. simpl. rewrite <-app_assoc, omap_app.
      simpl. by rewrite app_nil_r. }
    assert (BBC.scraped (BBC.trace w0) = BBC.scraped (BBC.trace w) ++ [url])
      as Hs0.
    { unfold w0, BBC.scraped. simpl. rewrite <-app_assoc, omap_app. done. }
    destruct (scrape_article url) as [article|].
    + set (w1 := if BBC.writable w0
                 then BBC.emit (BBC.Saved (output_path url))
                        (BBC.with_articles ({[output_path url]} ∪ BBC.articles w0) w0)
                 else w0).
      assert (BBC.finalizations (BBC.trace w1) = BBC.finalizations (BBC.trace w0)
              ∧ BBC.scraped (BBC.trace w1) = BBC.scraped (BBC.trace w0)
              ∧ BBC.articles w ⊆ BBC.articles w1) as (Hf1 & Hs1 & Ha1).
      { unfold w1. destruct (BBC.writable w0); simpl.
        - unfold BBC.finalizations, BBC.scraped. rewrite !omap_app. simpl.
          rewrite !app_nil_r. split_and!; [done|done|set_solver].
        - done. }
      pose proof (update_progress_returns now float_add (Some url) None w1) as Hr.
      pose proof (update_progress_outside now float_add (Some url) None w1) as (Ht & Ha & _).
      destruct (update_progress (Some url) None w1) as [w2 r]. simpl in *.
      subst r. simpl. rewrite Ht, Ha, Hf1, Hs1, Hf0, Hs0. done.
    + pose proof (update_progress_returns now float_add None (Some url) w0) as Hr.
      pose proof (update_progress_outside now float_add None (Some url) w0) as (Ht & Ha & _).
      destruct (update_progress None (Some url) w0) as [w2 r]. simpl in *.
      subst r. simpl. rewrite Ht, Ha, Hf0, Hs0. done.
Qed.


(** The futures of a batch: every URL is counted once, none scraped
    twice, nothing finalized. *)
Lemma work_counts urls : ∀ w success failure,
  (work urls w success failure).2.1 + (work urls w success failure).2.2
    = success + failure + length urls ∧
  BBC.finalizations (BBC.trace (work urls w success failure).1)
    = BBC.finalizations (BBC.trace w) ∧
  ∃ l, BBC.scraped (BBC.trace (work urls w success failure).1)
         = BBC.scraped (BBC.trace w) ++ l ∧ sublist l urls.
Proof.
  induction urls as [|url urls IH]; intros w success failure; simpl.
  { split_and!; [lia|done|]. exists []. by rewrite app_nil_r. }
  destruct (process_article_spec url w) as (Hr & Hf & Hs & _).
  destruct (process_article url w) as [w1 r]. simpl in *. subst r.
  assert (∃ l1, BBC.scraped (BBC.trace w1) = BBC.scraped (BBC.trace w) ++ l1 ∧
                sublist l1 [url]) as (l1 & Hs1 & Hl1).
  { destruct (bool_decide (output_path url ∈ BBC.articles w)); eexists;
      (split; [exact Hs|]); [apply sublist_nil_l|done]. }
  destruct (_ || _).
  - destruct (IH w1 (S success) failure) as (I1 & I2 & l & I3 & I4).
    split_and!; [lia|congruence|]. exists (l1 ++ l).
    rewrite I3, Hs1, <-app_assoc. split; [done|].
    by apply (sublist_app l1 [url] l urls).
  - destruct (IH w1 success (S failure)) as (I1 & I2 & l & I3 & I4).
    split_and!; [lia|congruence|]. exists (l1 ++ l).
    rewrite I3, Hs1, <-app_assoc. split; [done|].
    by apply (sublist_app l1 [url] l urls).
Qed.

(** X17: [process_article] lets nothing escape and never finalizes; it
    returns [True] exactly when the article file was already there or
    the page could be scraped, also when the file could then not be
    written; it scrapes the URL at most once, and only when no article
    file was there. *)
Theorem process_article_reports_scraping (url : string) (w : BBC.world) :
  ∃ ok, (process_article url w).2 = Ok ok ∧
    (ok = true ↔
     output_path url ∈ BBC.articles w ∨ is_Some (scrape_article url)) ∧
    BBC.finalizations (BBC.trace (process_article url w).1)
      = BBC.finalizations (BBC.trace w) ∧
    (output_path url ∈ BBC.articles w →
     BBC.scraped (BBC.trace (process_article url w).1)
       = BBC.scraped (BBC.trace w)) ∧
    (output_path url ∉ BBC.articles w →
     BBC.scraped (BBC.trace (process_article url w).1)
       = BBC.scraped (BBC.trace w) ++ [url]).
Proof.
  destruct (process_article_spec url w) as (Hr & Hf & Hs & _).
  eexists. split; [exact Hr|]. split_and!; [|done|..].
  - rewrite orb_true_iff, !bool_decide_eq_true. done.
  - intros Hin. rewrite Hs, bool_decide_eq_true_2 by done. by rewrite app_nil_r.
  - intros Hin. by rewrite Hs, bool_decide_eq_false_2.
Qed.

End BBCWorker.

Section BBCBatch.

Variable now : nat → string.
Variable float_add : BBC.json → BBC.json → string.
Variable scrape_article : string → option BBC.json.
Variable output_path : string → string.
Variable interrupted : nat → bool.
Variable methods : list string.

Local Abbreviation work := (BBC.work now float_add scrape_article output_path).
Local Abbreviation run_batch :=
  (BBC.run_batch now float_add scrape_article output_path interrupted methods).
Local Abbreviation batch_loop :=
  (BBC.batch_loop now float_add scrape_article output_path interrupted methods).

Lemma run_batch_spec (urls_batch : list string) (batch_num : nat)
    (w : BBC.world) :
  "process_article" ∈ methods →
  BBC.finalizations (BBC.trace (run_batch urls_batch batch_num w).1)
    = BBC.finalizations (BBC.trace w) ∧
  (∃ l, BBC.scraped (BBC.trace (run_batch urls_batch batch_num w).1)
          = BBC.scraped (BBC.trace w) ++ l ∧ sublist l urls_batch) ∧
  (run_batch urls_batch batch_num w).1 = (work urls_batch w 0 0).1 ∧
  if interrupted batch_num
  then (run_batch urls_batch batch_num w).2 = Raise KeyboardInterrupt
  else ∃ success failure,
         (run_batch urls_batch batch_num w).2 = Ok (success, failure) ∧
         success + failure = length urls_batch.
Proof.
  intros Hm. unfold BBC.run_batch, BBC.method.
  rewrite (bool_decide_eq_true_2 _ Hm).
  assert (match urls_batch with [] => Ok () | _ :: _ => Ok () end = Ok ()) as ->
    by by destruct urls_batch.
  destruct (work_counts now float_add scrape_article output_path urls_batch w 0 0) as (Hc & Hf & Hs).
  destruct (work urls_batch w 0 0) as [w1 [success failure]]. simpl in *.
  destruct (interrupted batch_num); simpl.
  - by split_and!.
  - split_and!; [done|done|done|]. exists success, failure. by split.
Qed.


(** X18: a batch runs every one of its futures to the end, also when
    the main thread is interrupted while it waits: every URL of the
    batch is counted once, as a success or as a failure, no URL is
    scraped twice, the batch finalizes nothing, and it raises nothing
    but the interrupt. *)
Theorem batch_counts_every_url (urls_batch : list string) (batch_num : nat)
    (w : BBC.world) :
  "process_article" ∈ methods →
  (run_batch urls_batch batch_num w).1 = (work urls_batch w 0 0).1 ∧
  (work urls_batch w 0 0).2.1 + (work urls_batch w 0 0).2.2
    = length urls_batch ∧
  BBC.finalizations (BBC.trace (run_batch urls_batch batch_num w).1)
    = BBC.finalizations (BBC.trace w) ∧
  (∃ l, BBC.scraped (BBC.trace (run_batch urls_batch batch_num w).1)
          = BBC.scraped (BBC.trace w) ++ l ∧ sublist l urls_batch) ∧
  (run_batch urls_batch batch_num w).2
    = if interrupted batch_num then Raise KeyboardInterrupt
      else Ok (work urls_batch w 0 0).2.
Proof.
  intros Hm. destruct (run_batch_spec urls_batch batch_num w Hm)
    as (Hf & Hs & Hw & _).
  destruct (work_counts now float_add scrape_article output_path urls_batch w 0 0) as (Hc & _ & _).
  split_and!; [done|done|done|done|].
  unfold BBC.run_batch, BBC.method. rewrite (bool_decide_eq_true_2 _ Hm).
  assert (match urls_batch with [] => Ok () | _ :: _ => Ok () end = Ok ()) as ->
    by by destruct urls_batch.
  destruct (work urls_batch w 0 0) as [w1 counts]. simpl.
  by destruct (interrupted batch_num).
Qed.

End BBCBatch.

Section BBCRun.

Variable now : nat → string.
Variable float_add : BBC.json → BBC.json → string.
Variable float_positive : string → bool.
Variable percent : BBC.json → BBC.json → string.
Variable seconds_between : string → string → option string.
Variable scrape_article : string → option BBC.json.
Variable output_path : string → string.
Variable sorted_urls : list string.
Variable interrupted : nat → bool.
Variable methods : list string.

Local Abbreviation finalize_progress :=
  (BBC.finalize_progress now float_add float_positive percent seconds_between).
Local Abbreviation batch_loop :=
  (BBC.batch_loop now float_add scrape_article output_path interrupted methods).
Local Abbreviation run_scraper :=
  (BBC.run_scraper now float_add float_positive percent seconds_between
     scrape_article output_path sorted_urls interrupted methods).




End BBCRun.

Lemma batch_counts_every_url_witness :
  (BBC.run_batch sample_iso (λ _ _, "") (λ _, Some BBC.JNull) (λ u, u)
     (λ _, true) bound_methods ["a"; "b"] 1 no_progress).2
  = if true then Raise KeyboardInterrupt
    else Ok (BBC.work sample_iso (λ _ _, "") (λ _, Some BBC.JNull) (λ u, u)
               ["a"; "b"] no_progress 0 0).2.
Proof.
  assert ("process_article" ∈ bound_methods) as H
    by (unfold bound_methods; simpl; set_solver).
  exact (proj2 (proj2 (proj2 (proj2
    (batch_counts_every_url sample_iso (λ _ _, "") (λ _, Some BBC.JNull)
       (λ u, u) (λ _, true) bound_methods ["a"; "b"] 1 no_progress H))))).
Defined.


Section BBCResume.

Variable now : nat → string.
Variable float_add : BBC.json → BBC.json → string.
Variable float_positive : string → bool.
Variable percent : BBC.json → BBC.json → string.
Variable seconds_between : string → string → option string.
Variable scrape_article : string → option BBC.json.
Variable output_path : string → string.
Variable sorted_urls : list string.
Variable interrupted : nat → bool.
Variable methods : list string.
Variable futures_threading : bool.

Local Abbreviation main :=
  (BBC.main now float_add float_positive percent seconds_between scrape_article
     output_path sorted_urls interrupted methods futures_threading).
Local Abbreviation run_scraper :=
  (BBC.run_scraper now float_add float_positive percent seconds_between
     scrape_article output_path sorted_urls interrupted methods).

(** After the constructor the progress file is the fresh record, in
    which no URL is completed or failed. *)
Lemma remaining_after_init started last total w urls :
  BBC.progress w
    = Some (BBC.Doc (BBC.JDict
        (BBC.dict_set "total_articles" total
           [("started_at", BBC.JStr started);
            ("total_articles", BBC.JInt 0);
            ("completed_articles", BBC.JInt 0);
            ("failed_articles", BBC.JInt 0);
            ("completed_urls", BBC.JList []);
            ("failed_urls", BBC.JList []);
            ("status", BBC.JStr "running");
            ("last_updated", BBC.JStr last)]))) →
  BBC.remaining urls w = urls.
Proof.
  intros Hp. unfold BBC.remaining, BBC.load. rewrite Hp. simpl.
  induction urls as [|u urls IH]; [done|].
  rewrite filter_cons_True by set_solver. by rewrite IH.
Qed.

(** X20: [--resume] changes nothing.  The constructor starts a new run
    directory with a fresh progress file, and it is this file
    [run_scraper] reads to find the URLs to skip: it skips none. *)
Theorem resume_changes_nothing (count batch_size : nat) (w : BBC.world) :
  main count true batch_size w = main count false batch_size w.
Proof.
  unfold BBC.main, BBC.init, BBC.initialize_progress_file, BBC.dump. simpl.
  destruct (BBC.writable w) eqn:Hw; simpl; [|done].
  destruct futures_threading; [|done].
  destruct (BBC.method methods "run_scraper"); [|done].
  unfold BBC.run_scraper.
  destruct (BBC.method methods "get_article_urls"); [|done].
  unfold BBC.get_article_urls.
  destruct sorted_urls as [|u0 urls0] eqn:Hsorted; [done|].
  unfold BBC.load at 1 2. simpl. unfold BBC.dump. simpl. rewrite Hw. simpl.
  destruct (take count (u0 :: urls0)) as [|u urls] eqn:Htake; [done|].
  erewrite remaining_after_init; [done|]. simpl. reflexivity.
Qed.

End BBCResume.

(** * The progress record of bbc-articles.py *)

Lemma dict_get_set_eq k v items :
  BBC.dict_get k (BBC.dict_set k v items) = Some v.
Proof.
  induction items as [|[k' v'] items IH]; simpl.
  - by rewrite decide_True.
  - destruct (decide (k' = k)) as [->|Hne]; simpl.
    + by rewrite decide_True.
    + by rewrite decide_False.
Qed.

Lemma dict_get_set_ne k k' v items :
  k ≠ k' → BBC.dict_get k' (BBC.dict_set k v items) = BBC.dict_get k' items.
Proof.
  intros Hne. induction items as [|[k0 v0] items IH]; simpl.
  - by rewrite decide_False.
  - destruct (decide (k0 = k)) as [->|Hne0]; simpl.
    + by rewrite !decide_False.
    + destruct (decide (k0 = k')); [done|]. apply IH.
Qed.

Section BBCTally.

Variable now : nat → string.
Variable float_add : BBC.json → BBC.json → string.

Local Abbreviation update_progress := (BBC.update_progress now float_add).

Lemma count_completed items completed url :
  BBC.dict_get "completed_articles" items
    = Some (BBC.JInt (Z.of_nat (length completed))) →
  BBC.dict_get "completed_urls" items
    = Some (BBC.JList (BBC.JStr <$> completed)) →
  ∃ items',
    BBC.count_one float_add (BBC.JDict items) "completed_articles"
      "completed_urls" url = Ok (BBC.JDict items') ∧
    BBC.dict_get "completed_articles" items'
      = Some (BBC.JInt (Z.of_nat (length (completed ++ counted url)))) ∧
    BBC.dict_get "completed_urls" items'
      = Some (BBC.JList (BBC.JStr <$> (completed ++ counted url))) ∧
    BBC.dict_get "failed_articles" items' = BBC.dict_get "failed_articles" items ∧
    BBC.dict_get "failed_urls" items' = BBC.dict_get "failed_urls" items.
Proof.
  intros Hn Hl. unfold BBC.count_one, counted.
  destruct (BBC.given url) as [u|].
  2:{ exists items. rewrite app_nil_r. by split_and!. }
  unfold BBC.getitem at 1. rewrite Hn. simpl.
  unfold BBC.append_to, BBC.getitem. rewrite dict_get_set_ne, Hl by done. simpl.
  eexists. split; [done|].
  rewrite dict_get_set_eq, !dict_get_set_ne, dict_get_set_eq by done.
  rewrite !dict_get_set_ne by done.
  rewrite length_app, fmap_app. simpl. split_and!; [|done|done|done].
  do 2 f_equal. lia.
Qed.

Lemma count_failed items failed url :
  BBC.dict_get "failed_articles" items
    = Some (BBC.JInt (Z.of_nat (length failed))) →
  BBC.dict_get "failed_urls" items
    = Some (BBC.JList (BBC.JStr <$> failed)) →
  ∃ items',
    BBC.count_one float_add (BBC.JDict items) "failed_articles"
      "failed_urls" url = Ok (BBC.JDict items') ∧
    BBC.dict_get "failed_articles" items'
      = Some (BBC.JInt (Z.of_nat (length (failed ++ counted url)))) ∧
    BBC.dict_get "failed_urls" items'
      = Some (BBC.JList (BBC.JStr <$> (failed ++ counted url))) ∧
    BBC.dict_get "completed_articles" items'
      = BBC.dict_get "completed_articles" items ∧
    BBC.dict_get "completed_urls" items' = BBC.dict_get "completed_urls" items.
Proof.
  intros Hn Hl. unfold BBC.count_one, counted.
  destruct (BBC.given url) as [u|].
  2:{ exists items. rewrite app_nil_r. by split_and!. }
  unfold BBC.getitem at 1. rewrite Hn. simpl.
  unfold BBC.append_to, BBC.getitem. rewrite dict_get_set_ne, Hl by done. simpl.
  eexists. split; [done|].
  rewrite dict_get_set_eq, !dict_get_set_ne, dict_get_set_eq by done.
  rewrite !dict_get_set_ne by done.
  rewrite length_app, fmap_app. simpl. split_and!; [|done|done|done].
  do 2 f_equal. lia.
Qed.

(** X21: [update_progress] keeps the counters of the progress record
    equal to the lengths of its lists: on a record where they are, it
    appends the URL it is given to its list and adds one to its counter,
    and writes the record back; an empty URL counts as none. *)
Theorem update_progress_keeps_tally (completed_url failed_url : option string)
    (w : BBC.world) (d : BBC.json) (completed failed : list string) :
  BBC.progress w = Some (BBC.Doc d) →
  tallied d completed failed →
  BBC.writable w = true →
  ∃ d', BBC.progress (update_progress completed_url failed_url w).1
          = Some (BBC.Doc d') ∧
        tallied d' (completed ++ counted completed_url)
                   (failed ++ counted failed_url).
Proof.
  intros Hp (items & -> & Hcn & Hcl & Hfn & Hfl) Hw.
  unfold BBC.update_progress, BBC.update_progress_body, BBC.load_or_reset,
    BBC.load. rewrite Hp. cbn [mbind res_bind].
  destruct (count_completed items completed completed_url Hcn Hcl)
    as (items1 & -> & Hcn1 & Hcl1 & Hfn1 & Hfl1).
  cbn [mbind res_bind].
  rewrite <-Hfn1 in Hfn. rewrite <-Hfl1 in Hfl.
  destruct (count_failed items1 failed failed_url Hfn Hfl)
    as (items2 & -> & Hfn2 & Hfl2 & Hcn2 & Hcl2).
  cbn [mbind res_bind]. unfold BBC.setitem, BBC.dump. simpl. rewrite Hw. simpl.
  eexists. split; [done|]. eexists. split; [done|].
  rewrite !dict_get_set_ne by done. split_and!; congruence.
Qed.

(** X22: the filter of a resumed run leaves out exactly the URLs the
    progress record lists as completed or failed, and keeps the order
    of the others. *)
Theorem remaining_skips_recorded (urls : list string) (w : BBC.world)
    (d : BBC.json) (completed failed : list string) :
  BBC.progress w = Some (BBC.Doc d) →
  tallied d completed failed →
  BBC.remaining urls w = filter (λ u, (u ∉ completed) ∧ (u ∉ failed)) urls.
Proof.
  intros Hp (items & -> & _ & Hcl & _ & Hfl).
  assert (∀ (l : list string) k,
            BBC.dict_get k items = Some (BBC.JList (BBC.JStr <$> l)) →
            BBC.url_set (BBC.JDict items) k = Ok (list_to_set l)) as Hset.
  { intros l k Hk. unfold BBC.url_set. rewrite Hk. clear.
    induction l as [|u l IH]; [done|].
    rewrite fmap_cons. cbn [foldr]. rewrite IH. done. }
  unfold BBC.remaining, BBC.load. rewrite Hp. cbn [mbind res_bind].
  rewrite (Hset _ _ Hcl), (Hset _ _ Hfl). cbn [mbind res_bind].
  apply list_filter_iff. intros u.
  rewrite not_elem_of_union, !elem_of_list_to_set. done.
Qed.

End BBCTally.

Lemma default_progress_tallied started last :
  tallied (BBC.default_progress started last) [] [].
Proof. eexists. split; [reflexivity|]. by split_and!. Qed.

Lemma update_progress_keeps_tally_witness :
  ∃ d', BBC.progress
          (BBC.update_progress sample_iso (λ _ _, "") (Some "u") None
             {| BBC.progress := Some (BBC.Doc (BBC.default_progress "a" "b"));
                BBC.articles := ∅; BBC.writable := true;
                BBC.trace := []; BBC.ticks := 0 |}).1
        = Some (BBC.Doc d') ∧
        tallied d' ([] ++ counted (Some "u")) ([] ++ counted None).
Proof.
  exact (update_progress_keeps_tally sample_iso (λ _ _, "") (Some "u") None
           {| BBC.progress := Some (BBC.Doc (BBC.default_progress "a" "b"));
              BBC.articles := ∅; BBC.writable := true;
              BBC.trace := []; BBC.ticks := 0 |}
           (BBC.default_progress "a" "b") [] []
           eq_refl (default_progress_tallied "a" "b") eq_refl).
Defined.

Lemma sample_record_tallied : tallied sample_record ["a"] ["b"].
Proof. eexists. split; [reflexivity|]. by split_and!. Qed.

(** Of four URLs, the completed one and the failed one are left out. *)
Lemma remaining_skips_recorded_witness :
  BBC.remaining ["a"; "c"; "b"; "d"] recorded_progress
    = filter (λ u, (u ∉ ["a"]) ∧ (u ∉ ["b"])) ["a"; "c"; "b"; "d"] ∧
  filter (λ u, (u ∉ ["a"]) ∧ (u ∉ ["b"])) ["a"; "c"; "b"; "d"] = ["c"; "d"].
Proof.
  assert (BBC.progress recorded_progress = Some (BBC.Doc sample_record))
    as H1 by reflexivity.
  split.
  - exact (remaining_skips_recorded ["a"; "c"; "b"; "d"] recorded_progress
             sample_record ["a"] ["b"] H1 sample_record_tallied).
  - vm_compute. reflexivity.
Defined.

(** * The worker, the batches and the backups of rekhta-data.py *)

Section RekhtaBatch.

Variable arun : nat → string → response.
Variable cfg : Rekhta.config.

Local Abbreviation attempts := (Rekhta.attempts arun cfg).
Local Abbreviation download_article := (Rekhta.download_article arun cfg).
Local Abbreviation download_batch := (Rekhta.download_batch arun cfg).
Local Abbreviation log := (Rekhta.track_file cfg).

(** What the retry loop does, by its result. *)
Lemma rekhta_attempts_spec url : ∀ n attempt st,
  Z.of_nat n = Z.max 0 (Rekhta.retry_attempts cfg - attempt) →
  ∃ t, trace (attempts n attempt url st).1 = trace st ++ t ∧
       Forall (λ u, u = url) (fetches t) ∧ length (fetches t) ≤ n ∧
       failed (attempts n attempt url st).1 = failed st ∧
       tracked st ⊆ tracked (attempts n attempt url st).1 ∧
       match (attempts n attempt url st).2 with
       | Some true =>
           tracked (attempts n attempt url st).1 = {[url]} ∪ tracked st ∧
           appends log t = [url +:+ nl]
       | Some false =>
           tracked (attempts n attempt url st).1 = tracked st ∧
           appends log t = []
       | None =>
           n = 0 ∧ attempts n attempt url st = (st, None)
       end.
Proof.
  induction n as [|n IH]; intros attempt st Hn.
  { exists []. rewrite app_nil_r. simpl. split_and!; done || constructor. }
  cbn [Rekhta.attempts].
  assert (∀ st1, tracked st1 = tracked st → failed st1 = failed st →
            (∃ t1, trace st1 = trace st ++ t1 ∧ fetches t1 = [url] ∧
                   appends log t1 = []) →
            let r := if (attempt <? Rekhta.retry_attempts cfg - 1)%Z
                     then attempts n (attempt + 1) url
                            (emit (Sleep (2 ^ attempt)) st1)
                     else (st1, Some false) in
            ∃ t, trace r.1 = trace st ++ t ∧
                 Forall (λ u, u = url) (fetches t) ∧ length (fetches t) ≤ S n ∧
                 failed r.1 = failed st ∧ tracked st ⊆ tracked r.1 ∧
                 match r.2 with
                 | Some true => tracked r.1 = {[url]} ∪ tracked st ∧
                                appends log t = [url +:+ nl]
                 | Some false => tracked r.1 = tracked st ∧ appends log t = []
                 | None => S n = 0 ∧ r = (st, None)
                 end) as Hhandler.
  { intros st1 Ht Hf (t1 & E1 & F1 & A1).
    destruct (Z.ltb_spec attempt (Rekhta.retry_attempts cfg - 1)) as [Hlt|Hge];
      cbv zeta.
    - destruct (IH (attempt + 1)%Z (emit (Sleep (2 ^ attempt)) st1))
        as (t & E & F & L & Hfl & Hk & Hres); [lia|].
      exists (t1 ++ [Sleep (2 ^ attempt)] ++ t).
      simpl in E. rewrite E, E1, <-!app_assoc. simpl in Hfl, Hk.
      rewrite !fetches_app, !appends_app, F1, A1. simpl.
      split_and!; [done|constructor; [done|exact F]|lia|congruence|by rewrite <-Ht|].
      destruct (attempts n (attempt + 1) url _).2 as [[]|]; simpl in *.
      + by rewrite <-Ht.
      + by rewrite <-Ht.
      + destruct Hres as [-> _]. lia.
    - exists t1. simpl. rewrite F1, A1.
      split_and!; [done|by apply Forall_singleton|simpl; lia|done|
                   by rewrite Ht|done|done]. }
  set (st0 := called (emit (Fetch url) st)).
  assert (∃ t1, trace st0 = trace st ++ t1 ∧ fetches t1 = [url] ∧
                appends log t1 = []) as H0 by (by eexists).
  destruct (arun (calls st) url) as [p|reason]; [|by apply Hhandler].
  destruct (Rekhta.no_content p).
  { exists [Fetch url]. simpl.
    split_and!; [done|by apply Forall_singleton|lia|done|done|done|done]. }
  destruct (open_w _ _) as [d|e]; [|by apply Hhandler].
  destruct (append_text _ _ _) as [d'|e].
  - eexists. simpl. rewrite <-!app_assoc. split; [reflexivity|]. simpl.
    rewrite decide_True by done.
    split_and!; [by apply Forall_singleton|lia|done|set_solver|done|done].
  - apply Hhandler; [done|done|]. eexists. simpl. rewrite <-app_assoc.
    split; [reflexivity|]. by split.
Qed.

(** X23: the worker of [rekhta-data.py] fetches nothing but its URL,
    at most [retry_attempts] times; it returns [True] only after it has
    appended the URL to the track file, once, and added it to the set,
    and otherwise leaves both alone; it returns [None] only when no
    attempt is allowed, and then it has done nothing. *)
Theorem rekhta_tracks_only_on_success (url : string) (st : state) :
  ∃ t, trace (download_article url st).1 = trace st ++ t ∧
       Forall (λ u, u = url) (fetches t) ∧
       length (fetches t) ≤ Z.to_nat (Rekhta.retry_attempts cfg) ∧
       match (download_article url st).2 with
       | Some true =>
           tracked (download_article url st).1 = {[url]} ∪ tracked st ∧
           appends log t = [url +:+ nl]
       | Some false =>
           tracked (download_article url st).1 = tracked st ∧
           appends log t = []
       | None =>
           (Rekhta.retry_attempts cfg ≤ 0)%Z ∧ t = []
       end.
Proof.
  unfold Rekhta.download_article.
  destruct (rekhta_attempts_spec url (Z.to_nat (Rekhta.retry_attempts cfg)) 0 st)
    as (t & E & F & L & _ & _ & Hres); [lia|].
  exists t. split_and!; [done|done|done|].
  destruct (attempts _ 0 url st).2 as [[]|]; [done|done|].
  destruct Hres as [Hz Hst]. split; [lia|].
  rewrite Hst in E. simpl in E. symmetry.
  apply (app_inv_head (trace st)). by rewrite app_nil_r.
Qed.

(** A batch counts the lines it appends to the track file. *)
Lemma download_batch_spec urls st :
  ∃ t, trace (download_batch urls st).1 = trace st ++ t ∧
       (download_batch urls st).2 = length (appends log t) ∧
       (download_batch urls st).2 ≤ length urls ∧
       tracked st ⊆ tracked (download_batch urls st).1 ∧
       ∀ u, u ∈ fetches t → u ∈ urls ∧ u ∉ tracked st.
Proof.
  unfold Rekhta.download_batch.
  set (tasks := filter (λ url, url ∉ tracked st) urls).
  assert (∀ u, u ∈ tasks → u ∈ urls ∧ u ∉ tracked st) as Htasks.
  { intros u [? ?]%list_elem_of_filter. done. }
  assert (length tasks ≤ length urls) as Hlen by apply length_filter.
  assert (∀ (l : list string) (acc : state * nat),
            let r := foldl (λ acc url,
                        let r := download_article url acc.1 in
                        (r.1, acc.2 + match r.2 with Some true => 1 | _ => 0 end))
                           acc l in
            ∃ t, trace r.1 = trace acc.1 ++ t ∧
                 r.2 = acc.2 + length (appends log t) ∧
                 r.2 ≤ acc.2 + length l ∧
                 tracked acc.1 ⊆ tracked r.1 ∧
                 ∀ u, u ∈ fetches t → u ∈ l) as Hfold.
  { induction l as [|url l IH]; intros acc; simpl.
    { exists []. rewrite app_nil_r. simpl. split_and!; [done|lia|lia|done|].
      by intros u ?%elem_of_nil. }
    destruct (rekhta_attempts_spec url (Z.to_nat (Rekhta.retry_attempts cfg))
                0 acc.1) as (t1 & E1 & F1 & _ & _ & K1 & R1); [lia|].
    fold (download_article url acc.1) in E1, K1, R1.
    destruct (IH ((download_article url acc.1).1,
                  acc.2 + match (download_article url acc.1).2 with
                          | Some true => 1 | _ => 0 end))
      as (t2 & E2 & C2 & L2 & K2 & F2).
    simpl in E2, C2, L2, K2.
    exists (t1 ++ t2). rewrite E2, E1, <-app_assoc.
    rewrite appends_app, fetches_app, length_app.
    split_and!; [done| | |by etrans|].
    - rewrite C2. destruct (download_article url acc.1).2 as [[]|];
        [destruct R1 as [_ ->]|destruct R1 as [_ ->]|
         destruct R1 as [_ R1]]; simpl; try lia.
      rewrite R1 in E1. simpl in E1.
      assert (t1 = []) as -> by (apply (app_inv_head (trace acc.1));
                                 by rewrite app_nil_r).
      simpl. lia.
    - destruct (download_article url acc.1).2 as [[]|]; lia.
    - intros u [Hu|Hu]%elem_of_app.
      + apply elem_of_cons. left. by apply (proj1 (Forall_forall _ _) F1).
      + apply elem_of_cons. right. by apply F2. }
  destruct tasks as [|a tasks'] eqn:Et.
  { exists []. rewrite app_nil_r. simpl. split_and!; [done|done|lia|done|].
    by intros u ?%elem_of_nil. }
  pose proof (Hfold (a :: tasks') (st, 0)) as H0. clear Hfold.
  cbv zeta in H0 |- *.
  destruct (foldl _ (st, 0) (a :: tasks')) as [s1 n1].
  destruct H0 as (t & E & C & L & K & F). cbn [fst snd] in E, C, L, K |- *.
  exists (t ++ [Sleep 1]). cbn [trace emit].
  rewrite E, <-app_assoc, appends_app, fetches_app. simpl.
  rewrite !app_nil_r. split_and!; [done|lia|lia|done|].
  intros u Hu. apply Htasks, F, Hu.
Qed.

End RekhtaBatch.

Lemma universal_newlines_fixed x : no_cr x = true → universal_newlines x = x.
Proof.
  induction x as [|c x IH]; [done|]. simpl.
  intros [Hc Hx]%andb_prop. apply negb_true_iff in Hc. rewrite Hc.
  by rewrite IH.
Qed.

Lemma universal_newlines_idem s :
  universal_newlines (universal_newlines s) = universal_newlines s.
Proof. apply universal_newlines_fixed, no_cr_universal_newlines. Qed.

Lemma rekhta_load_tracked_urls_returns cfg d :
  ∃ s, Rekhta.load_tracked_urls cfg d = Ok s.
Proof.
  unfold Rekhta.load_tracked_urls, read_text.
  destruct (d !! Rekhta.track_file cfg) as [[]|]; simpl; eauto.
Qed.

Section RekhtaMain.

Variable now : nat → string.
Variable arun : nat → string → response.
Variable url_pattern : string → bool.
Variable cfg : Rekhta.config.
Variable lim : Rekhta.limits.

Local Abbreviation log := (Rekhta.track_file cfg).
Local Abbreviation backup_name := (Rekhta.backup_name cfg).
Local Abbreviation backup_tracking_files := (Rekhta.backup_tracking_files now cfg).
Local Abbreviation download_batch := (Rekhta.download_batch arun cfg).
Local Abbreviation round := (Rekhta.round now arun cfg lim).
Local Abbreviation rounds := (Rekhta.rounds now arun cfg lim).
Local Abbreviation main := (Rekhta.main now arun url_pattern cfg lim).

Lemma backup_name_is_not_log timestamp : backup_name timestamp ≠ log.
Proof.
  unfold Rekhta.backup_name. intros H%app_eq_self. discriminate.
Qed.

(** A backup leaves the track file, the sets and the network alone. *)
Lemma backup_quiet st :
  disk (backup_tracking_files st) !! log = disk st !! log ∧
  tracked (backup_tracking_files st) = tracked st ∧
  failed (backup_tracking_files st) = failed st ∧
  ∃ t, trace (backup_tracking_files st) = trace st ++ t ∧
       fetches t = [] ∧ appends log t = [].
Proof.
  assert (∃ t, trace st = trace st ++ t ∧ fetches t = [] ∧ appends log t = [])
    as Hnil by (exists []; by rewrite app_nil_r).
  unfold Rekhta.backup_tracking_files. simpl.
  destruct (disk st !! log) as [[s| |]|] eqn:Hf; simpl; [| |done|done].
  - unfold open_w.
    destruct (disk st !! backup_name (now (ticks st))) as [[]|]; simpl; try done;
      rewrite ?lookup_insert_ne by apply backup_name_is_not_log;
      (split_and!; [done..|]); eexists; by split.
  - unfold open_w.
    destruct (disk st !! backup_name (now (ticks st))) as [[]|]; simpl; try done;
      rewrite ?lookup_insert_ne by apply backup_name_is_not_log;
      by split_and!.
Qed.

(** X24: a backup of [rekhta-data.py] copies the URLs of the track
    file: when the track file is a text and the backup can be opened,
    the track file is left as it was, the backup holds the text with
    the line ends as they were read, and a run whose [track_file] is
    the backup loads the same set of URLs; the backup is the one file
    written. *)
Theorem backup_keeps_the_urls (st : state) (s : string) :
  disk st !! log = Some (Regular s) →
  disk st !! backup_name (now (ticks st)) ≠ Some Denied →
  disk (backup_tracking_files st) !! log = Some (Regular s) ∧
  disk (backup_tracking_files st) !! backup_name (now (ticks st))
    = Some (Regular (universal_newlines s)) ∧
  Rekhta.load_tracked_urls
    {| Rekhta.download_dir := Rekhta.download_dir cfg;
       Rekhta.track_file := backup_name (now (ticks st));
       Rekhta.retry_attempts := Rekhta.retry_attempts cfg |}
    (disk (backup_tracking_files st))
    = Rekhta.load_tracked_urls cfg (disk st) ∧
  writes (trace (backup_tracking_files st))
    = writes (trace st) ++ [backup_name (now (ticks st))].
Proof.
  intros Hf Hb.
  destruct (backup_quiet st) as (Hlog & _).
  assert (disk (backup_tracking_files st) !! backup_name (now (ticks st))
          = Some (Regular (universal_newlines s)) ∧
          writes (trace (backup_tracking_files st))
          = writes (trace st) ++ [backup_name (now (ticks st))]) as [Hcopy Hw].
  { unfold Rekhta.backup_tracking_files. simpl. rewrite Hf. unfold open_w.
    destruct (disk st !! backup_name (now (ticks st))) as [[]|]; simpl; try done;
      rewrite lookup_insert_eq, writes_app; done. }
  split_and!; [by rewrite Hlog|done| |done].
  unfold Rekhta.load_tracked_urls, read_text. cbn [Rekhta.track_file].
  rewrite Hcopy, Hf. by rewrite universal_newlines_idem.
Qed.

Lemma rekhta_round_spec candidates i r :
  ∃ t successful,
    trace (Rekhta.st (round candidates i r)) = trace (Rekhta.st r) ++ t ∧
    successful = length (appends log t) ∧
    (Z.of_nat successful ≤ Z.max 0 (Rekhta.concurrent_limit lim))%Z ∧
    Rekhta.downloaded_count (round candidates i r)
      = (Rekhta.downloaded_count r + Z.of_nat successful)%Z ∧
    Rekhta.successful_this_session (round candidates i r)
      = Rekhta.successful_this_session r + successful ∧
    tracked (Rekhta.st r) ⊆ tracked (Rekhta.st (round candidates i r)) ∧
    ∀ u, u ∈ fetches t → u ∈ candidates ∧ (u ∉ tracked (Rekhta.st r)).
Proof.
  unfold Rekhta.round.
  set (batch := take (Z.to_nat (Rekhta.concurrent_limit lim)) (drop i candidates)).
  destruct (download_batch_spec arun cfg batch (Rekhta.st r))
    as (t & E & C & L & K & F).
  destruct (download_batch batch (Rekhta.st r)) as [s successful].
  simpl in E, C, L, K.
  assert (length batch ≤ Z.to_nat (Rekhta.concurrent_limit lim)) as Hb
    by (unfold batch; rewrite length_take; lia).
  assert (∀ u, u ∈ fetches t → u ∈ candidates ∧ (u ∉ tracked (Rekhta.st r))) as F'.
  { intros u Hu. destruct (F u Hu) as [Hin ?]. split; [|done].
    apply (subseteq_drop i candidates),
      (subseteq_take (Z.to_nat (Rekhta.concurrent_limit lim)) (drop i candidates)), Hin. }
  destruct (_ >=? _)%Z; simpl.
  - destruct (backup_quiet s) as (_ & Ht & _ & t2 & E2 & F2 & A2).
    exists (t ++ t2), successful. rewrite E2, E, <-app_assoc.
    rewrite appends_app, A2, app_nil_r.
    split_and!; [done|done|lia|done|done|by rewrite Ht|].
    intros u. rewrite fetches_app, F2, app_nil_r. apply F'.
  - exists t, successful. split_and!; [done|done|lia|done|done|done|done].
Qed.

Lemma rekhta_rounds_spec candidates starts : ∀ r,
  ∃ t,
    trace (Rekhta.st (rounds candidates starts r)) = trace (Rekhta.st r) ++ t ∧
    Rekhta.successful_this_session (rounds candidates starts r)
      = Rekhta.successful_this_session r + length (appends log t) ∧
    Rekhta.downloaded_count (rounds candidates starts r)
      = (Rekhta.downloaded_count r + Z.of_nat (length (appends log t)))%Z ∧
    ((Rekhta.downloaded_count r
        < Rekhta.max_downloads lim + Z.max 0 (Rekhta.concurrent_limit lim))%Z →
     (Rekhta.downloaded_count (rounds candidates starts r)
        < Rekhta.max_downloads lim + Z.max 0 (Rekhta.concurrent_limit lim))%Z) ∧
    ∀ u, u ∈ fetches t → u ∈ candidates.
Proof.
  induction starts as [|i rest IH]; intros r; simpl.
  { exists []. rewrite app_nil_r. simpl. split_and!; [done|lia|lia|done|].
    by intros u ?%elem_of_nil. }
  destruct (Z.geb_spec (Rekhta.downloaded_count r) (Rekhta.max_downloads lim)).
  { exists []. rewrite app_nil_r. simpl. split_and!; [done|lia|lia|done|].
    by intros u ?%elem_of_nil. }
  destruct (rekhta_round_spec candidates i r) as (t1 & n1 & E1 & C1 & L1 & D1 & S1 & _ & F1).
  destruct (IH (round candidates i r)) as (t2 & E2 & S2 & D2 & B2 & F2).
  exists (t1 ++ t2). rewrite E2, E1, <-app_assoc, appends_app, length_app.
  split_and!; [done|lia|lia| |].
  - intros _. apply B2. lia.
  - intros u. rewrite fetches_app. intros [Hu|Hu]%elem_of_app.
    + by apply F1. + by apply F2.
Qed.

(** X25: [main] of [rekhta-data.py] tests the cap between batches only:
    with a positive [concurrent_limit] it returns, once the
    environment is set up, and when it reaches
    the loop the count it ends with is the number of URLs tracked at
    the start plus the lines appended to the track file; a run that
    starts below the cap ends less than one batch above it; and only
    candidates of the URL file that match the pattern and were not
    tracked at the start are fetched. *)
Theorem rekhta_main_passes_cap_by_less_than_a_batch (available : bool) (d : fs) :
  (0 < Rekhta.concurrent_limit lim)%Z →
  ∃ tracked0 outcome,
    Rekhta.load_tracked_urls cfg d = Ok tracked0 ∧
    main available d = Ok outcome ∧
    ∀ r, outcome = Some r →
      Rekhta.downloaded_count r
        = (Z.of_nat (size tracked0)
           + Z.of_nat (length (appends log (trace (Rekhta.st r)))))%Z ∧
      Rekhta.successful_this_session r
        = length (appends log (trace (Rekhta.st r))) ∧
      ((Z.of_nat (size tracked0) < Rekhta.max_downloads lim)%Z →
       (Rekhta.downloaded_count r
          < Rekhta.max_downloads lim + Rekhta.concurrent_limit lim)%Z) ∧
      ∀ u, u ∈ fetches (trace (Rekhta.st r)) →
           (u ∉ tracked0) ∧ url_pattern u = true.
Proof.
  intros Hlim.
  destruct (rekhta_load_tracked_urls_returns cfg d) as [tracked0 Ht].
  exists tracked0. unfold Rekhta.main.
  destruct available; simpl; [|eexists; split_and!; done].
  set (s := backup_tracking_files (start d ∅ ∅)).
  destruct (backup_quiet (start d ∅ ∅)) as (Hlog & _ & _ & t0 & E0 & F0 & A0).
  fold s in Hlog, E0. simpl in Hlog, E0.
  assert (Rekhta.load_tracked_urls cfg (disk s) = Ok tracked0) as ->.
  { rewrite <-Ht. unfold Rekhta.load_tracked_urls, read_text. by rewrite Hlog. }
  simpl.
  assert (∃ l, Rekhta.load_candidate_urls url_pattern lim (disk s) = Ok l ∧
               ∀ u, u ∈ l → url_pattern u = true) as (l & -> & Hl).
  { unfold Rekhta.load_candidate_urls, read_text.
    destruct (disk s !! Rekhta.urls_file lim) as [[]|]; simpl; eexists;
      (split; [done|]);
      try (by intros u ?%elem_of_nil).
    by intros u [? _]%list_elem_of_filter. }
  simpl.
  set (candidates := filter (λ url, url ∉ tracked0) l).
  assert (∀ u, u ∈ candidates → (u ∉ tracked0) ∧ url_pattern u = true) as Hc.
  { intros u [? ?%Hl]%list_elem_of_filter. done. }
  destruct candidates as [|c0 cands] eqn:Ec; [eexists; split_and!; done|].
  destruct (range_from_0_cases (length (c0 :: cands)) (Rekhta.concurrent_limit lim))
    as [[Hz _]|[[Hneg _]|[_ ->]]]; [lia|lia|]. simpl.
  eexists. split; [done|]. split; [done|]. intros r [= <-]. simpl.
  match goal with |- context [rounds ?c ?starts ?r0] =>
    destruct (rekhta_rounds_spec c starts r0) as (t & E & S & D & B & F);
    destruct (backup_quiet (Rekhta.st (rounds c starts r0)))
      as (_ & _ & _ & t2 & E2 & F2 & A2)
  end.
  simpl in E, S, D, B. rewrite E2, E, E0. simpl.
  rewrite !appends_app, !fetches_app, A0, A2, F0, F2, app_nil_r. simpl.
  split_and!; [lia|lia|intros ?; lia|].
  intros u Hu. apply Hc, F. by rewrite app_nil_r in Hu.
Qed.

End RekhtaMain.

(** A backup of a track file of one URL. *)
Lemma backup_keeps_the_urls_witness :
  disk (Rekhta.backup_tracking_files sample_now (sample_rekhta 3)
          (start one_tracked ∅ ∅)) !! "t.txt"
    = Some (Regular (lines_text [node_1])) ∧
  disk (Rekhta.backup_tracking_files sample_now (sample_rekhta 3)
          (start one_tracked ∅ ∅))
    !! Rekhta.backup_name (sample_rekhta 3) (sample_now 0)
    = Some (Regular (universal_newlines (lines_text [node_1]))) ∧
  Rekhta.load_tracked_urls
    {| Rekhta.download_dir := "out";
       Rekhta.track_file := Rekhta.backup_name (sample_rekhta 3) (sample_now 0);
       Rekhta.retry_attempts := 3 |}
    (disk (Rekhta.backup_tracking_files sample_now (sample_rekhta 3)
             (start one_tracked ∅ ∅)))
    = Rekhta.load_tracked_urls (sample_rekhta 3) one_tracked ∧
  writes (trace (Rekhta.backup_tracking_files sample_now (sample_rekhta 3)
                   (start one_tracked ∅ ∅)))
    = [] ++ [Rekhta.backup_name (sample_rekhta 3) (sample_now 0)].
Proof.
  assert (disk (start one_tracked ∅ ∅) !! Rekhta.track_file (sample_rekhta 3)
          = Some (Regular (lines_text [node_1]))) as H1 by reflexivity.
  assert (disk (start one_tracked ∅ ∅)
            !! Rekhta.backup_name (sample_rekhta 3)
                 (sample_now (ticks (start one_tracked ∅ ∅)))
          ≠ Some Denied) as H2 by (intros H; vm_compute in H; discriminate).
  exact (backup_keeps_the_urls sample_now (sample_rekhta 3)
           (start one_tracked ∅ ∅) (lines_text [node_1]) H1 H2).
Defined.

(** The cap of one, with batches of two, on three candidates. *)
Lemma rekhta_main_passes_cap_by_less_than_a_batch_witness :
  ∃ tracked0 outcome,
    Rekhta.load_tracked_urls (sample_rekhta 3) three_candidates = Ok tracked0 ∧
    Rekhta.main sample_now sample_up (λ _, true) (sample_rekhta 3)
      (sample_limits 1 2) true three_candidates = Ok outcome ∧
    ∀ r, outcome = Some r →
      Rekhta.downloaded_count r
        = (Z.of_nat (size tracked0)
           + Z.of_nat (length (appends "t.txt" (trace (Rekhta.st r)))))%Z ∧
      Rekhta.successful_this_session r
        = length (appends "t.txt" (trace (Rekhta.st r))) ∧
      ((Z.of_nat (size tracked0) < 1)%Z →
       (Rekhta.downloaded_count r < 1 + 2)%Z) ∧
      ∀ u, u ∈ fetches (trace (Rekhta.st r)) →
           (u ∉ tracked0) ∧ (λ _ : string, true) u = true.
Proof.
  assert (0 < Rekhta.concurrent_limit (sample_limits 1 2))%Z as H by (simpl; lia).
  exact (rekhta_main_passes_cap_by_less_than_a_batch sample_now sample_up
           (λ _, true) (sample_rekhta 3) (sample_limits 1 2) true
           three_candidates H).
Defined.

(** * The levels of nature-articles.py *)

Section NatureLoop.

Variable arun : nat → string → response.
Variable url_path : string → string.
Variable extract_article_links : nat → string → gset string.
Variable order : gset string → list string.
Variable cfg : Nature.config.
Variable max_downloads : Z.
Variable max_depth : nat.

Local Abbreviation download_article := (Nature.download_article arun url_path cfg).
Local Abbreviation download_level :=
  (Nature.download_level arun url_path cfg max_downloads).
Local Abbreviation discover := (Nature.discover extract_article_links order).
Local Abbreviation turn :=
  (Nature.turn arun url_path extract_article_links order cfg max_downloads
     max_depth).
Local Abbreviation loop :=
  (Nature.loop arun url_path extract_article_links order cfg max_downloads
     max_depth).
Local Abbreviation log := (Nature.track_file cfg).

(** One download: one fetch, and the counter goes up by one exactly
    when a line is appended to the track file. *)
Lemma nature_download_counts url c :
  ∃ t, trace (Nature.cs (download_article url c)) = trace (Nature.cs c) ++ t ∧
       fetches t = [url] ∧
       Nature.total_downloaded (download_article url c)
         = Nature.total_downloaded c + length (appends log t) ∧
       length (appends log t) ≤ 1 ∧
       tracked (Nature.cs c) ⊆ tracked (Nature.cs (download_article url c)).
Proof using Type.
  clear extract_article_links order max_depth.
  unfold Nature.download_article.
  destruct (arun (calls (Nature.cs c)) url) as [p|reason]; simpl.
  2:{ eexists. split; [done|]. simpl. split_and!; [done|lia|lia|done]. }
  destruct (markdown p) as [md|]; simpl.
  - destruct (open_w _ _) as [d|e]; simpl.
    2:{ eexists. split; [done|]. simpl. split_and!; [done|lia|lia|done]. }
    destruct (append_text _ _ _) as [d'|e]; simpl.
    2:{ eexists. split; [by rewrite <-app_assoc|]. simpl.
        split_and!; [done|lia|lia|done]. }
    eexists. split; [by rewrite <-!app_assoc|]. simpl.
    rewrite decide_True by done. simpl. split_and!; [done|lia|lia|set_solver].
  - destruct (append_text _ _ _) as [d'|e]; simpl.
    2:{ eexists. split; [done|]. simpl. split_and!; [done|lia|lia|done]. }
    eexists. split; [by rewrite <-!app_assoc|]. simpl.
    rewrite decide_True by done. simpl. split_and!; [done|lia|lia|set_solver].
Qed.

(** X26: in [nature-articles.py] the cap is tested when the tasks of a
    level are made, not when they run: a level that starts below the
    cap fetches every one of its URLs once, in order, however many they
    are, and a level that starts at the cap fetches none; the counter
    goes up by the number of lines appended to the track file, at most
    by the size of the level. *)
Theorem nature_level_is_downloaded_whole (batch : list (string * nat))
    (c : Nature.crawl) :
  ∃ t, trace (Nature.cs (download_level batch c)) = trace (Nature.cs c) ++ t ∧
       fetches t
         = (if bool_decide (Z.of_nat (Nature.total_downloaded c) < max_downloads)%Z
            then batch.*1 else []) ∧
       Nature.total_downloaded (download_level batch c)
         = Nature.total_downloaded c + length (appends log t) ∧
       length (appends log t) ≤ length batch.
Proof using Type.
  clear extract_article_links order max_depth.
  unfold Nature.download_level.
  assert (∀ (l : list string) c,
            ∃ t, trace (Nature.cs (foldl (λ c url, download_article url c) c l))
                   = trace (Nature.cs c) ++ t ∧
                 fetches t = l ∧
                 Nature.total_downloaded (foldl (λ c url, download_article url c) c l)
                   = Nature.total_downloaded c + length (appends log t) ∧
                 length (appends log t) ≤ length l) as Hfold.
  { clear c. induction l as [|url l IH]; intros c; simpl.
    { exists []. rewrite app_nil_r. simpl. split_and!; [done|done|lia|lia]. }
    destruct (nature_download_counts url c) as (t1 & E1 & F1 & C1 & L1 & _).
    destruct (IH (download_article url c)) as (t2 & E2 & F2 & C2 & L2).
    exists (t1 ++ t2). rewrite E2, E1, <-app_assoc.
    rewrite fetches_app, appends_app, length_app, F1, F2.
    split_and!; [done|done|lia|lia]. }
  destruct (bool_decide _).
  - destruct (Hfold batch.*1 c) as (t & E & F & C & L). exists t.
    rewrite length_fmap in L. by split_and!.
  - exists []. rewrite app_nil_r. simpl. split_and!; [done|done|lia|lia].
Qed.

Lemma discover_depths k batch : ∀ st next_queue seen,
  Forall (λ p, p.2 = k) batch →
  Forall (λ p : string * nat, p.2 = S k) next_queue →
  Forall (λ p : string * nat, p.2 = S k)
    (foldl (λ acc p,
              let '(st, next_queue, seen) := acc in
              let fresh_links := extract_article_links (calls st) p.1 ∖ seen in
              (called (emit (Lookup p.1) st),
               next_queue ++ ((λ link, (link, S p.2)) <$> order fresh_links),
               seen ∪ fresh_links))
           (st, next_queue, seen) batch).1.2.
Proof.
  induction batch as [|[u d] batch IH]; intros st next_queue seen Hb Hq; simpl.
  - done.
  - apply Forall_cons in Hb as [Hd Hb]. simpl in Hd. subst d.
    apply IH; [done|]. apply Forall_app. split; [done|].
    apply Forall_fmap, Forall_forall. by intros link _.
Qed.

(** One turn takes a queue of one depth to a queue of the next depth,
    or to an empty one at the last depth. *)
Lemma turn_depths k f f' :
  Forall (λ p, p.2 = k) (Nature.queue f) →
  turn f = Some f' →
  (k < max_depth ∧ Forall (λ p, p.2 = S k) (Nature.queue f')) ∨
  Nature.queue f' = [].
Proof.
  intros Hq. unfold Nature.turn.
  set (batch := filter _ (Nature.queue f)).
  assert (Forall (λ p, p.2 = k) batch) as Hb.
  { apply Forall_forall. intros p [_ Hp]%list_elem_of_filter.
    by apply (proj1 (Forall_forall _ _) Hq). }
  destruct batch as [|[u d] batch'] eqn:Eb; [done|].
  pose proof Hb as [Hd _]%Forall_cons. simpl in Hd. subst d.
  destruct (bool_decide (k < max_depth)) eqn:Hk.
  - apply bool_decide_eq_true in Hk.
    pose proof (discover_depths k ((u, k) :: batch')
                  (Nature.cs (download_level ((u, k) :: batch') (Nature.fc f)))
                  [] (Nature.seen f) Hb (Forall_nil_2 _)) as Hd.
    unfold Nature.discover.
    destruct (foldl _ _ _) as [[st next_queue] seen']. simpl in Hd.
    intros [= <-]. left. by split.
  - intros [= <-]. by right.
Qed.

(** X27: the crawl of [nature-articles.py] ends whatever the site
    answers: every turn of the loop takes the queue one level deeper,
    and past [MAX_DEPTH] nothing is enqueued, so [MAX_DEPTH + 2] turns
    are enough from the seed. *)
Theorem nature_crawl_terminates (seed_url : string) (d : fs) (text : string) :
  read_text d (Nature.track_file cfg) = Ok text →
  ∃ f, Nature.crawl_articles arun url_path extract_article_links order cfg
         max_downloads max_depth (max_depth + 2) seed_url d = Ok (Some f).
Proof.
  intros Hr.
  assert (∀ fuel k f,
            Forall (λ p, p.2 = k) (Nature.queue f) →
            max_depth + 2 ≤ fuel + k → 1 ≤ fuel →
            ∃ f', loop fuel f = Some f') as Hloop.
  { induction fuel as [|fuel IH]; intros k f Hq Hfuel Hone; [lia|].
    simpl. destruct (Nature.queue f) as [|p q] eqn:Eq; [by eexists|].
    destruct (bool_decide _); [|by eexists].
    destruct (turn f) as [f'|] eqn:Et; [|by eexists].
    rewrite <-Eq in Hq.
    destruct (turn_depths k f f' Hq Et) as [[Hk Hq']|Hq'].
    - apply (IH (S k)); [done|lia|lia].
    - destruct fuel; simpl; rewrite Hq'; by eexists. }
  unfold Nature.crawl_articles, Nature.load_tracked_urls. rewrite Hr. simpl.
  edestruct (Hloop (max_depth + 2) 0) as [f' Hf']; [|lia|lia|].
  2:{ exists f'. by rewrite Hf'. }
  simpl. by repeat constructor.
Qed.

End NatureLoop.

(** A site whose every page links to two articles, with [MAX_DEPTH]
    one: the seed is fetched, then the two articles it links to, and
    the loop ends. *)
Lemma nature_crawl_terminates_witness :
  ∃ f, Nature.crawl_articles sample_up (λ u, u)
         (λ _ _, {[ node_2; node_3 ]}) sorted sample_nature 5 1 (1 + 2)
         "n/0" one_tracked = Ok (Some f) ∧
       fetches (trace (Nature.cs (Nature.fc f))) = ["n/0"; node_2; node_3] ∧
       Nature.queue f = [].
Proof.
  assert (read_text one_tracked (Nature.track_file sample_nature)
          = Ok (lines_text [node_1])) as H by reflexivity.
  destruct (nature_crawl_terminates sample_up (λ u, u)
              (λ _ _, {[ node_2; node_3 ]}) sorted sample_nature 5 1
              "n/0" one_tracked (lines_text [node_1]) H) as [f Hf].
  exists f. split; [exact Hf|].
  vm_compute in Hf. injection Hf as <-. split; vm_compute; reflexivity.
Defined.
